(** * Conway's Game of Life on a terminal: the engine of [src/main.cpp]

    The development embeds the cellular-automaton core of the program
    (the [grid] class, [double_buffered_grid], [next_generation] and the
    [game_of_life] class) and proves the properties stated about it.

    Modelling choices, all taken from the source:
    - a [grid] object is its two constant dimensions and the address of the
      [bool] array it owns ([std::unique_ptr<bool[]>]); the arrays live in a
      heap, so that two references to the same grid alias;
    - every function that touches memory, the terminal or the random engine
      is a computation in a state-and-fault monad over a [world];
    - [assert] is modelled as enabled: a failing assertion ends the run with
      [AssertFailed];
    - a [for] loop whose condition is [i != stop] is run with a fuel budget,
      and the theorems show which budget is enough;
    - [int] values are integers of [Z]; the one product [width * height] is
      checked against [INT_MAX], and with non-negative dimensions every other
      intermediate value lies between [-1] and that product;
    - the C++ library is outside the repository: the variates that
      [std::uniform_int_distribution] returns are an input, the oracle of the
      world, and [new] never runs out of memory. *)

From Stdlib Require Import ZArith Lia List String.
From stdpp Require Import base gmap list strings.
From Stdlib Require Import Ascii.

Local Open Scope Z_scope.

(** ** The world: heap, access log, terminal, random engine *)

Abbreviation loc := positive.

(** A reference to one array element, [data[i]]. *)
Definition cellref : Type := loc * Z.

(** The three ncurses calls made by [render]. *)
Inductive curses_call : Type :=
| Move (row col : Z)
| Addstr (s : string)
| Refresh.

Record world : Type := World {
  heap : gmap loc (list bool);   (* the arrays allocated with new bool[n] *)
  reads : list cellref;          (* every element read so far, oldest first *)
  writes : list cellref;         (* every element written so far, oldest first *)
  screen : list curses_call;     (* every ncurses call so far, oldest first *)
  drawn : nat;                   (* how many variates have been drawn *)
  junk : loc → nat → bool;       (* indeterminate contents of fresh arrays *)
  entropy : nat → Z;             (* the variates that the drawings return *)
}.

Inductive fault : Type :=
| AssertFailed      (* assert(...) did not hold *)
| BadArrayLength    (* new bool[n] with n < 0 *)
| Undefined         (* overflow of int, or an access outside any array *)
| OutOfFuel.        (* the fuel given to a loop was used up *)

Inductive outcome (A : Type) : Type :=
| Ok (a : A) (w : world)
| Fail (f : fault).
Arguments Ok {A} a w.
Arguments Fail {A} f.

Definition M (A : Type) : Type := world → outcome A.

#[global] Instance M_ret : MRet M := λ A a w, Ok a w.
#[global] Instance M_bind : MBind M := λ A B f m w,
  match m w with
  | Ok a w' => f a w'
  | Fail e => Fail e
  end.

Definition throw {A} (e : fault) : M A := λ _, Fail e.

Definition assert (b : bool) : M unit :=
  if b then mret tt else throw AssertFailed.

Definition log_read (r : cellref) (w : world) : world :=
  World (heap w) (reads w ++ [r]) (writes w) (screen w) (drawn w) (junk w) (entropy w).

Definition log_write (r : cellref) (h : gmap loc (list bool)) (w : world) : world :=
  World h (reads w) (writes w ++ [r]) (screen w) (drawn w) (junk w) (entropy w).

Definition array_get (cells : list bool) (i : Z) : option bool :=
  if 0 <=? i then cells !! Z.to_nat i else None.

(** Reading through a reference. *)
Definition load (r : cellref) : M bool := λ w,
  match heap w !! r.1 with
  | Some cells =>
      match array_get cells r.2 with
      | Some v => Ok v (log_read r w)
      | None => Fail Undefined
      end
  | None => Fail Undefined
  end.

(** Assigning through a reference. *)
Definition store (r : cellref) (v : bool) : M unit := λ w,
  match heap w !! r.1 with
  | Some cells =>
      match array_get cells r.2 with
      | Some _ => Ok tt (log_write r (<[r.1 := <[Z.to_nat r.2 := v]> cells]> (heap w)) w)
      | None => Fail Undefined
      end
  | None => Fail Undefined
  end.

(** [new bool[n]]: a fresh array whose contents are indeterminate. The heap
    of the model is unbounded: exhaustion of memory, at which [new] throws
    [std::bad_alloc], is left out. *)
Definition new_array (n : Z) : M loc := λ w,
  if n <? 0 then Fail BadArrayLength
  else
    let l := fresh (dom (heap w)) in
    Ok l (World (<[l := junk w l <$> seq 0 (Z.to_nat n)]> (heap w))
                (reads w) (writes w) (screen w) (drawn w) (junk w) (entropy w)).

Definition INT_MAX : Z := 2147483647.
Definition INT_MIN : Z := -2147483648.

(** The product of two [int]s; signed overflow is undefined behaviour. *)
Definition int_mul (a b : Z) : M Z :=
  if (INT_MIN <=? a * b) && (a * b <=? INT_MAX) then mret (a * b) else throw Undefined.

Definition curses (c : curses_call) : M unit := λ w,
  Ok tt (World (heap w) (reads w) (writes w) (screen w ++ [c]) (drawn w) (junk w) (entropy w)).

(** [std::uniform_int_distribution<int>{a, b}] applied to the engine, a call
    into the C++ library, whose code is outside the repository: how the engine
    and the distribution compute a variate is not modelled. What the call
    returns is an input of the model, the next value of the oracle [entropy],
    and the call is counted in [drawn]. The library returns values of the
    closed range from [a] to [b] only: a value of the oracle in that range is
    returned as it is, and any other is brought into the range. *)
Definition uniform_int_distribution (a b : Z) : M Z := λ w,
  Ok (a + (entropy w (drawn w) - a) `mod` (b - a + 1))
     (World (heap w) (reads w) (writes w) (screen w) (S (drawn w)) (junk w) (entropy w)).

(** [for (auto i = start; i != stop; i += step) body(i)] *)
Fixpoint for_ne (fuel : nat) (i stop step : Z) (body : Z → M unit) : M unit :=
  if decide (i = stop) then mret tt
  else match fuel with
       | O => throw OutOfFuel
       | S fuel' => body i ;; for_ne fuel' (i + step) stop step body
       end.

(** ** class grid *)

Record grid : Type := Grid { width : Z; height : Z; data : loc }.

(** [grid(int w, int h)] *)
Definition grid_new (w h : Z) : M grid :=
  n ← int_mul w h;
  d ← new_array n;
  mret (Grid w h d).

(** [operator()(int x, int y)]: the assertion, then a reference to
    [data[x + y * width]]. *)
Definition grid_at (g : grid) (x y : Z) : M cellref :=
  assert ((0 <=? x) && (x <? width g) && (0 <=? y) && (y <? height g)) ;;
  mret (data g, x + y * width g).

(** Reading the value of [g(x, y)]. *)
Definition peek (g : grid) (x y : Z) : M bool :=
  r ← grid_at g x y; load r.

(** ** class double_buffered_grid *)

Record double_buffered_grid : Type := DoubleBuffered {
  first : bool;
  a : grid;
  b : grid;
}.

Definition double_buffered_grid_new (width height : Z) : M double_buffered_grid :=
  a ← grid_new width height;
  b ← grid_new width height;
  mret (DoubleBuffered true a b).

Definition front (d : double_buffered_grid) : grid :=
  if first d then a d else b d.

Definition back (d : double_buffered_grid) : grid :=
  if first d then b d else a d.

Definition swap (d : double_buffered_grid) : double_buffered_grid :=
  DoubleBuffered (negb (first d)) (a d) (b d).

(** ** next_generation *)

(** The short-circuit [guard && in(x, y)]. *)
Definition and_then (guard : bool) (m : M bool) : M bool :=
  if guard then m else mret false.

(** [c ? 1 : 0] *)
Definition one_if (c : bool) : Z := if c then 1 else 0.

(** The body of the inner loop, for the cell [(x, y)]. The eight terms of
    the sum are evaluated from left to right, and the value to assign before
    the accessor [out(x, y)]. *)
Definition next_cell (inp out : grid) (x y : Z) : M unit :=
  let left := negb (x =? 0) in
  let up := negb (y =? 0) in
  let right := negb (x =? width inp - 1) in
  let down := negb (y =? height inp - 1) in
  currently_alive ← peek inp x y;
  n1 ← and_then (left && up) (peek inp (x - 1) (y - 1));
  n2 ← and_then left (peek inp (x - 1) y);
  n3 ← and_then (left && down) (peek inp (x - 1) (y + 1));
  n4 ← and_then up (peek inp x (y - 1));
  n5 ← and_then down (peek inp x (y + 1));
  n6 ← and_then (right && up) (peek inp (x + 1) (y - 1));
  n7 ← and_then right (peek inp (x + 1) y);
  n8 ← and_then (right && down) (peek inp (x + 1) (y + 1));
  let neighbours :=
    one_if n1 + one_if n2 + one_if n3 + one_if n4 +
    one_if n5 + one_if n6 + one_if n7 + one_if n8 in
  if (currently_alive : bool)
  then r ← grid_at out x y; store r ((neighbours =? 2) || (neighbours =? 3))
  else r ← grid_at out x y; store r (neighbours =? 3).

Definition next_generation (fuel : nat) (inp out : grid) : M unit :=
  assert ((width inp =? width out) && (height inp =? height out)) ;;
  for_ne fuel 0 (height inp) 1 (λ y,
    for_ne fuel 0 (width inp) 1 (λ x, next_cell inp out x y)).

(** ** class game_of_life *)

Record game_of_life : Type := GameOfLife { buffer : double_buffered_grid }.

Definition frequency : Z := 3.

(** [game_of_life(int width, int height)]. The variates that the engine
    seeded from the clock and the distribution return are those of the oracle
    [entropy] of the world. The loop bound [width * height] has
    the same value at every test and is computed once. In the assignment the
    right operand, with its draw, is evaluated before the accessor on the
    left. *)
Definition game_of_life_new (fuel : nat) (width height : Z) : M game_of_life :=
  buffer ← double_buffered_grid_new width height;
  let grid := back buffer in
  cells ← int_mul width height;
  for_ne fuel 0 cells 1 (λ i,
    v ← uniform_int_distribution 0 frequency;
    r ← grid_at grid (Z.rem i width) (Z.quot i width);
    store r (v =? 0)) ;;
  mret (GameOfLife (swap buffer)).

Definition full : string := "█".
Definition upper : string := "▀".
Definition lower : string := "▄".

(** [render() const] *)
Definition render (fuel : nat) (g : game_of_life) : M unit :=
  assert (Z.rem (height (front (buffer g))) 2 =? 0) ;;
  let grid := front (buffer g) in
  for_ne fuel 0 (height grid) 2 (λ y,
    curses (Move (Z.quot y 2) 0) ;;
    for_ne fuel 0 (width grid) 1 (λ x,
      top ← peek grid x y;
      bottom ← peek grid x (y + 1);
      curses (Addstr (if (top : bool) then (if (bottom : bool) then full else upper)
                      else (if bottom then lower else " "))))) ;;
  curses Refresh.

(** [tick()] *)
Definition tick (fuel : nat) (g : game_of_life) : M game_of_life :=
  next_generation fuel (front (buffer g)) (back (buffer g)) ;;
  mret (GameOfLife (swap (buffer g))).

(** ** The functions computed by the loop bodies *)

(** The value found at [data[x + y * width]]. *)
Definition cell (W : Z) (cells : list bool) (x y : Z) : bool :=
  default false (array_get cells (x + y * W)).

(** The sum computed in [next_generation] for the cell [(x, y)], with the
    four guards [left], [up], [right] and [down] of the source. *)
Definition neighbours (W H : Z) (cells : list bool) (x y : Z) : Z :=
  let left := negb (x =? 0) in
  let up := negb (y =? 0) in
  let right := negb (x =? W - 1) in
  let down := negb (y =? H - 1) in
  one_if (left && up && cell W cells (x - 1) (y - 1)) +
  one_if (left && cell W cells (x - 1) y) +
  one_if (left && down && cell W cells (x - 1) (y + 1)) +
  one_if (up && cell W cells x (y - 1)) +
  one_if (down && cell W cells x (y + 1)) +
  one_if (right && up && cell W cells (x + 1) (y - 1)) +
  one_if (right && cell W cells (x + 1) y) +
  one_if (right && down && cell W cells (x + 1) (y + 1)).

(** The value assigned to [out(x, y)]. *)
Definition life_rule (currently_alive : bool) (neighbours : Z) : bool :=
  if currently_alive then (neighbours =? 2) || (neighbours =? 3) else neighbours =? 3.

(** The array that a full sweep of [next_generation] leaves in [out]. *)
Definition next_cells (W H : Z) (cells : list bool) : list bool :=
  (λ i, life_rule (cell W cells (i `mod` W) (i `div` W))
                  (neighbours W H cells (i `mod` W) (i `div` W)))
  <$> seqZ 0 (W * H).

(** The string passed to [addstr] for a pair of vertically adjacent cells. *)
Definition glyph (top bottom : bool) : string :=
  if top then (if bottom then full else upper) else (if bottom then lower else " ").

(** The ncurses calls of character row [row] of [render], up to column [n]:
    the cursor is moved to the start of the row, then one glyph is added for
    each column, from the cells of the grid rows [2 * row] and [2 * row + 1]. *)
Definition row_calls (W : Z) (cells : list bool) (row n : Z) : list curses_call :=
  Move row 0 ::
  ((λ x, Addstr (glyph (cell W cells x (2 * row)) (cell W cells x (2 * row + 1))))
   <$> seqZ 0 n).

(** The ncurses calls of the first [k] character rows. *)
Definition rows_calls (W : Z) (cells : list bool) (k : Z) : list curses_call :=
  concat ((λ row, row_calls W cells row W) <$> seqZ 0 k).

(** All the ncurses calls of [render]. *)
Definition render_calls (W H : Z) (cells : list bool) : list curses_call :=
  rows_calls W cells (H `div` 2) ++ [Refresh].

(** The value drawn for the [i]-th cell by the constructor. *)
Definition variate (w : world) (i : Z) : Z :=
  0 + (entropy w (drawn w + Z.to_nat i)%nat - 0) `mod` (frequency - 0 + 1).

(** The array that the seeding loop of the constructor leaves in [back()]. *)
Definition seeded_cells (w : world) (n : Z) : list bool :=
  (λ i, variate w i =? 0) <$> seqZ 0 n.

(** ** The distribution of the seeded grid *)

(** What [n] calls of the distribution over 0..[hi] can return: every
    sequence of [n] values of the range, each once. The calls are independent
    and the distribution is uniform, which is to say that these sequences are
    equally likely. *)
Fixpoint draws (hi : Z) (n : nat) : list (list Z) :=
  match n with
  | O => [[]]
  | S n' => seqZ 0 (hi + 1) ≫= λ v, cons v <$> draws hi n'
  end.

(** The world in which the next calls of the distribution return [vs]. *)
Definition with_draws (vs : list Z) (w : world) : world :=
  World (heap w) (reads w) (writes w) (screen w) (drawn w) (junk w)
        (λ k, if decide (drawn w ≤ k)%nat
              then default (entropy w k) (vs !! (k - drawn w)%nat)
              else entropy w k).

(** The cells of the front grid of a simulation constructed in [w]. *)
Definition constructed_front (fuel : nat) (W H : Z) (w : world) : option (list bool) :=
  match game_of_life_new fuel W H w with
  | Ok g w' => heap w' !! data (front (buffer g))
  | Fail _ => None
  end.

(** Whether the cell (x, y) of that grid is alive. *)
Definition constructed_alive (fuel : nat) (W H : Z) (w : world) (x y : Z) : bool :=
  match constructed_front fuel W H w with
  | Some cells => cell W cells x y
  | None => false
  end.

(** How many elements of a list pass a test. *)
Fixpoint how_many {A : Type} (p : A → bool) (l : list A) : nat :=
  match l with
  | [] => 0
  | x :: l' => (if p x then 1 else 0) + how_many p l'
  end.

(** ** The rule in the words of the specification *)

Definition in_bounds (W H x y : Z) : bool :=
  (0 <=? x) && (x <? W) && (0 <=? y) && (y <? H).

(** A position is alive when it is on the grid and its cell is set; a
    position off the grid is never alive. *)
Definition alive (W H : Z) (cells : list bool) (x y : Z) : bool :=
  in_bounds W H x y && cell W cells x y.

(** The eight offsets of the adjacent positions. *)
Definition adjacent : list (Z * Z) :=
  [(-1, -1); (-1, 0); (-1, 1); (0, -1); (0, 1); (1, -1); (1, 0); (1, 1)].

(** Neighbour count: the number of adjacent positions that are alive. *)
Definition alive_neighbours (W H : Z) (cells : list bool) (x y : Z) : Z :=
  foldr (λ d n, one_if (alive W H cells (x + d.1) (y + d.2)) + n) 0 adjacent.

(** The adjacent positions of (x, y) that are on the grid and whose cell is
    set: the positions that a neighbour count counts. *)
Definition on_grid_alive (W H : Z) (cells : list bool) (x y : Z) : list (Z * Z) :=
  filter (λ p, in_bounds W H p.1 p.2 = true ∧ cell W cells p.1 p.2 = true)
         ((λ d, (x + d.1, y + d.2)) <$> adjacent).

(** The two phases of the blinker, as predicates on positions. *)
Definition horizontal_blinker (x y : Z) : bool := (y =? 2) && (1 <=? x) && (x <=? 3).
Definition vertical_blinker (x y : Z) : bool := (x =? 2) && (1 <=? y) && (y <=? 3).

(** ** Small concrete states *)

(** A world with the given heap, empty logs, and constant oracles. *)
Definition quiet (h : gmap loc (list bool)) : world :=
  World h [] [] [] 0 (λ _ _, false) (λ _, 0).

Definition dead (n : nat) : list bool := replicate n false.

Definition glider3 : list bool :=
  [false; true; false;
   false; false; true;
   true; true; true].

Definition corner2 : list bool :=
  [true; false;
   false; false].

Definition blinker5 : list bool :=
  [false; false; false; false; false;
   false; false; false; false; false;
   false; true; true; true; false;
   false; false; false; false; false;
   false; false; false; false; false].

(** The block of four cells whose upper left cell is [(x0, y0)]. *)
Definition block (x0 y0 x y : Z) : bool :=
  (x0 <=? x) && (x <=? x0 + 1) && (y0 <=? y) && (y <=? y0 + 1).

(** The four corners of a grid. *)
Definition corner (W H x y : Z) : bool :=
  ((x =? 0) || (x =? W - 1)) && ((y =? 0) || (y =? H - 1)).

(** The sum of the eight adjacent values of a pattern. *)
Definition around (pattern : Z → Z → bool) (x y : Z) : Z :=
  one_if (pattern (x - 1) (y - 1)) + one_if (pattern (x - 1) y)
  + one_if (pattern (x - 1) (y + 1)) + one_if (pattern x (y - 1))
  + one_if (pattern x (y + 1)) + one_if (pattern (x + 1) (y - 1))
  + one_if (pattern (x + 1) y) + one_if (pattern (x + 1) (y + 1)).

(** ** Well-formed states *)

(** The grid [g] owns an allocated array of [width * height] cells holding
    [cells]. *)
Definition holds (w : world) (g : grid) (cells : list bool) : Prop :=
  0 ≤ width g ∧ 0 ≤ height g ∧ width g * height g ≤ INT_MAX ∧
  heap w !! data g = Some cells ∧
  Z.of_nat (length cells) = width g * height g.

(** The invariant of a double-buffered grid: two distinct arrays of the same
    dimensions. *)
Definition buffers_ok (w : world) (d : double_buffered_grid) : Prop :=
  data (a d) ≠ data (b d) ∧
  width (a d) = width (b d) ∧ height (a d) = height (b d) ∧
  (∃ ca, holds w (a d) ca) ∧ (∃ cb, holds w (b d) cb).

(** ** Total-correctness reasoning about computations *)

(** [wp m Q w]: run from [w], [m] returns normally and [Q] holds of its result
    and final world. *)
Definition wp {A} (m : M A) (Q : A → world → Prop) (w : world) : Prop :=
  ∃ a w', m w = Ok a w' ∧ Q a w'.

(** The world reached from [w0] by memory accesses only: heap [h], further
    reads [rd] and further writes [wr]. *)
Definition touched (w0 : world) (h : gmap loc (list bool)) (rd wr : list cellref) : world :=
  World h (reads w0 ++ rd) (writes w0 ++ wr) (screen w0) (drawn w0) (junk w0) (entropy w0).

(** The element references [d[0]], ..., [d[n-1]], in this order. *)
Definition sweep (d : loc) (n : Z) : list cellref := (λ i, (d, i)) <$> seqZ 0 n.

(** A reference into the array at [d] of [n] elements. *)
Definition within (d : loc) (n : Z) (r : cellref) : Prop := r.1 = d ∧ 0 ≤ r.2 < n.

(** The world in the middle of a sweep of [next_generation] started in [w0]:
    the first [n] cells of [out] hold the new values, the others still hold
    what [out] contained before. *)
Definition swept (w0 : world) (out : grid) (new old : list bool) (n : Z)
    (rd : list cellref) : world :=
  touched w0
    (<[data out := take (Z.to_nat n) new ++ drop (Z.to_nat n) old]> (heap w0))
    rd (sweep (data out) n).

(** The world after [new bool[n]] returned the address [l]. *)
Definition allocated (w : world) (l : loc) (n : Z) : world :=
  World (<[l := junk w l <$> seq 0 (Z.to_nat n)]> (heap w))
        (reads w) (writes w) (screen w) (drawn w) (junk w) (entropy w).

(** The world reached from [w0] by the ncurses calls [sc] and the reads [rd]. *)
Definition shown (w0 : world) (sc : list curses_call) (rd : list cellref) : world :=
  World (heap w0) (reads w0 ++ rd) (writes w0) (screen w0 ++ sc)
        (drawn w0) (junk w0) (entropy w0).

(** The world reached from [w0] during the seeding loop of the constructor:
    heap [h], further writes [wr], and [k] more variates drawn. *)
Definition seeding (w0 : world) (h : gmap loc (list bool)) (wr : list cellref)
    (k : nat) : world :=
  World h (reads w0) (writes w0 ++ wr) (screen w0) (drawn w0 + k)%nat
        (junk w0) (entropy w0).

(** [g(x, y) = v]: the accessor, then the assignment through the reference
    it returns. *)
Definition assign (g : grid) (x y : Z) (v : bool) : M unit :=
  r ← grid_at g x y; store r v.

(** ** Destructors *)

(** [delete[]] of the array at [l]; an address that holds no array is
    undefined behaviour. *)
Definition delete_array (l : loc) : M unit := λ w,
  match heap w !! l with
  | Some _ =>
      Ok tt (World (delete l (heap w)) (reads w) (writes w) (screen w)
                   (drawn w) (junk w) (entropy w))
  | None => Fail Undefined
  end.

(** [~grid()]: the [unique_ptr] member releases the array. *)
Definition grid_delete (g : grid) : M unit := delete_array (data g).

(** [~double_buffered_grid()]: the members are destroyed in the reverse order
    of their declaration, [b] before [a]. *)
Definition double_buffered_grid_delete (d : double_buffered_grid) : M unit :=
  grid_delete (b d) ;; grid_delete (a d).

(** [~game_of_life()] *)
Definition game_of_life_delete (g : game_of_life) : M unit :=
  double_buffered_grid_delete (buffer g).

(** ** struct ncurses and main *)

(** The ncurses calls made outside [render]; they are logged apart from the
    drawing calls of the world. *)
Inductive console_call : Type :=
| Setlocale
| Initscr
| Cbreak
| Nonl
| Noecho
| Nodelay (bf : bool)
| CursSet (visibility : Z)
| Timeout (delay : Z)
| Endwin.

(** [ncurses()] *)
Definition ncurses_new : list console_call :=
  [Setlocale; Initscr; Cbreak; Nonl; Noecho; Nodelay true; CursSet 0].

(** [~ncurses()] *)
Definition ncurses_delete : list console_call := [Endwin].

(** The code of a character literal. *)
Definition char (c : ascii) : Z := Z.of_N (N_of_ascii c).

(** [KEY_RESIZE] of the ncurses header. *)
Definition KEY_RESIZE : Z := 410.

Definition EXIT_SUCCESS : Z := 0.
Definition min_tick_ms : Z := 16.
Definition max_tick_ms : Z := 1024.

(** What one pass of the loop receives from the terminal: the result of
    [getch()] and the size that [getmaxyx] reports at that time. *)
Record event : Type := Event { key : Z; rows : Z; cols : Z }.

(** The local variables of [main], and the log of its console calls. *)
Record main_state : Type := MainState {
  console : list console_call;
  main_width : Z;
  main_height : Z;
  tick_ms : Z;
  running : bool;
  game : game_of_life;
}.

Inductive control : Type := Continue | Break.

(** [if (key == '-' && tick_ms < max_tick_ms) { tick_ms *= 2; timeout(tick_ms); }] *)
Definition decrease_speed (key : Z) (s : main_state) : M main_state :=
  if (key =? char "-") && (tick_ms s <? max_tick_ms)
  then t ← int_mul (tick_ms s) 2;
       mret (MainState (console s ++ [Timeout t]) (main_width s) (main_height s)
                       t (running s) (game s))
  else mret s.

(** [if (key == '+' && tick_ms > min_tick_ms) { tick_ms /= 2; timeout(tick_ms); }] *)
Definition increase_speed (key : Z) (s : main_state) : M main_state :=
  if (key =? char "+") && (tick_ms s >? min_tick_ms)
  then let t := Z.quot (tick_ms s) 2 in
       mret (MainState (console s ++ [Timeout t]) (main_width s) (main_height s)
                       t (running s) (game s))
  else mret s.

(** [if (key == 'p' || key == ' ') { running = !running; }] *)
Definition play_pause (key : Z) (s : main_state) : main_state :=
  if (key =? char "p") || (key =? char " ")
  then MainState (console s) (main_width s) (main_height s) (tick_ms s)
                 (negb (running s)) (game s)
  else s.

(** [if (running || key == 's') { game->tick(); game->render(); }] *)
Definition step_game (fuel : nat) (key : Z) (s : main_state) : M main_state :=
  if running s || (key =? char "s")
  then g ← tick fuel (game s);
       render fuel g ;;
       mret (MainState (console s) (main_width s) (main_height s) (tick_ms s)
                       (running s) g)
  else mret s.

(** The branch of [KEY_RESIZE]: the new simulation is built first, then
    [reset] destroys the old one, then the new one is drawn. *)
Definition resize (fuel : nat) (e : event) (s : main_state) : M main_state :=
  let height := rows e in
  let width := cols e in
  doubled ← int_mul height 2;
  g ← game_of_life_new fuel width doubled;
  game_of_life_delete (game s) ;;
  render fuel g ;;
  mret (MainState (console s) width height (tick_ms s) (running s) g).

(** One pass of the body of [while (true)]. *)
Definition main_iteration (fuel : nat) (e : event) (s : main_state)
    : M (main_state * control) :=
  if key e =? KEY_RESIZE
  then s' ← resize fuel e s; mret (s', Continue)
  else
    s1 ← decrease_speed (key e) s;
    s2 ← increase_speed (key e) s1;
    s4 ← step_game fuel (key e) (play_pause (key e) s2);
    if key e =? char "q" then mret (s4, Break) else mret (s4, Continue).

(** The loop of [main], run on the events of a finite stretch of time: it
    ends at the first [break], or is still running when the events end. *)
Fixpoint main_loop (fuel : nat) (events : list event) (s : main_state)
    : M (main_state * control) :=
  match events with
  | [] => mret (s, Continue)
  | e :: events' =>
      r ← main_iteration fuel e s;
      match r.2 with
      | Break => mret r
      | Continue => main_loop fuel events' r.1
      end
  end.

(** [main] up to the loop, on a terminal of [rows0] rows and [cols0] columns. *)
Definition main_start (fuel : nat) (rows0 cols0 : Z) : M main_state :=
  let tick_ms := 32 in
  let running := true in
  let nc := ncurses_new in
  let height := rows0 in
  let width := cols0 in
  doubled ← int_mul height 2;
  g ← game_of_life_new fuel width doubled;
  render fuel g ;;
  mret (MainState (nc ++ [Timeout tick_ms]) width height tick_ms running g).

(** [return EXIT_SUCCESS;], with the destructors of [game] and [nc]. *)
Definition main_exit (s : main_state) : M (list console_call * Z) :=
  game_of_life_delete (game s) ;;
  mret (console s ++ ncurses_delete, EXIT_SUCCESS).

(** [main()]: the console log, and the exit status once [main] has returned. *)
Definition main (fuel : nat) (rows0 cols0 : Z) (events : list event)
    : M (list console_call * option Z) :=
  s ← main_start fuel rows0 cols0;
  r ← main_loop fuel events s;
  match r.2 with
  | Break => x ← main_exit r.1; mret (x.1, Some x.2)
  | Continue => mret (console r.1, None)
  end.

(** ** States of [main] *)

(** The world [w] with the heap [h]. *)
Definition with_heap (h : gmap loc (list bool)) (w : world) : world :=
  World h (reads w) (writes w) (screen w) (drawn w) (junk w) (entropy w).

(** The heap of [w] is [h0] and, beside it, the two arrays of the simulation
    [g], which have its dimensions. *)
Definition owns (h0 : gmap loc (list bool)) (w : world) (g : game_of_life) : Prop :=
  ∃ ca cb,
    heap w = <[data (a (buffer g)) := ca]> (<[data (b (buffer g)) := cb]> h0) ∧
    h0 !! data (a (buffer g)) = None ∧
    h0 !! data (b (buffer g)) = None ∧
    data (a (buffer g)) ≠ data (b (buffer g)) ∧
    width (a (buffer g)) = width (b (buffer g)) ∧
    height (a (buffer g)) = height (b (buffer g)) ∧
    0 ≤ width (a (buffer g)) ∧ 0 ≤ height (a (buffer g)) ∧
    width (a (buffer g)) * height (a (buffer g)) ≤ INT_MAX ∧
    Z.of_nat (length ca) = width (a (buffer g)) * height (a (buffer g)) ∧
    Z.of_nat (length cb) = width (a (buffer g)) * height (a (buffer g)).

(** A terminal of [rows] rows and [cols] columns whose simulation the
    program can build and sweep with the fuel [fuel]. *)
Definition fits (fuel : nat) (rows cols : Z) : Prop :=
  0 ≤ rows ∧ 0 ≤ cols ∧
  rows * 2 ≤ INT_MAX ∧ cols * (rows * 2) ≤ INT_MAX ∧
  rows * 2 ≤ Z.of_nat fuel ∧ cols ≤ Z.of_nat fuel ∧
  cols * (rows * 2) ≤ Z.of_nat fuel.

(** The delay is a power of two from 16 to 1024, and it is the delay last
    given to [timeout]. *)
Definition speed_ok (s : main_state) : Prop :=
  (∃ k, 4 ≤ k ≤ 10 ∧ tick_ms s = 2 ^ k) ∧
  last (console s) = Some (Timeout (tick_ms s)).

(** The invariant of the loop of [main]. *)
Definition main_inv (fuel : nat) (h0 : gmap loc (list bool)) (w : world)
    (s : main_state) : Prop :=
  owns h0 w (game s) ∧
  width (a (buffer (game s))) = main_width s ∧
  height (a (buffer (game s))) = main_height s * 2 ∧
  fits fuel (main_height s) (main_width s) ∧
  speed_ok s.

(** The state after the two speed keys and the pause key were looked at. *)
Definition slower (key : Z) (s : main_state) : main_state :=
  if (key =? char "-") && (tick_ms s <? max_tick_ms)
  then MainState (console s ++ [Timeout (tick_ms s * 2)]) (main_width s)
                 (main_height s) (tick_ms s * 2) (running s) (game s)
  else s.

Definition faster (key : Z) (s : main_state) : main_state :=
  if (key =? char "+") && (tick_ms s >? min_tick_ms)
  then MainState (console s ++ [Timeout (Z.quot (tick_ms s) 2)]) (main_width s)
                 (main_height s) (Z.quot (tick_ms s) 2) (running s) (game s)
  else s.

Definition keyed (key : Z) (s : main_state) : main_state :=
  play_pause key (faster key (slower key s)).

(** The state of [main] with another simulation object. *)
Definition with_game (g : game_of_life) (s : main_state) : main_state :=
  MainState (console s) (main_width s) (main_height s) (tick_ms s) (running s) g.

(** What the loop does after an event, by its key. *)
Definition control_of (key : Z) : control :=
  if key =? char "q" then Break else Continue.

(** The console log is the calls of the constructor of [ncurses] followed by
    calls of [timeout] only, each with a power of two from 16 to 1024, the
    last of them with the present delay. *)
Definition console_ok (s : main_state) : Prop :=
  ∃ delays,
    console s = ncurses_new ++ (Timeout <$> delays) ∧
    last delays = Some (tick_ms s) ∧
    Forall (λ d, ∃ k, 4 ≤ k ≤ 10 ∧ d = 2 ^ k) delays.

(** A key that is none of resize, p, space and q. *)
Definition plain (key : Z) : Prop :=
  key ≠ KEY_RESIZE ∧ key ≠ char "p" ∧ key ≠ char " " ∧ key ≠ char "q".

(** A small state of [main]: a paused or running simulation of 2 by 2 cells
    whose front array, at address 2, holds a block. *)
Definition small_heap : gmap loc (list bool) :=
  <[1%positive := dead 4]> (<[2%positive := [true; true; true; true]]> ∅).

Definition small_state (running : bool) : main_state :=
  MainState (ncurses_new ++ [Timeout 32]) 2 1 32 running
            (GameOfLife (DoubleBuffered false (Grid 2 2 1) (Grid 2 2 2))).

(** ** Rules for the monad *)

Lemma wp_ret {A} (x : A) Q w : Q x w → wp (mret x) Q w.
Proof. intros HQ. exists x, w. done. Qed.

Lemma wp_bind {A B} (m : M A) (f : A → M B) Q w :
  wp m (λ x w', wp (f x) Q w') w → wp (m ≫= f) Q w.
Proof.
  intros (x & w' & Hm & y & w'' & Hf & HQ).
  exists y, w''. unfold mbind, M_bind. rewrite Hm. done.
Qed.

Lemma wp_mono {A} (m : M A) (Q Q' : A → world → Prop) w :
  (∀ x w', Q x w' → Q' x w') → wp m Q w → wp m Q' w.
Proof. intros HQ (x & w' & Hm & Hx). exists x, w'. auto. Qed.

Lemma wp_run {A} (m : M A) x w w' Q : m w = Ok x w' → Q x w' → wp m Q w.
Proof. intros Hm HQ. by exists x, w'. Qed.

Lemma wp_assert c Q w : c = true → Q tt w → wp (assert c) Q w.
Proof. intros -> HQ. by apply wp_ret. Qed.

(** The rule for [for] loops: [k] iterations, an invariant [I] indexed by the
    loop variable, and at least [k] units of fuel. *)
Lemma wp_for_ne (I : Z → world → Prop) body step stop :
  0 < step →
  ∀ (k fuel : nat) i w,
    stop = i + Z.of_nat k * step →
    (k ≤ fuel)%nat →
    I i w →
    (∀ j w', i ≤ j < stop → I j w' → wp (body j) (λ _, I (j + step)) w') →
    wp (for_ne fuel i stop step body) (λ _, I stop) w.
Proof.
  intros Hstep k. induction k as [|k IH]; intros fuel i w Hstop Hfuel Hi Hbody.
  - assert (i = stop) as -> by lia.
    destruct fuel; simpl; (destruct (decide (stop = stop)); [|done]); by apply wp_ret.
  - destruct fuel as [|fuel]; [lia|]. simpl.
    destruct (decide (i = stop)); [nia|].
    apply wp_bind. eapply wp_mono; [|apply Hbody; [nia|done]].
    intros [] w' Hw'. apply (IH fuel (i + step) w'); [lia|lia|done|].
    intros j w'' Hj. apply Hbody. lia.
Qed.

(** ** Memory accesses *)

Lemma touched_id w : touched w (heap w) [] [] = w.
Proof. destruct w. unfold touched. simpl. by rewrite !app_nil_r. Qed.

Lemma in_bounds_spec W H x y : in_bounds W H x y = true ↔ 0 ≤ x < W ∧ 0 ≤ y < H.
Proof. unfold in_bounds. rewrite !andb_true_iff, !Z.leb_le, !Z.ltb_lt. lia. Qed.

Lemma index_range W H x y : 0 ≤ x < W → 0 ≤ y < H → 0 ≤ x + y * W < W * H.
Proof. nia. Qed.

Lemma array_get_is_Some cells i :
  0 ≤ i < Z.of_nat (length cells) → is_Some (array_get cells i).
Proof.
  intros Hi. unfold array_get. destruct (Z.leb_spec 0 i); [|lia].
  apply lookup_lt_is_Some. lia.
Qed.

Lemma array_get_Some cells i v :
  array_get cells i = Some v ↔ 0 ≤ i ∧ cells !! Z.to_nat i = Some v.
Proof.
  unfold array_get. destruct (Z.leb_spec 0 i) as [Hi|Hi].
  - split; [intros Hc; by split|by intros [_ Hc]].
  - split; [done|]. intros [Hi' _]. lia.
Qed.

Lemma wp_grid_at g x y Q w :
  in_bounds (width g) (height g) x y = true →
  Q (data g, x + y * width g) w →
  wp (grid_at g x y) Q w.
Proof.
  intros Hb HQ. unfold grid_at. apply wp_bind.
  apply wp_assert; [exact Hb|]. by apply wp_ret.
Qed.

Lemma wp_load r cells v Q w :
  heap w !! r.1 = Some cells →
  array_get cells r.2 = Some v →
  Q v (log_read r w) →
  wp (load r) Q w.
Proof.
  intros Hh Hv HQ. exists v, (log_read r w). split; [|done].
  unfold load. by rewrite Hh, Hv.
Qed.

Lemma wp_store r cells v Q w :
  heap w !! r.1 = Some cells →
  is_Some (array_get cells r.2) →
  Q tt (log_write r (<[r.1 := <[Z.to_nat r.2 := v]> cells]> (heap w)) w) →
  wp (store r v) Q w.
Proof.
  intros Hh [old Hold] HQ. eexists tt, _. split; [|exact HQ].
  unfold store. by rewrite Hh, Hold.
Qed.

Lemma wp_peek_logged g cells x y Q w :
  heap w !! data g = Some cells →
  Z.of_nat (length cells) = width g * height g →
  in_bounds (width g) (height g) x y = true →
  Q (cell (width g) cells x y) (log_read (data g, x + y * width g) w) →
  wp (peek g x y) Q w.
Proof.
  intros Hheap Hlen Hb HQ. unfold peek. apply wp_bind. apply wp_grid_at; [done|].
  apply in_bounds_spec in Hb as [Hx Hy].
  pose proof (index_range _ _ _ _ Hx Hy) as Hi.
  destruct (array_get_is_Some cells (x + y * width g)) as [v Hv]; [lia|].
  eapply wp_load; [exact Hheap|exact Hv|].
  replace v with (cell (width g) cells x y) by (unfold cell; by rewrite Hv).
  exact HQ.
Qed.

Lemma log_read_touched r w0 h rd wr :
  log_read r (touched w0 h rd wr) = touched w0 h (rd ++ [r]) wr.
Proof. unfold log_read, touched. simpl. by rewrite app_assoc. Qed.

Lemma log_write_touched r h' w0 h rd wr :
  log_write r h' (touched w0 h rd wr) = touched w0 h' rd (wr ++ [r]).
Proof. unfold log_write, touched. simpl. by rewrite app_assoc. Qed.

Section reading.
Context (g : grid) (cells : list bool) (w0 : world) (h : gmap loc (list bool)).
Hypothesis Hheap : h !! data g = Some cells.
Hypothesis Hlen : Z.of_nat (length cells) = width g * height g.

Lemma wp_peek x y Q rd wr :
  in_bounds (width g) (height g) x y = true →
  Forall (within (data g) (width g * height g)) rd →
  (∀ rd', Forall (within (data g) (width g * height g)) rd' →
          Q (cell (width g) cells x y) (touched w0 h rd' wr)) →
  wp (peek g x y) Q (touched w0 h rd wr).
Proof.
  intros Hb Hrd HQ. apply (wp_peek_logged g cells); try done.
  rewrite log_read_touched. apply HQ. apply Forall_app. split; [done|].
  apply in_bounds_spec in Hb as [Hx Hy].
  pose proof (index_range _ _ _ _ Hx Hy) as Hi.
  apply Forall_singleton. split; simpl; [done|lia].
Qed.

Lemma wp_and_then_peek (guard : bool) x y Q rd wr :
  (guard = true → in_bounds (width g) (height g) x y = true) →
  Forall (within (data g) (width g * height g)) rd →
  (∀ rd', Forall (within (data g) (width g * height g)) rd' →
          Q (guard && cell (width g) cells x y) (touched w0 h rd' wr)) →
  wp (and_then guard (peek g x y)) Q (touched w0 h rd wr).
Proof.
  intros Hb Hrd HQ. destruct guard; simpl.
  - apply wp_peek; auto.
  - apply wp_ret. by apply HQ.
Qed.
End reading.

(** ** One cell of the sweep *)

Lemma next_cell_tail out x y (currently_alive : bool) n :
  (if currently_alive
   then r ← grid_at out x y; store r ((n =? 2) || (n =? 3))
   else r ← grid_at out x y; store r (n =? 3))
  = (r ← grid_at out x y; store r (life_rule currently_alive n)).
Proof. by destruct currently_alive. Qed.

Ltac guard_in_bounds :=
  rewrite ?andb_true_iff, ?negb_true_iff, ?Z.eqb_neq, in_bounds_spec; lia.

Section sweep_cell.
Context (inp out : grid) (src cur : list bool) (w0 : world) (h : gmap loc (list bool)).
Hypothesis Hw : width inp = width out.
Hypothesis Hh : height inp = height out.
Hypothesis Hsrc : h !! data inp = Some src.
Hypothesis Hsrc_len : Z.of_nat (length src) = width inp * height inp.
Hypothesis Hcur : h !! data out = Some cur.
Hypothesis Hcur_len : Z.of_nat (length cur) = width inp * height inp.

Lemma wp_next_cell x y Q rd wr :
  0 ≤ x < width inp → 0 ≤ y < height inp →
  Forall (within (data inp) (width inp * height inp)) rd →
  (∀ rd', Forall (within (data inp) (width inp * height inp)) rd' →
     Q tt (touched w0
             (<[data out :=
                  <[Z.to_nat (x + y * width inp) :=
                      life_rule (cell (width inp) src x y)
                                (neighbours (width inp) (height inp) src x y)]> cur]> h)
             rd' (wr ++ [(data out, x + y * width inp)]))) →
  wp (next_cell inp out x y) Q (touched w0 h rd wr).
Proof.
  intros Hx Hy Hrd HQ. unfold next_cell. cbv zeta.
  apply wp_bind. eapply wp_peek; eauto; [guard_in_bounds|].
  clear rd Hrd. intros rd Hrd.
  do 8 (apply wp_bind; eapply wp_and_then_peek; eauto; [guard_in_bounds|];
        clear rd Hrd; intros rd Hrd).
  rewrite next_cell_tail. apply wp_bind.
  apply wp_grid_at; [rewrite <- Hw, <- Hh; guard_in_bounds|].
  eapply wp_store; [exact Hcur| |].
  - apply array_get_is_Some. simpl. rewrite <- Hw.
    pose proof (index_range _ _ _ _ Hx Hy). lia.
  - rewrite log_write_touched. simpl. rewrite <- Hw. by apply HQ.
Qed.
End sweep_cell.

(** ** The full sweep *)

Lemma overwrite_next (new old : list bool) n v :
  new !! n = Some v →
  (n < length old)%nat →
  <[n := v]> (take n new ++ drop n old) = take (S n) new ++ drop (S n) old.
Proof.
  intros Hnew Hold.
  pose proof (lookup_lt_Some _ _ _ Hnew) as Hlt.
  destruct (lookup_lt_is_Some_2 old n Hold) as [o Ho].
  rewrite (take_S_r _ _ _ Hnew), (drop_S _ _ _ Ho).
  rewrite insert_app_r_alt by (rewrite length_take; lia).
  rewrite length_take, Nat.min_l, Nat.sub_diag by lia.
  simpl. by rewrite <- app_assoc.
Qed.

Lemma length_next_cells W H cells : length (next_cells W H cells) = Z.to_nat (W * H).
Proof. unfold next_cells. by rewrite length_fmap, length_seqZ. Qed.

Lemma lookup_next_cells W H cells x y :
  0 ≤ x < W → 0 ≤ y < H →
  next_cells W H cells !! Z.to_nat (x + y * W)
  = Some (life_rule (cell W cells x y) (neighbours W H cells x y)).
Proof.
  intros Hx Hy. pose proof (index_range _ _ _ _ Hx Hy) as Hi.
  unfold next_cells. rewrite list_lookup_fmap, lookup_seqZ_lt by lia. simpl.
  rewrite Z2Nat.id, Z.add_0_l by lia.
  rewrite Z.mod_add, Z.div_add, Z.mod_small, Z.div_small by lia.
  by rewrite Z.add_0_l.
Qed.

Lemma sweep_snoc d n : 0 ≤ n → sweep d (n + 1) = sweep d n ++ [(d, n)].
Proof.
  intros Hn. unfold sweep. rewrite seqZ_app by lia. rewrite fmap_app.
  rewrite (seqZ_cons (0 + n)), (seqZ_nil (Z.succ (0 + n))) by lia.
  by rewrite Z.add_0_l.
Qed.

Section full_sweep.
Context (inp out : grid) (src old : list bool) (w0 : world).
Hypothesis Hw : width inp = width out.
Hypothesis Hh : height inp = height out.
Hypothesis Hne : data inp ≠ data out.
Hypothesis Hsrc : holds w0 inp src.
Hypothesis Hold : holds w0 out old.

Let W := width inp.
Let H := height inp.
Let new := next_cells W H src.

(** The invariant of both loops: [n] cells have been rewritten, and every
    read so far was a read of the source array. *)
Let inv (n : Z) (w : world) : Prop :=
  ∃ rd, Forall (within (data inp) (W * H)) rd ∧ w = swept w0 out new old n rd.

Lemma sweep_row fuel y w :
  0 ≤ y < H → (Z.to_nat W ≤ fuel)%nat →
  inv (y * W) w →
  wp (for_ne fuel 0 W 1 (λ x, next_cell inp out x y)) (λ _, inv ((y + 1) * W)) w.
Proof.
  intros Hy Hfuel Hinv.
  destruct Hsrc as (HW & HH & _ & Hs & Hsl), Hold as (_ & _ & _ & Ho & Hol).
  fold W H in HW, HH, Hsl. rewrite <- Hw, <- Hh in Hol. fold W H in Hol.
  replace ((y + 1) * W) with (W + y * W) by lia.
  apply (wp_for_ne (λ x, inv (x + y * W)) _ 1 W ltac:(lia) (Z.to_nat W) fuel 0 w);
    [lia|done|done|].
  intros x w' Hx (rd & Hrd & ->). unfold swept.
  pose proof (index_range W H x y ltac:(lia) Hy) as Hi.
  set (cur := take (Z.to_nat (x + y * W)) new ++ drop (Z.to_nat (x + y * W)) old).
  assert (Z.of_nat (length cur) = W * H) as Hcl.
  { unfold cur. rewrite length_app, length_take, length_drop.
    unfold new. rewrite length_next_cells. lia. }
  apply (wp_next_cell inp out src cur w0 _ Hw Hh); try done.
  - by rewrite lookup_insert_ne.
  - by rewrite lookup_insert_eq.
  - intros rd' Hrd'. exists rd'. split; [done|]. unfold swept. fold W H.
    rewrite insert_insert_eq. f_equal.
    + f_equal. replace (Z.to_nat (x + 1 + y * W)) with (S (Z.to_nat (x + y * W))) by lia.
      apply overwrite_next; [|lia].
      by apply lookup_next_cells.
    + replace (x + 1 + y * W) with (x + y * W + 1) by lia.
      symmetry. apply sweep_snoc. lia.
Qed.

Lemma sweep_all fuel :
  (Z.to_nat W ≤ fuel)%nat → (Z.to_nat H ≤ fuel)%nat →
  wp (next_generation fuel inp out) (λ _, inv (W * H)) w0.
Proof.
  intros HfW HfH. unfold next_generation. apply wp_bind.
  apply wp_assert; [rewrite Hw, Hh, !Z.eqb_refl; done|].
  destruct Hsrc as (HW & HH & _ & Hs & Hsl), Hold as (_ & _ & _ & Ho & Hol).
  replace (W * H) with (H * W) by lia.
  apply (wp_for_ne (λ y, inv (y * W)) _ 1 H ltac:(lia) (Z.to_nat H) fuel 0 w0).
  - fold H in HH. lia.
  - done.
  - exists []. split; [constructor|]. unfold swept. simpl.
    rewrite insert_id by done.
    unfold sweep. rewrite seqZ_nil by lia. simpl. by rewrite touched_id.
  - intros y w' Hy Hinv. by apply sweep_row.
Qed.

(** The run of [next_generation] in full: it returns, the array of [out]
    holds [next_cells], every other array is as before, every read was a
    read of the array of [inp], and the writes are the elements of the array
    of [out], each once, in row-major order. *)
Lemma next_generation_run fuel :
  (Z.to_nat W ≤ fuel)%nat → (Z.to_nat H ≤ fuel)%nat →
  ∃ rd, Forall (within (data inp) (W * H)) rd ∧
        next_generation fuel inp out w0
        = Ok tt (touched w0 (<[data out := new]> (heap w0)) rd (sweep (data out) (W * H))).
Proof.
  intros HfW HfH.
  destruct (sweep_all fuel HfW HfH) as ([] & w' & Hrun & rd & Hrd & ->).
  exists rd. split; [done|]. rewrite Hrun. f_equal. unfold swept. do 3 f_equal.
  destruct Hsrc as (HW & HH & _ & Hs & Hsl), Hold as (_ & _ & _ & Ho & Hol).
  rewrite <- Hw, <- Hh in Hol. fold W H in Hol.
  rewrite take_ge, drop_ge by (unfold new; rewrite ?length_next_cells; lia).
  by rewrite app_nil_r.
Qed.
End full_sweep.

(** ** The count of the source and the count of the specification *)

Ltac bool_lia :=
  apply Bool.eq_iff_eq_true;
  rewrite ?in_bounds_spec, ?andb_true_iff, ?negb_true_iff, ?Z.eqb_neq,
    ?Z.eqb_eq, ?Z.leb_le, ?Z.ltb_lt;
  lia.

Lemma alive_off_grid W H cells x y :
  in_bounds W H x y = false → alive W H cells x y = false.
Proof. intros Hout. unfold alive. by rewrite Hout. Qed.

Lemma alive_on_grid W H cells x y :
  in_bounds W H x y = true → alive W H cells x y = cell W cells x y.
Proof. intros Hin. unfold alive. by rewrite Hin. Qed.

Lemma alive_neighbours_unfold W H cells x y :
  alive_neighbours W H cells x y
  = one_if (alive W H cells (x - 1) (y - 1)) + one_if (alive W H cells (x - 1) y)
    + one_if (alive W H cells (x - 1) (y + 1)) + one_if (alive W H cells x (y - 1))
    + one_if (alive W H cells x (y + 1)) + one_if (alive W H cells (x + 1) (y - 1))
    + one_if (alive W H cells (x + 1) y) + one_if (alive W H cells (x + 1) (y + 1)).
Proof.
  unfold alive_neighbours, adjacent. simpl.
  replace (x + -1) with (x - 1) by lia. replace (y + -1) with (y - 1) by lia.
  rewrite !Z.add_0_r. lia.
Qed.

(** On the grid, the guarded sum of the source counts exactly the adjacent
    positions that are on the grid and alive. *)
Lemma neighbours_alive_neighbours W H cells x y :
  0 ≤ x < W → 0 ≤ y < H →
  neighbours W H cells x y = alive_neighbours W H cells x y.
Proof.
  intros Hx Hy. rewrite alive_neighbours_unfold. unfold neighbours, alive. cbv zeta.
  replace (in_bounds W H (x - 1) (y - 1)) with (negb (x =? 0) && negb (y =? 0)) by bool_lia.
  replace (in_bounds W H (x - 1) y) with (negb (x =? 0)) by bool_lia.
  replace (in_bounds W H (x - 1) (y + 1)) with (negb (x =? 0) && negb (y =? H - 1)) by bool_lia.
  replace (in_bounds W H x (y - 1)) with (negb (y =? 0)) by bool_lia.
  replace (in_bounds W H x (y + 1)) with (negb (y =? H - 1)) by bool_lia.
  replace (in_bounds W H (x + 1) (y - 1)) with (negb (x =? W - 1) && negb (y =? 0)) by bool_lia.
  replace (in_bounds W H (x + 1) y) with (negb (x =? W - 1)) by bool_lia.
  replace (in_bounds W H (x + 1) (y + 1)) with (negb (x =? W - 1) && negb (y =? H - 1)) by bool_lia.
  reflexivity.
Qed.

Lemma life_rule_spec (currently_alive : bool) n :
  life_rule currently_alive n = true
  ↔ (currently_alive = true ∧ (n = 2 ∨ n = 3)) ∨ (currently_alive = false ∧ n = 3).
Proof.
  unfold life_rule. destruct currently_alive.
  - rewrite orb_true_iff, !Z.eqb_eq. intuition congruence.
  - rewrite Z.eqb_eq. intuition congruence.
Qed.

Lemma cell_next_cells W H cells x y :
  0 ≤ x < W → 0 ≤ y < H →
  cell W (next_cells W H cells) x y
  = life_rule (cell W cells x y) (alive_neighbours W H cells x y).
Proof.
  intros Hx Hy. pose proof (index_range _ _ _ _ Hx Hy) as Hi.
  unfold cell at 1. unfold array_get. destruct (Z.leb_spec 0 (x + y * W)); [|lia].
  rewrite lookup_next_cells by done. simpl.
  by rewrite neighbours_alive_neighbours.
Qed.

(** Two arrays of the size of the grid are equal when their cells are. *)
Lemma cells_ext W H (l1 l2 : list bool) :
  0 < W →
  Z.of_nat (length l1) = W * H → Z.of_nat (length l2) = W * H →
  (∀ x y, 0 ≤ x < W → 0 ≤ y < H → cell W l1 x y = cell W l2 x y) →
  l1 = l2.
Proof.
  intros HW H1 H2 Hcells. apply list_eq_same_length with (length l1); [lia|lia|].
  intros i b1 b2 Hi Hb1 Hb2.
  assert (0 ≤ Z.of_nat i `mod` W < W) as Hx by (apply Z.mod_pos_bound; lia).
  assert (0 ≤ Z.of_nat i `div` W < H) as Hy.
  { split; [apply Z.div_pos; lia|]. apply Z.div_lt_upper_bound; lia. }
  specialize (Hcells _ _ Hx Hy). unfold cell, array_get in Hcells.
  replace (Z.of_nat i `mod` W + Z.of_nat i `div` W * W) with (Z.of_nat i) in Hcells
    by (rewrite (Z.div_mod (Z.of_nat i) W) at 1; lia).
  destruct (Z.leb_spec 0 (Z.of_nat i)); [|lia].
  rewrite Nat2Z.id, Hb1, Hb2 in Hcells. done.
Qed.

(** ** Claims about [next_generation] *)

(** The run returns and the destination then holds [next_cells]. *)
Lemma next_generation_holds fuel w inp out src old :
  holds w inp src → holds w out old →
  width inp = width out → height inp = height out →
  data inp ≠ data out →
  (Z.to_nat (width inp) ≤ fuel)%nat → (Z.to_nat (height inp) ≤ fuel)%nat →
  ∃ w', next_generation fuel inp out w = Ok tt w' ∧
        holds w' out (next_cells (width inp) (height inp) src).
Proof.
  intros Hsrc Hold Hw Hh Hne HfW HfH.
  destruct (next_generation_run inp out src old w Hw Hh Hne Hsrc Hold fuel HfW HfH)
    as (rd & Hrd & Hrun).
  eexists. split; [exact Hrun|].
  destruct Hold as (HW & HH & Hmax & Ho & Hol).
  split; [done|]. split; [done|]. split; [done|]. simpl. split.
  - by rewrite lookup_insert_eq.
  - rewrite length_next_cells, <- Hw, <- Hh.
    destruct Hsrc as (? & ? & _). lia.
Qed.

(** C1. For two grids of equal dimensions, a run of [next_generation]
    returns, and afterwards every cell (x, y) of the destination is true
    exactly when either the source cell is alive and its count of alive
    neighbours on the grid is 2 or 3, or the source cell is dead and that count
    is 3. *)
Theorem next_generation_life_rule fuel w inp out src old :
  holds w inp src → holds w out old →
  width inp = width out → height inp = height out →
  data inp ≠ data out →
  (Z.to_nat (width inp) ≤ fuel)%nat → (Z.to_nat (height inp) ≤ fuel)%nat →
  ∃ w' new,
    next_generation fuel inp out w = Ok tt w' ∧
    holds w' out new ∧
    ∀ x y, in_bounds (width out) (height out) x y = true →
      let n := alive_neighbours (width inp) (height inp) src x y in
      cell (width out) new x y = true
      ↔ (cell (width inp) src x y = true ∧ (n = 2 ∨ n = 3))
        ∨ (cell (width inp) src x y = false ∧ n = 3).
Proof.
  intros Hsrc Hold Hw Hh Hne HfW HfH.
  destruct (next_generation_holds fuel w inp out src old) as (w' & Hrun & Hnew);
    try done.
  exists w', (next_cells (width inp) (height inp) src).
  split; [exact Hrun|]. split; [exact Hnew|].
  intros x y Hin n. rewrite <- Hw, <- Hh in Hin. apply in_bounds_spec in Hin as [Hx Hy].
  rewrite <- Hw. rewrite cell_next_cells by done. apply life_rule_spec.
Qed.

Ltac split_eqb :=
  repeat match goal with
         | |- context [Z.eqb ?m ?n] => destruct (Z.eqb_spec m n); try lia
         | |- context [Z.leb ?m ?n] => destruct (Z.leb_spec m n); try lia
         end.

(** A grid whose only alive cell is (0, 0): every position is alive exactly
    when it is (0, 0). *)
Lemma alive_lone_corner W H cells :
  0 < W → 0 < H →
  cell W cells 0 0 = true →
  (∀ x y, in_bounds W H x y = true → (x, y) ≠ (0, 0) → cell W cells x y = false) →
  ∀ x y, alive W H cells x y = (x =? 0) && (y =? 0).
Proof.
  intros HW HH H00 Hdead x y. unfold alive.
  destruct (in_bounds W H x y) eqn:Hin; simpl.
  - destruct (Z.eqb_spec x 0) as [->|Hx]; [destruct (Z.eqb_spec y 0) as [->|Hy]|]; simpl.
    + done.
    + apply Hdead; [done|]. intros [=]. done.
    + apply Hdead; [done|]. intros [=]. done.
  - symmetry. apply andb_false_iff.
    assert (¬ (x = 0 ∧ y = 0)) as Hne.
    { intros [-> ->]. assert (in_bounds W H 0 0 = true) by (apply in_bounds_spec; lia).
      congruence. }
    rewrite !Z.eqb_neq. lia.
Qed.

(** The count of the specification is the size of [on_grid_alive]. *)
Lemma alive_neighbours_on_grid_alive W H cells x y :
  alive_neighbours W H cells x y = Z.of_nat (length (on_grid_alive W H cells x y)).
Proof.
  unfold alive_neighbours, on_grid_alive. generalize adjacent as l.
  induction l as [|d l IH]; [done|].
  rewrite fmap_cons, filter_cons. simpl foldr. rewrite IH. unfold alive. simpl.
  destruct (decide _) as [[-> ->]|Hno]; simpl; [lia|].
  destruct (in_bounds W H (x + d.1) (y + d.2)); simpl; [|lia].
  destruct (cell W cells (x + d.1) (y + d.2)); simpl; [|lia].
  exfalso. by apply Hno.
Qed.

(** Two arrays that agree on a cell's adjacent positions on the grid give
    that cell the same count. *)
Lemma alive_neighbours_agree W H c1 c2 x y :
  (∀ dx dy, -1 ≤ dx ≤ 1 → -1 ≤ dy ≤ 1 → in_bounds W H (x + dx) (y + dy) = true →
            cell W c2 (x + dx) (y + dy) = cell W c1 (x + dx) (y + dy)) →
  alive_neighbours W H c2 x y = alive_neighbours W H c1 x y.
Proof.
  intros Hag.
  assert (∀ dx dy, -1 ≤ dx ≤ 1 → -1 ≤ dy ≤ 1 →
                   alive W H c2 (x + dx) (y + dy) = alive W H c1 (x + dx) (y + dy)) as Hal.
  { intros dx dy Hdx Hdy. unfold alive.
    destruct (in_bounds W H (x + dx) (y + dy)) eqn:Hin; [|done]. simpl. by apply Hag. }
  unfold alive_neighbours, adjacent. simpl.
  by rewrite !Hal by lia.
Qed.

(** C2. For every pair of grids of equal dimensions, a run of
    [next_generation] returns and gives each cell the value of the rule for
    the number of adjacent positions that are on the grid and alive, which is
    also the sum that the source computes: a position off the grid contributes
    nothing. The edges do not wrap: the value that a run gives a cell is the
    same for any two sources that agree on the cell and on its adjacent
    positions on the grid, whatever the other cells hold, those across the
    edges included. In particular, on a grid whose only alive cell is (0, 0),
    the count of (0, 0) is 0 and the run leaves every cell dead. *)
Theorem lone_corner_cell_dies fuel w inp out src old :
  holds w inp src → holds w out old →
  width inp = width out → height inp = height out →
  data inp ≠ data out →
  (Z.to_nat (width inp) ≤ fuel)%nat → (Z.to_nat (height inp) ≤ fuel)%nat →
  ∃ w' new,
    next_generation fuel inp out w = Ok tt w' ∧
    holds w' out new ∧
    (∀ x y, in_bounds (width inp) (height inp) x y = true →
       cell (width out) new x y
       = life_rule (cell (width inp) src x y)
           (Z.of_nat (length (on_grid_alive (width inp) (height inp) src x y))) ∧
       neighbours (width inp) (height inp) src x y
       = Z.of_nat (length (on_grid_alive (width inp) (height inp) src x y))) ∧
    (∀ w2 src2 old2,
       holds w2 inp src2 → holds w2 out old2 →
       ∃ w2' new2,
         next_generation fuel inp out w2 = Ok tt w2' ∧
         holds w2' out new2 ∧
         ∀ x y, in_bounds (width inp) (height inp) x y = true →
           (∀ dx dy, -1 ≤ dx ≤ 1 → -1 ≤ dy ≤ 1 →
              in_bounds (width inp) (height inp) (x + dx) (y + dy) = true →
              cell (width inp) src2 (x + dx) (y + dy)
              = cell (width inp) src (x + dx) (y + dy)) →
           cell (width out) new2 x y = cell (width out) new x y) ∧
    (cell (width inp) src 0 0 = true →
     (∀ x y, in_bounds (width inp) (height inp) x y = true → (x, y) ≠ (0, 0) →
             cell (width inp) src x y = false) →
     on_grid_alive (width inp) (height inp) src 0 0 = [] ∧
     neighbours (width inp) (height inp) src 0 0 = 0 ∧
     ∀ x y, in_bounds (width out) (height out) x y = true →
            cell (width out) new x y = false).
Proof.
  intros Hsrc Hold Hw Hh Hne HfW HfH.
  destruct (next_generation_holds fuel w inp out src old) as (w' & Hrun & Hnew);
    try done.
  exists w', (next_cells (width inp) (height inp) src).
  split; [exact Hrun|]. split; [exact Hnew|].
  assert (∀ x y, in_bounds (width inp) (height inp) x y = true →
                 neighbours (width inp) (height inp) src x y
                 = Z.of_nat (length (on_grid_alive (width inp) (height inp) src x y)))
    as Hcount.
  { intros x y [Hx Hy]%in_bounds_spec.
    rewrite <- alive_neighbours_on_grid_alive. by apply neighbours_alive_neighbours. }
  split; [|split].
  - intros x y Hin. split; [|by apply Hcount].
    pose proof Hin as [Hx Hy]%in_bounds_spec.
    rewrite <- Hw, cell_next_cells by done.
    by rewrite alive_neighbours_on_grid_alive.
  - intros w2 src2 old2 Hsrc2 Hold2.
    destruct (next_generation_holds fuel w2 inp out src2 old2) as (w2' & Hrun2 & Hnew2);
      try done.
    exists w2', (next_cells (width inp) (height inp) src2).
    split; [exact Hrun2|]. split; [exact Hnew2|].
    intros x y Hin Hag. pose proof Hin as [Hx Hy]%in_bounds_spec.
    rewrite <- Hw, !cell_next_cells by done.
    rewrite (alive_neighbours_agree _ _ src src2 x y Hag).
    specialize (Hag 0 0). rewrite !Z.add_0_r in Hag. by rewrite Hag by (done || lia).
  - intros H00 Hdead.
    assert (0 < width inp ∧ 0 < height inp) as [HW HH].
    { destruct Hsrc as (HW & HH & _ & _ & Hlen).
      unfold cell in H00. simpl in H00.
      destruct src; [done|]. simpl in Hlen. nia. }
    pose proof (alive_lone_corner _ _ _ HW HH H00 Hdead) as Halive.
    assert (alive_neighbours (width inp) (height inp) src 0 0 = 0) as Hzero.
    { rewrite alive_neighbours_unfold, !Halive. reflexivity. }
    split; [|split].
    + rewrite alive_neighbours_on_grid_alive in Hzero.
      destruct (on_grid_alive (width inp) (height inp) src 0 0); [done|].
      simpl in Hzero. lia.
    + rewrite Hcount by (apply in_bounds_spec; lia).
      by rewrite <- alive_neighbours_on_grid_alive.
    + intros x y Hin. rewrite <- Hw, <- Hh in Hin. rewrite <- Hw.
      pose proof Hin as [Hx Hy]%in_bounds_spec.
      rewrite cell_next_cells, alive_neighbours_unfold, !Halive by done.
      destruct (decide (x = 0 ∧ y = 0)) as [[-> ->]|Hxy].
      * by rewrite H00.
      * rewrite Hdead by (done || intros [=]; lia).
        unfold life_rule. apply Z.eqb_neq. split_eqb; simpl; lia.
Qed.

(** C3. Two runs of [next_generation] on the same source contents, whatever
    the destination held before, leave the same array in the destination;
    each run changes the heap at the destination array only, reads elements of
    the source array only, writes each element of the destination array once,
    and leaves the terminal and the random engine as they were. *)
Theorem next_generation_reads_source_only fuel w1 w2 inp out src old1 old2 :
  holds w1 inp src → holds w1 out old1 →
  holds w2 inp src → holds w2 out old2 →
  width inp = width out → height inp = height out →
  data inp ≠ data out →
  (Z.to_nat (width inp) ≤ fuel)%nat → (Z.to_nat (height inp) ≤ fuel)%nat →
  ∃ new rd1 rd2 wr,
    next_generation fuel inp out w1
    = Ok tt (touched w1 (<[data out := new]> (heap w1)) rd1 wr) ∧
    next_generation fuel inp out w2
    = Ok tt (touched w2 (<[data out := new]> (heap w2)) rd2 wr) ∧
    Forall (within (data inp) (width inp * height inp)) rd1 ∧
    Forall (within (data inp) (width inp * height inp)) rd2 ∧
    NoDup wr ∧
    (∀ r, r ∈ wr ↔ within (data out) (width out * height out) r) ∧
    Z.of_nat (length new) = width out * height out.
Proof.
  intros Hs1 Ho1 Hs2 Ho2 Hw Hh Hne HfW HfH.
  destruct (next_generation_run inp out src old1 w1 Hw Hh Hne Hs1 Ho1 fuel HfW HfH)
    as (rd1 & Hrd1 & Hrun1).
  destruct (next_generation_run inp out src old2 w2 Hw Hh Hne Hs2 Ho2 fuel HfW HfH)
    as (rd2 & Hrd2 & Hrun2).
  eexists _, rd1, rd2, _. do 4 (split; [done|]).
  destruct Ho1 as (HW & HH & _). rewrite <- Hw, <- Hh in *.
  split; [|split].
  - unfold sweep. apply NoDup_fmap_2; [|apply NoDup_seqZ].
    intros i j [=]. done.
  - intros [d i]. unfold sweep, within. simpl.
    rewrite list_elem_of_fmap. setoid_rewrite elem_of_seqZ. split.
    + intros (j & [= -> ->] & Hj). lia.
    + intros [-> Hi]. exists i. split; [done|lia].
  - rewrite length_next_cells. nia.
Qed.

(** C10. For two grids of equal, positive dimensions, a run of
    [next_generation] returns normally, so that neither the assertion of the
    accessor nor an access outside an array occurs; each guard taken puts the
    neighbour it protects on the grid, and every element read lies within
    the source array and every element written within the destination array. *)
Theorem next_generation_in_bounds fuel w inp out src old :
  holds w inp src → holds w out old →
  width inp = width out → height inp = height out →
  data inp ≠ data out →
  0 < width inp → 0 < height inp →
  (Z.to_nat (width inp) ≤ fuel)%nat → (Z.to_nat (height inp) ≤ fuel)%nat →
  (∀ x y (left up right down : bool),
     in_bounds (width inp) (height inp) x y = true →
     left = negb (x =? 0) → up = negb (y =? 0) →
     right = negb (x =? width inp - 1) → down = negb (y =? height inp - 1) →
     in_bounds (width out) (height out) x y = true ∧
     (left && up = true → in_bounds (width inp) (height inp) (x - 1) (y - 1) = true) ∧
     (left = true → in_bounds (width inp) (height inp) (x - 1) y = true) ∧
     (left && down = true → in_bounds (width inp) (height inp) (x - 1) (y + 1) = true) ∧
     (up = true → in_bounds (width inp) (height inp) x (y - 1) = true) ∧
     (down = true → in_bounds (width inp) (height inp) x (y + 1) = true) ∧
     (right && up = true → in_bounds (width inp) (height inp) (x + 1) (y - 1) = true) ∧
     (right = true → in_bounds (width inp) (height inp) (x + 1) y = true) ∧
     (right && down = true → in_bounds (width inp) (height inp) (x + 1) (y + 1) = true)) ∧
  ∃ w' rd wr,
    next_generation fuel inp out w = Ok tt w' ∧
    reads w' = reads w ++ rd ∧
    writes w' = writes w ++ wr ∧
    Forall (within (data inp) (width inp * height inp)) rd ∧
    Forall (within (data out) (width out * height out)) wr.
Proof.
  intros Hsrc Hold Hw Hh Hne HW HH HfW HfH. split.
  - intros x y left up right down [Hx Hy]%in_bounds_spec -> -> -> ->.
    rewrite <- Hw, <- Hh.
    repeat split; try (intros Hguard; revert Hguard); guard_in_bounds.
  - destruct (next_generation_run inp out src old w Hw Hh Hne Hsrc Hold fuel HfW HfH)
      as (rd & Hrd & Hrun).
    eexists _, rd, _. split; [exact Hrun|]. simpl. do 3 (split; [done|]).
    rewrite <- Hw, <- Hh. unfold sweep. apply Forall_fmap, Forall_seqZ.
    intros i Hi. split; simpl; [done|lia].
Qed.

(** ** The blinker *)

Ltac split_positions :=
  repeat match goal with
         | |- context [Z.eqb ?m ?n] =>
             lazymatch m with context [one_if _] => fail | _ => idtac end;
             destruct (Z.eqb_spec m n); try lia
         | |- context [Z.leb ?m ?n] => destruct (Z.leb_spec m n); try lia
         end.

Lemma alive_pattern W H cells (pattern : Z → Z → bool) :
  (∀ x y, in_bounds W H x y = true → cell W cells x y = pattern x y) →
  (∀ x y, in_bounds W H x y = false → pattern x y = false) →
  ∀ x y, alive W H cells x y = pattern x y.
Proof.
  intros Hon Hoff x y. unfold alive.
  destruct (in_bounds W H x y) eqn:Hin; simpl; [by apply Hon|].
  symmetry. by apply Hoff.
Qed.

Lemma horizontal_off_grid W H x y :
  5 ≤ W → 5 ≤ H → in_bounds W H x y = false → horizontal_blinker x y = false.
Proof.
  intros HW HH Hout. apply not_true_is_false. intros Hon.
  assert (in_bounds W H x y = true); [|congruence].
  apply in_bounds_spec. revert Hon. unfold horizontal_blinker.
  rewrite !andb_true_iff, Z.eqb_eq, !Z.leb_le. lia.
Qed.

Lemma vertical_off_grid W H x y :
  5 ≤ W → 5 ≤ H → in_bounds W H x y = false → vertical_blinker x y = false.
Proof.
  intros HW HH Hout. apply not_true_is_false. intros Hon.
  assert (in_bounds W H x y = true); [|congruence].
  apply in_bounds_spec. revert Hon. unfold vertical_blinker.
  rewrite !andb_true_iff, Z.eqb_eq, !Z.leb_le. lia.
Qed.

Lemma horizontal_to_vertical W H cells :
  5 ≤ W → 5 ≤ H →
  (∀ x y, in_bounds W H x y = true → cell W cells x y = horizontal_blinker x y) →
  ∀ x y, in_bounds W H x y = true →
    cell W (next_cells W H cells) x y = vertical_blinker x y.
Proof.
  intros HW HH Hcells x y Hin. pose proof Hin as [Hx Hy]%in_bounds_spec.
  rewrite cell_next_cells, alive_neighbours_unfold by done.
  rewrite !(alive_pattern W H cells horizontal_blinker Hcells
             (λ x' y', horizontal_off_grid W H x' y' HW HH)).
  rewrite Hcells by done.
  unfold horizontal_blinker, vertical_blinker. split_positions; reflexivity.
Qed.

Lemma vertical_to_horizontal W H cells :
  5 ≤ W → 5 ≤ H →
  (∀ x y, in_bounds W H x y = true → cell W cells x y = vertical_blinker x y) →
  ∀ x y, in_bounds W H x y = true →
    cell W (next_cells W H cells) x y = horizontal_blinker x y.
Proof.
  intros HW HH Hcells x y Hin. pose proof Hin as [Hx Hy]%in_bounds_spec.
  rewrite cell_next_cells, alive_neighbours_unfold by done.
  rewrite !(alive_pattern W H cells vertical_blinker Hcells
             (λ x' y', vertical_off_grid W H x' y' HW HH)).
  rewrite Hcells by done.
  unfold horizontal_blinker, vertical_blinker. split_positions; reflexivity.
Qed.

(** C4. On a grid of width and height at least 5 whose alive cells are
    exactly (1,2), (2,2) and (3,2), a run of [next_generation] leaves exactly
    (2,1), (2,2) and (2,3) alive in the destination, and a second run, from
    that grid back into the first, restores the original array. *)
Theorem blinker_period_two fuel w inp out src old :
  holds w inp src → holds w out old →
  width inp = width out → height inp = height out →
  data inp ≠ data out →
  (Z.to_nat (width inp) ≤ fuel)%nat → (Z.to_nat (height inp) ≤ fuel)%nat →
  5 ≤ width inp → 5 ≤ height inp →
  (∀ x y, in_bounds (width inp) (height inp) x y = true →
          cell (width inp) src x y = horizontal_blinker x y) →
  ∃ w1 mid w2,
    next_generation fuel inp out w = Ok tt w1 ∧
    holds w1 out mid ∧
    (∀ x y, in_bounds (width out) (height out) x y = true →
            cell (width out) mid x y = vertical_blinker x y) ∧
    next_generation fuel out inp w1 = Ok tt w2 ∧
    holds w2 inp src.
Proof.
  intros Hsrc Hold Hw Hh Hne HfW HfH HW HH Hcells.
  destruct (next_generation_run inp out src old w Hw Hh Hne Hsrc Hold fuel HfW HfH)
    as (rd & Hrd & Hrun).
  set (mid := next_cells (width inp) (height inp) src) in *.
  set (w1 := touched w _ rd _) in *.
  pose proof Hsrc as (HW0 & HH0 & Hmax & Hs & Hsl).
  pose proof Hold as (_ & _ & _ & Ho & Hol).
  assert (holds w1 out mid) as Hmid.
  { unfold holds. rewrite <- Hw, <- Hh. do 3 (split; [done|]). simpl. split.
    - by rewrite lookup_insert_eq.
    - unfold mid. rewrite length_next_cells. lia. }
  assert (holds w1 inp src) as Hsrc1.
  { do 3 (split; [done|]). simpl. split; [|done]. by rewrite lookup_insert_ne. }
  assert (∀ x y, in_bounds (width inp) (height inp) x y = true →
                 cell (width inp) mid x y = vertical_blinker x y) as Hvert
    by (by apply horizontal_to_vertical).
  destruct (next_generation_run out inp mid src w1 (eq_sym Hw) (eq_sym Hh)
              (not_eq_sym Hne) Hmid Hsrc1 fuel) as (rd' & Hrd' & Hrun');
    [by rewrite <- Hw|by rewrite <- Hh|].
  eexists w1, mid, _. split; [exact Hrun|]. split; [exact Hmid|]. split.
  { rewrite <- Hw, <- Hh. exact Hvert. }
  split; [exact Hrun'|].
  do 3 (split; [done|]). simpl. split; [|done]. rewrite lookup_insert_eq. f_equal.
  rewrite <- Hw, <- Hh.
  apply (cells_ext (width inp) (height inp)); [lia| |done|].
  - rewrite length_next_cells. lia.
  - intros x y Hx Hy. rewrite Hcells by (apply in_bounds_spec; lia).
    apply vertical_to_horizontal; try done. apply in_bounds_spec; lia.
Qed.

(** ** The claims about [next_generation] at concrete grids *)

Ltac holds_here :=
  unfold holds; simpl; repeat split; try (unfold INT_MAX; lia); try reflexivity.

Ltac by_computing := vm_compute; first [lia | done | split; done].

Ltac on_grid x y Hin :=
  apply in_bounds_spec in Hin; simpl in Hin;
  let Hx := fresh in let Hy := fresh in
  assert (x = 0 ∨ x = 1 ∨ x = 2 ∨ x = 3 ∨ x = 4) as Hx by lia;
  assert (y = 0 ∨ y = 1 ∨ y = 2 ∨ y = 3 ∨ y = 4) as Hy by lia;
  clear Hin;
  destruct Hx as [->|[->|[->|[->| ->]]]]; destruct Hy as [->|[->|[->|[->| ->]]]].

Lemma next_generation_life_rule_witness :
  ∃ w' new,
    next_generation 3 (Grid 3 3 1) (Grid 3 3 2)
      (quiet {[1%positive := glider3; 2%positive := dead 9]}) = Ok tt w' ∧
    holds w' (Grid 3 3 2) new ∧
    ∀ x y, in_bounds 3 3 x y = true →
      let n := alive_neighbours 3 3 glider3 x y in
      cell 3 new x y = true
      ↔ (cell 3 glider3 x y = true ∧ (n = 2 ∨ n = 3))
        ∨ (cell 3 glider3 x y = false ∧ n = 3).
Proof.
  apply (next_generation_life_rule 3
           (quiet {[1%positive := glider3; 2%positive := dead 9]})
           (Grid 3 3 1) (Grid 3 3 2) glider3 (dead 9));
    try holds_here; simpl; (done || lia).
Defined.

(** The glider of [glider3], swept by the code itself. *)
Example next_generation_glider3 :
  match next_generation 3 (Grid 3 3 1) (Grid 3 3 2)
          (quiet {[1%positive := glider3; 2%positive := dead 9]}) with
  | Ok _ w' => (heap w' !! 1%positive, heap w' !! 2%positive, writes w')
  | Fail _ => (None, None, [])
  end
  = (Some glider3,
     Some [false; false; false;
           true; false; true;
           false; true; true],
     sweep 2 9).
Proof. vm_compute. reflexivity. Qed.

(** The still life: a block of four cells on a grid of 4 by 4 is unchanged. *)
Example next_generation_block :
  match next_generation 4 (Grid 4 4 1) (Grid 4 4 2)
          (quiet {[1%positive := [false; false; false; false;
                                  false; true; true; false;
                                  false; true; true; false;
                                  false; false; false; false];
                   2%positive := dead 16]}) with
  | Ok _ w' => heap w' !! 2%positive
  | Fail _ => None
  end
  = Some [false; false; false; false;
          false; true; true; false;
          false; true; true; false;
          false; false; false; false].
Proof. vm_compute. reflexivity. Qed.

(** With too little fuel the loop does not finish. *)
Example next_generation_little_fuel :
  next_generation 2 (Grid 3 3 1) (Grid 3 3 2)
    (quiet {[1%positive := glider3; 2%positive := dead 9]}) = Fail OutOfFuel.
Proof. vm_compute. reflexivity. Qed.

(** A call with the same grid as source and destination updates in place, and
    the result differs from the next generation. *)
Example next_generation_aliased :
  match next_generation 3 (Grid 3 3 1) (Grid 3 3 1)
          (quiet {[1%positive := glider3]}) with
  | Ok _ w' => heap w' !! 1%positive
  | Fail _ => None
  end
  ≠ Some (next_cells 3 3 glider3).
Proof. vm_compute. discriminate. Qed.

Lemma lone_corner_cell_dies_witness :
  ∃ w' new,
    next_generation 2 (Grid 2 2 1) (Grid 2 2 2)
      (quiet {[1%positive := corner2; 2%positive := dead 4]}) = Ok tt w' ∧
    holds w' (Grid 2 2 2) new ∧
    on_grid_alive 2 2 corner2 0 0 = [] ∧
    neighbours 2 2 corner2 0 0 = 0 ∧
    ∀ x y, in_bounds 2 2 x y = true → cell 2 new x y = false.
Proof.
  destruct (lone_corner_cell_dies 2
              (quiet {[1%positive := corner2; 2%positive := dead 4]})
              (Grid 2 2 1) (Grid 2 2 2) corner2 (dead 4))
    as (w' & new & Hrun & Hnew & _ & _ & Hlone);
    try holds_here; simpl; try (done || lia).
  exists w', new. split; [exact Hrun|]. split; [exact Hnew|].
  apply Hlone; [reflexivity|].
  intros x y Hin Hxy. on_grid x y Hin; try reflexivity; try done; lia.
Defined.

Lemma next_generation_reads_source_only_witness :
  ∃ new rd1 rd2 wr,
    next_generation 3 (Grid 3 3 1) (Grid 3 3 2)
      (quiet {[1%positive := glider3; 2%positive := dead 9]})
    = Ok tt (touched (quiet {[1%positive := glider3; 2%positive := dead 9]})
               (<[2%positive := new]> {[1%positive := glider3; 2%positive := dead 9]})
               rd1 wr) ∧
    next_generation 3 (Grid 3 3 1) (Grid 3 3 2)
      (quiet {[1%positive := glider3; 2%positive := glider3]})
    = Ok tt (touched (quiet {[1%positive := glider3; 2%positive := glider3]})
               (<[2%positive := new]> {[1%positive := glider3; 2%positive := glider3]})
               rd2 wr) ∧
    Forall (within 1%positive 9) rd1 ∧
    Forall (within 1%positive 9) rd2 ∧
    NoDup wr ∧
    (∀ r, r ∈ wr ↔ within 2%positive 9 r) ∧
    Z.of_nat (length new) = 9.
Proof.
  exact (next_generation_reads_source_only 3
           (quiet {[1%positive := glider3; 2%positive := dead 9]})
           (quiet {[1%positive := glider3; 2%positive := glider3]})
           (Grid 3 3 1) (Grid 3 3 2) glider3 (dead 9) glider3
           ltac:(holds_here) ltac:(holds_here) ltac:(holds_here) ltac:(holds_here)
           eq_refl eq_refl ltac:(done) ltac:(simpl; lia) ltac:(simpl; lia)).
Defined.

Lemma blinker_period_two_witness :
  ∃ w1 mid w2,
    next_generation 5 (Grid 5 5 1) (Grid 5 5 2)
      (quiet {[1%positive := blinker5; 2%positive := dead 25]}) = Ok tt w1 ∧
    holds w1 (Grid 5 5 2) mid ∧
    (∀ x y, in_bounds 5 5 x y = true → cell 5 mid x y = vertical_blinker x y) ∧
    next_generation 5 (Grid 5 5 2) (Grid 5 5 1) w1 = Ok tt w2 ∧
    holds w2 (Grid 5 5 1) blinker5.
Proof.
  apply (blinker_period_two 5
           (quiet {[1%positive := blinker5; 2%positive := dead 25]})
           (Grid 5 5 1) (Grid 5 5 2) blinker5 (dead 25));
    try holds_here; simpl; try (done || lia).
  intros x y Hin. on_grid x y Hin; reflexivity.
Defined.

Lemma next_generation_in_bounds_witness :
  ∃ w' rd wr,
    next_generation 3 (Grid 3 3 1) (Grid 3 3 2)
      (quiet {[1%positive := glider3; 2%positive := dead 9]}) = Ok tt w' ∧
    reads w' = [] ++ rd ∧
    writes w' = [] ++ wr ∧
    Forall (within 1%positive 9) rd ∧
    Forall (within 2%positive 9) wr.
Proof.
  apply (next_generation_in_bounds 3
           (quiet {[1%positive := glider3; 2%positive := dead 9]})
           (Grid 3 3 1) (Grid 3 3 2) glider3 (dead 9));
    try holds_here; simpl; (done || lia).
Defined.

(** ** The double buffer *)

Lemma grid_new_cases W H w :
  grid_new W H w
  = if (INT_MIN <=? W * H) && (W * H <=? INT_MAX)
    then if W * H <? 0 then Fail BadArrayLength
         else Ok (Grid W H (fresh (dom (heap w))))
                 (allocated w (fresh (dom (heap w))) (W * H))
    else Fail Undefined.
Proof.
  unfold grid_new, mbind, M_bind, int_mul.
  destruct ((INT_MIN <=? W * H) && (W * H <=? INT_MAX)); [|done].
  simpl. unfold new_array. by destruct (W * H <? 0).
Qed.

Lemma grid_new_run W H w :
  0 ≤ W * H ≤ INT_MAX →
  grid_new W H w
  = Ok (Grid W H (fresh (dom (heap w)))) (allocated w (fresh (dom (heap w))) (W * H)).
Proof.
  intros Hn. rewrite grid_new_cases.
  replace ((INT_MIN <=? W * H) && (W * H <=? INT_MAX)) with true
    by (symmetry; unfold INT_MIN; rewrite andb_true_iff, !Z.leb_le; lia).
  by replace (W * H <? 0) with false by (symmetry; apply Z.ltb_ge; lia).
Qed.

Lemma grid_new_Ok W H w g w' :
  grid_new W H w = Ok g w' →
  0 ≤ W * H ≤ INT_MAX ∧
  g = Grid W H (fresh (dom (heap w))) ∧
  w' = allocated w (fresh (dom (heap w))) (W * H).
Proof.
  rewrite grid_new_cases.
  destruct ((INT_MIN <=? W * H) && (W * H <=? INT_MAX)) eqn:Hrange; [|done].
  destruct (Z.ltb_spec (W * H) 0); [done|]. intros [= <- <-].
  rewrite andb_true_iff, !Z.leb_le in Hrange. split; [lia|done].
Qed.

Lemma fresh_allocated w n :
  fresh (dom (heap (allocated w (fresh (dom (heap w))) n))) ≠ fresh (dom (heap w)).
Proof.
  set (l := fresh (dom (heap w))). intros Heq.
  apply (is_fresh (dom (heap (allocated w l n)))). rewrite Heq.
  simpl. rewrite dom_insert_L. set_solver.
Qed.

(** What the constructor of the double buffer returns, when it returns. *)
Lemma double_buffered_grid_new_Ok W H w d w' :
  double_buffered_grid_new W H w = Ok d w' →
  ∃ la lb, la ≠ lb ∧ d = DoubleBuffered true (Grid W H la) (Grid W H lb).
Proof.
  unfold double_buffered_grid_new, mbind, M_bind.
  destruct (grid_new W H w) as [ga w1|] eqn:Ha; [|done].
  destruct (grid_new W H w1) as [gb w2|] eqn:Hb; [|done].
  intros [= <- <-].
  apply grid_new_Ok in Ha as (_ & -> & ->). apply grid_new_Ok in Hb as (_ & -> & _).
  eexists _, _. split; [|done]. apply not_eq_sym, fresh_allocated.
Qed.

Lemma iter_swap_grids n d :
  a (Nat.iter n swap d) = a d ∧ b (Nat.iter n swap d) = b d.
Proof. induction n as [|n [IHa IHb]]; [done|]. simpl. done. Qed.

(** C5. [swap] exchanges the roles of the two grids and changes neither grid:
    what was [back()] is [front()] afterwards and conversely, reading through
    the new front reads the array of the former back, and at any time after
    construction the front and the back are distinct grids, with distinct
    arrays, of the dimensions given to the constructor. *)
Theorem swap_exchanges_roles W H w d w' (n : nat) :
  double_buffered_grid_new W H w = Ok d w' →
  let d' := Nat.iter n swap d in
  front (swap d') = back d' ∧
  back (swap d') = front d' ∧
  a (swap d') = a d' ∧
  b (swap d') = b d' ∧
  (∀ x y w'', peek (front (swap d')) x y w'' = peek (back d') x y w'') ∧
  (∀ x y w'', grid_at (back (swap d')) x y w'' = grid_at (front d') x y w'') ∧
  front d' ≠ back d' ∧
  data (front d') ≠ data (back d') ∧
  width (front d') = W ∧ width (back d') = W ∧
  height (front d') = H ∧ height (back d') = H.
Proof.
  intros Hnew d'.
  destruct (double_buffered_grid_new_Ok _ _ _ _ _ Hnew) as (la & lb & Hne & ->).
  destruct (iter_swap_grids n (DoubleBuffered true (Grid W H la) (Grid W H lb)))
    as [Ha Hb].
  fold d' in Ha, Hb. simpl in Ha, Hb.
  assert (front (swap d') = back d') as Hfront
    by (unfold front, back, swap; simpl; by destruct (first d')).
  assert (back (swap d') = front d') as Hback
    by (unfold front, back, swap; simpl; by destruct (first d')).
  split; [done|]. split; [done|]. split; [done|]. split; [done|].
  split; [by rewrite Hfront|]. split; [by rewrite Hback|].
  unfold front, back. rewrite Ha, Hb.
  destruct (first d'); simpl; repeat split; congruence.
Qed.

Lemma swap_exchanges_roles_witness :
  let d' := Nat.iter 3 swap (DoubleBuffered true (Grid 2 2 1) (Grid 2 2 2)) in
  front (swap d') = back d' ∧
  back (swap d') = front d' ∧
  a (swap d') = a d' ∧
  b (swap d') = b d' ∧
  (∀ x y w'', peek (front (swap d')) x y w'' = peek (back d') x y w'') ∧
  (∀ x y w'', grid_at (back (swap d')) x y w'' = grid_at (front d') x y w'') ∧
  front d' ≠ back d' ∧
  data (front d') ≠ data (back d') ∧
  width (front d') = 2 ∧ width (back d') = 2 ∧
  height (front d') = 2 ∧ height (back d') = 2.
Proof.
  assert (double_buffered_grid_new 2 2 (quiet ∅)
          = Ok (DoubleBuffered true (Grid 2 2 1) (Grid 2 2 2))
               (quiet {[1%positive := dead 4; 2%positive := dead 4]})) as Hnew
    by (vm_compute; reflexivity).
  exact (swap_exchanges_roles 2 2 _ _ _ 3 Hnew).
Defined.

(** ** tick *)

Lemma buffers_front_back w d :
  buffers_ok w d ↔
  data (front d) ≠ data (back d) ∧
  width (front d) = width (back d) ∧ height (front d) = height (back d) ∧
  (∃ cf, holds w (front d) cf) ∧ (∃ cb, holds w (back d) cb).
Proof.
  unfold buffers_ok, front, back. destruct (first d); [done|].
  split; intros (Hne & Hw & Hh & Ha & Hb); by repeat split.
Qed.

Lemma buffers_ok_swap w d : buffers_ok w d → buffers_ok w (swap d).
Proof. done. Qed.

Lemma front_swap d : front (swap d) = back d.
Proof. unfold front, back, swap. simpl. by destruct (first d). Qed.

Lemma back_swap d : back (swap d) = front d.
Proof. unfold front, back, swap. simpl. by destruct (first d). Qed.

(** C6. [tick] returns; it runs the generation rule from the front grid into
    the back grid and swaps, so that afterwards the front grid holds the next
    generation, by the Life rules, of what the front grid held before, the back
    grid holds that former generation, and nothing else has changed: the heap
    differs at the array of the former back grid only, and the terminal and the
    random engine are as before. *)
Theorem tick_advances_one_generation fuel w g src :
  buffers_ok w (buffer g) →
  holds w (front (buffer g)) src →
  (Z.to_nat (width (front (buffer g))) ≤ fuel)%nat →
  (Z.to_nat (height (front (buffer g))) ≤ fuel)%nat →
  let W := width (front (buffer g)) in
  let H := height (front (buffer g)) in
  ∃ g' w' new rd,
    tick fuel g w = Ok g' w' ∧
    buffer g' = swap (buffer g) ∧
    front (buffer g') = back (buffer g) ∧
    back (buffer g') = front (buffer g) ∧
    w' = touched w (<[data (back (buffer g)) := new]> (heap w)) rd
           (sweep (data (back (buffer g))) (W * H)) ∧
    Forall (within (data (front (buffer g))) (W * H)) rd ∧
    holds w' (front (buffer g')) new ∧
    holds w' (back (buffer g')) src ∧
    buffers_ok w' (buffer g') ∧
    ∀ x y, in_bounds W H x y = true →
      let n := alive_neighbours W H src x y in
      cell W new x y = true
      ↔ (cell W src x y = true ∧ (n = 2 ∨ n = 3)) ∨ (cell W src x y = false ∧ n = 3).
Proof.
  intros Hok Hsrc HfW HfH gw gh.
  destruct (proj1 (buffers_front_back _ _) Hok) as (Hne & Hw & Hh & _ & [old Hold]).
  destruct (next_generation_run _ _ src old w Hw Hh Hne Hsrc Hold fuel HfW HfH)
    as (rd & Hrd & Hrun).
  fold gw gh in Hrun, Hrd.
  set (new := next_cells gw gh src) in *.
  set (w' := touched w _ rd _) in *.
  assert (holds w' (back (buffer g)) new) as Hnew.
  { destruct Hold as (HW & HH & Hmax & Ho & Hol).
    do 3 (split; [done|]). simpl. split; [by rewrite lookup_insert_eq|].
    unfold new. rewrite length_next_cells, <- Hw, <- Hh. unfold gw, gh.
    destruct Hsrc as (? & ? & _). nia. }
  assert (holds w' (front (buffer g)) src) as Hsrc'.
  { destruct Hsrc as (HW & HH & Hmax & Hs & Hsl).
    do 3 (split; [done|]). simpl. split; [|done]. by rewrite lookup_insert_ne. }
  exists (GameOfLife (swap (buffer g))), w', new, rd.
  split. { unfold tick, mbind, M_bind. by rewrite Hrun. }
  simpl. rewrite front_swap, back_swap.
  do 7 (split; [done|]). split.
  - apply buffers_ok_swap, buffers_front_back. repeat split; eauto.
  - intros x y [Hx Hy]%in_bounds_spec. unfold new.
    rewrite cell_next_cells by done. apply life_rule_spec.
Qed.

Lemma tick_advances_one_generation_witness :
  ∃ g' w' new rd,
    tick 3 (GameOfLife (DoubleBuffered false (Grid 3 3 2) (Grid 3 3 1)))
      (quiet {[1%positive := glider3; 2%positive := dead 9]}) = Ok g' w' ∧
    buffer g' = DoubleBuffered true (Grid 3 3 2) (Grid 3 3 1) ∧
    front (buffer g') = Grid 3 3 2 ∧
    back (buffer g') = Grid 3 3 1 ∧
    w' = touched (quiet {[1%positive := glider3; 2%positive := dead 9]})
           (<[2%positive := new]> {[1%positive := glider3; 2%positive := dead 9]}) rd
           (sweep 2 9) ∧
    Forall (within 1%positive 9) rd ∧
    holds w' (front (buffer g')) new ∧
    holds w' (back (buffer g')) glider3 ∧
    buffers_ok w' (buffer g') ∧
    ∀ x y, in_bounds 3 3 x y = true →
      let n := alive_neighbours 3 3 glider3 x y in
      cell 3 new x y = true
      ↔ (cell 3 glider3 x y = true ∧ (n = 2 ∨ n = 3))
        ∨ (cell 3 glider3 x y = false ∧ n = 3).
Proof.
  assert (buffers_ok (quiet {[1%positive := glider3; 2%positive := dead 9]})
            (DoubleBuffered false (Grid 3 3 2) (Grid 3 3 1))) as Hok.
  { split; [done|]. split; [done|]. split; [done|].
    split; [exists (dead 9)|exists glider3]; holds_here. }
  assert (holds (quiet {[1%positive := glider3; 2%positive := dead 9]})
            (Grid 3 3 1) glider3) as Hsrc by holds_here.
  exact (tick_advances_one_generation 3
           (quiet {[1%positive := glider3; 2%positive := dead 9]})
           (GameOfLife (DoubleBuffered false (Grid 3 3 2) (Grid 3 3 1))) glider3
           Hok Hsrc ltac:(simpl; lia) ltac:(simpl; lia)).
Defined.

(** One tick of the code on the glider of [glider3]. *)
Example tick_glider3 :
  match tick 3 (GameOfLife (DoubleBuffered false (Grid 3 3 2) (Grid 3 3 1)))
          (quiet {[1%positive := glider3; 2%positive := dead 9]}) with
  | Ok g' w' => (Some (front (buffer g')), heap w' !! data (front (buffer g')))
  | Fail _ => (None, None)
  end
  = (Some (Grid 3 3 2),
     Some [false; false; false;
           true; false; true;
           false; true; true]).
Proof. vm_compute. reflexivity. Qed.

(** ** render *)

Lemma shown_id w : shown w [] [] = w.
Proof. destruct w. unfold shown. simpl. by rewrite !app_nil_r. Qed.

Lemma log_read_shown r w0 sc rd : log_read r (shown w0 sc rd) = shown w0 sc (rd ++ [r]).
Proof. unfold log_read, shown. simpl. by rewrite app_assoc. Qed.

Lemma wp_curses c Q w0 sc rd :
  Q tt (shown w0 (sc ++ [c]) rd) → wp (curses c) Q (shown w0 sc rd).
Proof.
  intros HQ. exists tt, (shown w0 (sc ++ [c]) rd). split; [|done].
  unfold curses, shown. simpl. by rewrite app_assoc.
Qed.

Lemma row_calls_snoc W cells row n :
  0 ≤ n →
  row_calls W cells row (n + 1)
  = row_calls W cells row n
    ++ [Addstr (glyph (cell W cells n (2 * row)) (cell W cells n (2 * row + 1)))].
Proof.
  intros Hn. unfold row_calls. rewrite seqZ_app by lia. rewrite fmap_app.
  rewrite (seqZ_cons (0 + n)), (seqZ_nil (Z.succ (0 + n))) by lia.
  by rewrite Z.add_0_l.
Qed.

Lemma rows_calls_snoc W cells k :
  0 ≤ k →
  rows_calls W cells (k + 1) = rows_calls W cells k ++ row_calls W cells k W.
Proof.
  intros Hk. unfold rows_calls. rewrite seqZ_app by lia. rewrite fmap_app, concat_app.
  rewrite (seqZ_cons (0 + k)), (seqZ_nil (Z.succ (0 + k))) by lia.
  simpl. by rewrite app_nil_r, Z.add_0_l.
Qed.

Section drawing.
Context (gr : grid) (cells : list bool) (w0 : world).
Hypothesis Hgr : holds w0 gr cells.

Let W := width gr.
Let H := height gr.

Let inv_row (sc : list curses_call) (row x : Z) (w : world) : Prop :=
  ∃ rd, Forall (within (data gr) (W * H)) rd ∧
        w = shown w0 (sc ++ row_calls W cells row x) rd.

Let inv_rows (y : Z) (w : world) : Prop :=
  ∃ row rd, y = 2 * row ∧ 0 ≤ row ∧
            Forall (within (data gr) (W * H)) rd ∧
            w = shown w0 (rows_calls W cells row) rd.

Lemma render_row_run fuel sc row w :
  0 ≤ row → 2 * row + 1 < H → (Z.to_nat W ≤ fuel)%nat →
  inv_row sc row 0 w →
  wp (for_ne fuel 0 W 1 (λ x,
        top ← peek gr x (2 * row);
        bottom ← peek gr x (2 * row + 1);
        curses (Addstr (if (top : bool) then (if (bottom : bool) then full else upper)
                        else (if bottom then lower else " ")))))
     (λ _, inv_row sc row W) w.
Proof.
  intros Hrow Hrow' Hfuel Hinv.
  destruct Hgr as (HW & HH & _ & Hcells & Hlen). fold W H in HW, HH, Hlen.
  apply (wp_for_ne (inv_row sc row) _ 1 W ltac:(lia) (Z.to_nat W) fuel 0 w);
    [lia|done|done|].
  intros x w' Hx (rd & Hrd & ->).
  apply wp_bind. apply (wp_peek_logged gr cells); [done|done|guard_in_bounds|].
  rewrite log_read_shown.
  apply wp_bind. apply (wp_peek_logged gr cells); [done|done|guard_in_bounds|].
  rewrite log_read_shown.
  apply wp_curses. eexists. split; [|f_equal].
  - repeat (apply Forall_app; split); [done| |];
      apply Forall_singleton; split; simpl; try done; fold W H; nia.
  - rewrite <- app_assoc. f_equal. symmetry. apply row_calls_snoc. lia.
Qed.

Lemma render_rows_run fuel w :
  Z.rem H 2 = 0 →
  (Z.to_nat W ≤ fuel)%nat → (Z.to_nat (H `div` 2) ≤ fuel)%nat →
  inv_rows 0 w →
  wp (for_ne fuel 0 H 2 (λ y,
        curses (Move (Z.quot y 2) 0) ;;
        for_ne fuel 0 W 1 (λ x,
          top ← peek gr x y;
          bottom ← peek gr x (y + 1);
          curses (Addstr (if (top : bool) then (if (bottom : bool) then full else upper)
                          else (if bottom then lower else " "))))))
     (λ _, inv_rows H) w.
Proof.
  intros Heven HfW HfH Hinv.
  pose proof Hgr as (HW & HH & _ & Hcells & Hlen). fold W H in HW, HH, Hlen.
  rewrite Z.rem_mod_nonneg in Heven by lia.
  pose proof (Z.div_mod H 2 ltac:(lia)) as Hhalf. rewrite Heven in Hhalf.
  apply (wp_for_ne inv_rows _ 2 H ltac:(lia) (Z.to_nat (H `div` 2)) fuel 0 w);
    [lia|done|done|].
  intros y w' Hy (row & rd & -> & Hrow & Hrd & ->).
  replace (Z.quot (2 * row) 2) with row by (rewrite Z.mul_comm, Z.quot_mul; lia).
  apply wp_bind. apply wp_curses.
  eapply wp_mono; [|apply (render_row_run fuel (rows_calls W cells row) row); try lia].
  - intros [] w' (rd' & Hrd' & ->). exists (row + 1), rd'.
    split; [lia|]. split; [lia|]. split; [done|].
    by rewrite rows_calls_snoc.
  - exists rd. split; [done|]. unfold row_calls.
    by rewrite seqZ_nil.
Qed.

(** The run of the body of [render] on a grid of even height. *)
Lemma render_body_run fuel :
  Z.rem H 2 = 0 →
  (Z.to_nat W ≤ fuel)%nat → (Z.to_nat (H `div` 2) ≤ fuel)%nat →
  wp (for_ne fuel 0 H 2 (λ y,
        curses (Move (Z.quot y 2) 0) ;;
        for_ne fuel 0 W 1 (λ x,
          top ← peek gr x y;
          bottom ← peek gr x (y + 1);
          curses (Addstr (if (top : bool) then (if (bottom : bool) then full else upper)
                          else (if bottom then lower else " "))))) ;;
      curses Refresh)
     (λ _ w', ∃ rd, Forall (within (data gr) (W * H)) rd ∧
                    w' = shown w0 (render_calls W H cells) rd) w0.
Proof.
  intros Heven HfW HfH. apply wp_bind.
  eapply wp_mono; [|apply (render_rows_run fuel w0); try done].
  - intros [] w' (row & rd & Hrow & Hpos & Hrd & ->).
    apply wp_curses. exists rd. split; [done|].
    unfold render_calls. replace (H `div` 2) with row; [done|].
    rewrite Hrow, Z.mul_comm, Z.div_mul; lia.
  - exists 0, []. split; [done|]. split; [done|]. split; [constructor|].
    unfold rows_calls. rewrite seqZ_nil by lia. simpl. by rewrite shown_id.
Qed.
End drawing.

Lemma render_run fuel g w cells :
  holds w (front (buffer g)) cells →
  Z.rem (height (front (buffer g))) 2 = 0 →
  (Z.to_nat (width (front (buffer g))) ≤ fuel)%nat →
  (Z.to_nat (height (front (buffer g)) `div` 2) ≤ fuel)%nat →
  ∃ rd,
    Forall (within (data (front (buffer g)))
                   (width (front (buffer g)) * height (front (buffer g)))) rd ∧
    render fuel g w
    = Ok tt (shown w (render_calls (width (front (buffer g)))
                                   (height (front (buffer g))) cells) rd).
Proof.
  intros Hgr Heven HfW HfH.
  destruct (render_body_run _ _ _ Hgr fuel Heven HfW HfH)
    as ([] & w' & Hrun & rd & Hrd & ->).
  exists rd. split; [done|]. unfold render, mbind, M_bind, assert.
  rewrite Heven. simpl. exact Hrun.
Qed.

Lemma length_row_calls W cells row n :
  length (row_calls W cells row n) = S (Z.to_nat n).
Proof. unfold row_calls. simpl. by rewrite length_fmap, length_seqZ. Qed.

Lemma length_rows_calls W cells (k : nat) :
  length (rows_calls W cells (Z.of_nat k)) = (k * S (Z.to_nat W))%nat.
Proof.
  induction k as [|k IH].
  - unfold rows_calls. by rewrite seqZ_nil.
  - rewrite Nat2Z.inj_succ, <- Z.add_1_r, rows_calls_snoc by lia.
    rewrite length_app, IH, length_row_calls. lia.
Qed.

Lemma lookup_rows_calls W cells (k row j : nat) :
  (row < k)%nat → (j < S (Z.to_nat W))%nat →
  rows_calls W cells (Z.of_nat k) !! (row * S (Z.to_nat W) + j)%nat
  = row_calls W cells (Z.of_nat row) W !! j.
Proof.
  intros Hrow Hj. induction k as [|k IH]; [lia|].
  rewrite Nat2Z.inj_succ, <- Z.add_1_r, rows_calls_snoc by lia.
  destruct (decide (row = k)) as [->|Hne].
  - rewrite lookup_app_r by (rewrite length_rows_calls; lia).
    rewrite length_rows_calls. f_equal. lia.
  - rewrite lookup_app_l by (rewrite length_rows_calls; nia).
    apply IH. lia.
Qed.

Lemma lookup_row_calls W cells row n x :
  0 ≤ x < n →
  row_calls W cells row n !! S (Z.to_nat x)
  = Some (Addstr (glyph (cell W cells x (2 * row)) (cell W cells x (2 * row + 1)))).
Proof.
  intros Hx. unfold row_calls. simpl.
  rewrite list_lookup_fmap, lookup_seqZ_lt by lia. simpl.
  by rewrite Z2Nat.id, Z.add_0_l by lia.
Qed.

(** The calls of [render] seen as a display: character row [row] starts
    with a move to its first column and then has, for column [x], the glyph of
    the two cells (x, 2 row) and (x, 2 row + 1); one refresh ends the frame. *)
Lemma render_calls_display W H cells :
  0 ≤ W → 0 ≤ H →
  length (render_calls W H cells) = Z.to_nat (H `div` 2 * (W + 1) + 1) ∧
  render_calls W H cells !! Z.to_nat (H `div` 2 * (W + 1)) = Some Refresh ∧
  ∀ row, 0 ≤ row < H `div` 2 →
    render_calls W H cells !! Z.to_nat (row * (W + 1)) = Some (Move row 0) ∧
    ∀ x, 0 ≤ x < W →
      render_calls W H cells !! Z.to_nat (row * (W + 1) + 1 + x)
      = Some (Addstr (glyph (cell W cells x (2 * row)) (cell W cells x (2 * row + 1)))).
Proof.
  intros HW HH. unfold render_calls.
  assert (0 ≤ H `div` 2) as Hk by (apply Z.div_pos; lia).
  pose proof (length_rows_calls W cells (Z.to_nat (H `div` 2))) as Hlen.
  rewrite Z2Nat.id in Hlen by done.
  split; [|split].
  - rewrite length_app, Hlen. simpl. nia.
  - rewrite lookup_app_r by (rewrite Hlen; nia).
    replace (Z.to_nat (H `div` 2 * (W + 1)) - length (rows_calls W cells (H `div` 2)))%nat
      with 0%nat by (rewrite Hlen; nia).
    done.
  - intros row Hrow.
    pose proof (lookup_rows_calls W cells (Z.to_nat (H `div` 2)) (Z.to_nat row)) as Hlook.
    rewrite !Z2Nat.id in Hlook by lia.
    split.
    + rewrite lookup_app_l by (rewrite Hlen; nia).
      replace (Z.to_nat (row * (W + 1))) with (Z.to_nat row * S (Z.to_nat W) + 0)%nat by nia.
      rewrite Hlook by lia. done.
    + intros x Hx. rewrite lookup_app_l by (rewrite Hlen; nia).
      replace (Z.to_nat (row * (W + 1) + 1 + x))
        with (Z.to_nat row * S (Z.to_nat W) + S (Z.to_nat x))%nat by nia.
      rewrite Hlook by lia. by apply lookup_row_calls.
Qed.

Lemma even_rem H : 0 ≤ H → Z.even H = true → Z.rem H 2 = 0.
Proof.
  intros HH Heven. rewrite Z.rem_mod_nonneg by lia.
  rewrite Zmod_even. by rewrite Heven.
Qed.

Lemma odd_rem H : Z.odd H = true → Z.rem H 2 ≠ 0.
Proof.
  intros Hodd Hrem. pose proof (Z.quot_rem' H 2) as Heq.
  rewrite Hrem, Z.add_0_r in Heq. rewrite Heq, Z.odd_mul in Hodd. done.
Qed.

(** C7. On a front grid of even height [render] returns; it adds to the
    terminal, for each pair of grid rows (2 row, 2 row + 1), a move to the
    start of character row [row] and then one glyph per column, which is the
    space, the upper half block, the lower half block or the full block
    according to the two cells alone, and last a refresh: a display of
    height/2 rows of width glyphs. The heap, the writes and the random engine
    are as before, and the simulation object is not changed. *)
Theorem render_half_blocks fuel w g cells :
  holds w (front (buffer g)) cells →
  Z.even (height (front (buffer g))) = true →
  (Z.to_nat (width (front (buffer g))) ≤ fuel)%nat →
  (Z.to_nat (height (front (buffer g)) `div` 2) ≤ fuel)%nat →
  let W := width (front (buffer g)) in
  let H := height (front (buffer g)) in
  (glyph false false = " " ∧ glyph true false = "▀" ∧
   glyph false true = "▄" ∧ glyph true true = "█") ∧
  ∃ w' calls rd,
    render fuel g w = Ok tt w' ∧
    w' = shown w calls rd ∧
    heap w' = heap w ∧ writes w' = writes w ∧ drawn w' = drawn w ∧
    screen w' = screen w ++ calls ∧
    Forall (within (data (front (buffer g))) (W * H)) rd ∧
    length calls = Z.to_nat (H `div` 2 * (W + 1) + 1) ∧
    calls !! Z.to_nat (H `div` 2 * (W + 1)) = Some Refresh ∧
    ∀ row, 0 ≤ row < H `div` 2 →
      calls !! Z.to_nat (row * (W + 1)) = Some (Move row 0) ∧
      ∀ x, 0 ≤ x < W →
        calls !! Z.to_nat (row * (W + 1) + 1 + x)
        = Some (Addstr (glyph (cell W cells x (2 * row)) (cell W cells x (2 * row + 1)))).
Proof.
  intros Hgr Heven HfW HfH gw gh. split; [done|].
  pose proof Hgr as (HW & HH & _).
  destruct (render_run fuel g w cells Hgr (even_rem _ HH Heven) HfW HfH)
    as (rd & Hrd & Hrun).
  eexists _, (render_calls gw gh cells), rd. split; [exact Hrun|].
  do 5 (split; [done|]). split; [done|].
  by apply render_calls_display.
Qed.

(** C9. On a front grid of odd height [render] ends with the failure of its
    assertion, whatever the fuel and the world, and nothing is drawn; on a
    grid of even height neither that assertion nor the one of the accessor
    fails: [render] returns. *)
Theorem render_asserts_even_height fuel g w :
  (Z.odd (height (front (buffer g))) = true → render fuel g w = Fail AssertFailed) ∧
  (∀ cells,
     holds w (front (buffer g)) cells →
     Z.even (height (front (buffer g))) = true →
     (Z.to_nat (width (front (buffer g))) ≤ fuel)%nat →
     (Z.to_nat (height (front (buffer g)) `div` 2) ≤ fuel)%nat →
     render fuel g w ≠ Fail AssertFailed ∧ ∃ w', render fuel g w = Ok tt w').
Proof.
  split.
  - intros Hodd%odd_rem. unfold render, mbind, M_bind, assert.
    by destruct (Z.eqb_spec (Z.rem (height (front (buffer g))) 2) 0).
  - intros cells Hgr Heven HfW HfH. pose proof Hgr as (HW & HH & _).
    destruct (render_run fuel g w cells Hgr (even_rem _ HH Heven) HfW HfH)
      as (rd & Hrd & Hrun).
    rewrite Hrun. split; [done|]. by eexists.
Qed.

Lemma render_half_blocks_witness :
  ∃ w' calls rd,
    render 2 (GameOfLife (DoubleBuffered true (Grid 2 2 1) (Grid 2 2 2)))
      (quiet {[1%positive := [true; false; false; true]; 2%positive := dead 4]})
    = Ok tt w' ∧
    w' = shown (quiet {[1%positive := [true; false; false; true];
                        2%positive := dead 4]}) calls rd ∧
    calls !! 0%nat = Some (Move 0 0) ∧
    calls !! 1%nat = Some (Addstr "▀") ∧
    calls !! 2%nat = Some (Addstr "▄") ∧
    calls !! 3%nat = Some Refresh ∧
    length calls = 4%nat.
Proof.
  destruct (render_half_blocks 2
              (quiet {[1%positive := [true; false; false; true]; 2%positive := dead 4]})
              (GameOfLife (DoubleBuffered true (Grid 2 2 1) (Grid 2 2 2)))
              [true; false; false; true]
              ltac:(holds_here) eq_refl ltac:(by_computing) ltac:(by_computing))
    as (_ & w' & calls & rd & Hrun & Hw' & _ & _ & _ & _ & _ & Hlen & Hlast & Hrows).
  exists w', calls, rd. split; [exact Hrun|]. split; [exact Hw'|].
  destruct (Hrows 0 ltac:(by_computing)) as [Hmove Hglyphs].
  split; [exact Hmove|].
  split; [exact (Hglyphs 0 ltac:(by_computing))|].
  split; [exact (Hglyphs 1 ltac:(by_computing))|].
  split; [exact Hlast|exact Hlen].
Defined.

(** The render-packing example, drawn by the code itself. *)
Example render_two_by_two :
  match render 2 (GameOfLife (DoubleBuffered true (Grid 2 2 1) (Grid 2 2 2)))
          (quiet {[1%positive := [true; false; false; true]; 2%positive := dead 4]}) with
  | Ok _ w' => screen w'
  | Fail _ => []
  end
  = [Move 0 0; Addstr "▀"; Addstr "▄"; Refresh].
Proof. vm_compute. reflexivity. Qed.

Example render_dead_and_alive_pairs :
  match render 2 (GameOfLife (DoubleBuffered true (Grid 2 2 1) (Grid 2 2 2)))
          (quiet {[1%positive := [false; true; false; true]; 2%positive := dead 4]}) with
  | Ok _ w' => screen w'
  | Fail _ => []
  end
  = [Move 0 0; Addstr " "; Addstr "█"; Refresh].
Proof. vm_compute. reflexivity. Qed.

Lemma render_asserts_even_height_witness :
  render 0 (GameOfLife (DoubleBuffered true (Grid 2 3 1) (Grid 2 3 2)))
    (quiet {[1%positive := dead 6; 2%positive := dead 6]}) = Fail AssertFailed ∧
  (render 2 (GameOfLife (DoubleBuffered true (Grid 2 2 1) (Grid 2 2 2)))
     (quiet {[1%positive := dead 4; 2%positive := dead 4]}) ≠ Fail AssertFailed ∧
   ∃ w', render 2 (GameOfLife (DoubleBuffered true (Grid 2 2 1) (Grid 2 2 2)))
           (quiet {[1%positive := dead 4; 2%positive := dead 4]}) = Ok tt w').
Proof.
  split.
  - exact (proj1 (render_asserts_even_height 0
                    (GameOfLife (DoubleBuffered true (Grid 2 3 1) (Grid 2 3 2)))
                    (quiet {[1%positive := dead 6; 2%positive := dead 6]}))
                 eq_refl).
  - exact (proj2 (render_asserts_even_height 2
                    (GameOfLife (DoubleBuffered true (Grid 2 2 1) (Grid 2 2 2)))
                    (quiet {[1%positive := dead 4; 2%positive := dead 4]}))
                 (dead 4) ltac:(holds_here) eq_refl ltac:(by_computing) ltac:(by_computing)).
Defined.

(** ** The constructor *)

Lemma seeding_start w : seeding w (heap w) [] 0 = w.
Proof. destruct w. unfold seeding. simpl. by rewrite app_nil_r, Nat.add_0_r. Qed.

Lemma log_write_seeding r h' w0 h wr k :
  log_write r h' (seeding w0 h wr k) = seeding w0 h' (wr ++ [r]) k.
Proof. unfold log_write, seeding. simpl. by rewrite app_assoc. Qed.

Lemma uniform_int_distribution_seeding lo hi w0 h wr k :
  uniform_int_distribution lo hi (seeding w0 h wr k)
  = Ok (lo + (entropy w0 (drawn w0 + k)%nat - lo) `mod` (hi - lo + 1))
       (seeding w0 h wr (S k)).
Proof. unfold uniform_int_distribution, seeding. simpl. by rewrite Nat.add_succ_r. Qed.

Lemma variate_range w i : 0 ≤ variate w i ≤ frequency.
Proof.
  unfold variate, frequency.
  pose proof (Z.mod_pos_bound (entropy w (drawn w + Z.to_nat i)%nat - 0) (3 - 0 + 1)). lia.
Qed.

Lemma length_seeded_cells w n : length (seeded_cells w n) = Z.to_nat n.
Proof. unfold seeded_cells. by rewrite length_fmap, length_seqZ. Qed.

Lemma lookup_seeded_cells w n i :
  0 ≤ i < n → seeded_cells w n !! Z.to_nat i = Some (variate w i =? 0).
Proof.
  intros Hi. unfold seeded_cells.
  rewrite list_lookup_fmap, lookup_seqZ_lt by lia. simpl.
  by rewrite Z2Nat.id, Z.add_0_l by lia.
Qed.

Section seeding_loop.
Context (gr : grid) (old : list bool) (w0 : world) (h : gmap loc (list bool)).
Hypothesis Hpos : 0 ≤ width gr ∧ 0 ≤ height gr.
Hypothesis Hold : h !! data gr = Some old.
Hypothesis Hlen : Z.of_nat (length old) = width gr * height gr.

Let W := width gr.
Let H := height gr.
Let new := seeded_cells w0 (W * H).

Let inv (i : Z) (w : world) : Prop :=
  w = seeding w0
        (<[data gr := take (Z.to_nat i) new ++ drop (Z.to_nat i) old]> h)
        (sweep (data gr) i) (Z.to_nat i).

Lemma seeding_run fuel :
  (Z.to_nat (W * H) ≤ fuel)%nat →
  wp (for_ne fuel 0 (W * H) 1 (λ i,
        v ← uniform_int_distribution 0 frequency;
        r ← grid_at gr (Z.rem i W) (Z.quot i W);
        store r (v =? 0)))
     (λ _, inv (W * H)) (seeding w0 h [] 0).
Proof.
  intros Hfuel. destruct Hpos as [HW HH]. fold W H in HW, HH, Hlen.
  apply (wp_for_ne inv _ 1 (W * H) ltac:(lia) (Z.to_nat (W * H)) fuel 0); [nia|done| |].
  { unfold inv, sweep. simpl. change (Z.to_nat 0) with 0%nat.
    by rewrite drop_0, insert_id. }
  intros i w' Hi ->.
  assert (0 < W) as HWpos by nia.
  rewrite Z.rem_mod_nonneg, Z.quot_div_nonneg by lia.
  assert (0 ≤ i `mod` W < W) as Hx by (apply Z.mod_pos_bound; lia).
  assert (0 ≤ i `div` W < H) as Hy.
  { split; [apply Z.div_pos; lia|]. apply Z.div_lt_upper_bound; lia. }
  assert (i `mod` W + i `div` W * W = i) as Hidx
    by (rewrite (Z.div_mod i W) at 3; lia).
  apply wp_bind. eapply wp_run; [apply uniform_int_distribution_seeding|].
  fold (variate w0 i).
  replace (0 + (entropy w0 (drawn w0 + Z.to_nat i)%nat - 0) `mod` (frequency - 0 + 1))
    with (variate w0 i) by done.
  apply wp_bind. apply wp_grid_at; [fold W H; guard_in_bounds|].
  fold W. rewrite Hidx.
  eapply wp_store; simpl; [by rewrite lookup_insert_eq| |].
  - apply array_get_is_Some.
    rewrite length_app, length_take, length_drop. unfold new.
    rewrite length_seeded_cells. lia.
  - rewrite log_write_seeding. unfold inv. simpl. rewrite insert_insert_eq.
    replace (Z.to_nat (i + 1)) with (S (Z.to_nat i)) by lia.
    f_equal.
    + f_equal. apply overwrite_next; [|lia].
      by apply lookup_seeded_cells.
    + symmetry. apply sweep_snoc. lia.
Qed.
End seeding_loop.

Lemma allocated_seeding w l n :
  allocated w l n
  = seeding w (<[l := junk w l <$> seq 0 (Z.to_nat n)]> (heap w)) [] 0.
Proof. unfold allocated, seeding. simpl. by rewrite app_nil_r, Nat.add_0_r. Qed.

Lemma wp_int_mul x y Q w :
  INT_MIN ≤ x * y ≤ INT_MAX → Q (x * y) w → wp (int_mul x y) Q w.
Proof.
  intros Hrange HQ. unfold int_mul.
  replace ((INT_MIN <=? x * y) && (x * y <=? INT_MAX)) with true
    by (symmetry; rewrite andb_true_iff, !Z.leb_le; lia).
  by apply wp_ret.
Qed.

(** The run of the constructor in full. *)
Lemma game_of_life_new_run fuel W H w :
  0 ≤ W → 0 ≤ H → W * H ≤ INT_MAX →
  (Z.to_nat (W * H) ≤ fuel)%nat →
  let la := fresh (dom (heap w)) in
  let lb := fresh (dom (heap (allocated w la (W * H)))) in
  la ≠ lb ∧
  game_of_life_new fuel W H w
  = Ok (GameOfLife (DoubleBuffered false (Grid W H la) (Grid W H lb)))
       (seeding w
          (<[lb := seeded_cells w (W * H)]>
             (<[la := junk w la <$> seq 0 (Z.to_nat (W * H))]> (heap w)))
          (sweep lb (W * H)) (Z.to_nat (W * H))).
Proof.
  intros HW HH Hmax Hfuel la lb.
  assert (la ≠ lb) as Hne by (apply not_eq_sym, fresh_allocated).
  split; [done|].
  assert (0 ≤ W * H ≤ INT_MAX) as Hn by nia.
  set (w1 := allocated w la (W * H)).
  set (old := junk w1 lb <$> seq 0 (Z.to_nat (W * H))).
  assert (wp (game_of_life_new fuel W H)
            (λ g w', g = GameOfLife (DoubleBuffered false (Grid W H la) (Grid W H lb)) ∧
                     w' = seeding w1
                            (<[lb := seeded_cells w1 (W * H)]> (heap w1))
                            (sweep lb (W * H)) (Z.to_nat (W * H))) w)
    as (g & w' & Hrun & -> & ->).
  { unfold game_of_life_new, double_buffered_grid_new.
    apply wp_bind, wp_bind. eapply wp_run; [by apply grid_new_run|]. fold la w1.
    apply wp_bind. eapply wp_run; [by apply grid_new_run|]. fold lb.
    apply wp_ret. cbv zeta. apply wp_bind. apply wp_int_mul; [unfold INT_MIN; lia|].
    apply wp_bind. change (back (DoubleBuffered true (Grid W H la) (Grid W H lb)))
      with (Grid W H lb).
    rewrite (allocated_seeding w1 lb). fold old.
    eapply wp_mono;
      [|apply (seeding_run (Grid W H lb) old w1 (<[lb := old]> (heap w1))); simpl; try done].
    - intros [] w' ->. apply wp_ret. split; [done|]. simpl.
      rewrite insert_insert_eq, take_ge, drop_ge, app_nil_r
        by (unfold old; rewrite ?length_seeded_cells, ?length_fmap, ?length_seq; lia).
      done.
    - by rewrite lookup_insert_eq.
    - unfold old. rewrite length_fmap, length_seq. lia. }
  rewrite Hrun. f_equal.
Qed.

(** ** Counting the outcomes of the draws *)

Lemma how_many_app {A} (p : A → bool) l1 l2 :
  how_many p (l1 ++ l2) = (how_many p l1 + how_many p l2)%nat.
Proof. induction l1 as [|x l1 IH]; simpl; [done|]. rewrite IH. lia. Qed.

Lemma how_many_ext_in {A} (p q : A → bool) l :
  (∀ x, x ∈ l → p x = q x) → how_many p l = how_many q l.
Proof.
  induction l as [|x l IH]; intros Hpq; simpl; [done|].
  rewrite (Hpq x) by left. rewrite IH; [done|]. intros y Hy. apply Hpq. by right.
Qed.

Lemma how_many_const {A} (p : A → bool) (c : bool) l :
  (∀ x, x ∈ l → p x = c) → how_many p l = if c then length l else 0%nat.
Proof.
  induction l as [|x l IH]; intros Hp; simpl; [by destruct c|].
  rewrite (Hp x) by left. rewrite IH by (intros y Hy; apply Hp; by right).
  by destruct c.
Qed.

(** A test on sequences that splits into a test on the first value and one
    on the rest passes on as many sequences as the product tells. *)
Lemma how_many_draw_step (p : list Z → bool) (q : Z → bool) (r : list Z → bool) vals D :
  (∀ v vs, p (v :: vs) = q v && r vs) →
  how_many p (vals ≫= λ v, cons v <$> D) = (how_many q vals * how_many r D)%nat.
Proof.
  intros Hp. induction vals as [|v vals IH]; [done|].
  assert (how_many p (cons v <$> D) = if q v then how_many r D else 0%nat) as Hv.
  { clear IH. induction D as [|vs D IH]; [by destruct (q v)|].
    rewrite fmap_cons. cbn [how_many]. rewrite IH, Hp.
    destruct (q v), (r vs); simpl; lia. }
  rewrite bind_cons, how_many_app, IH, Hv. cbn [how_many].
  destruct (q v); lia.
Qed.

(** Of the values 0..hi, one is 0 and [hi] are not. *)
Lemma how_many_zero hi (c : bool) :
  0 ≤ hi →
  how_many (λ v, Bool.eqb (v =? 0) c) (seqZ 0 (hi + 1)) = if c then 1%nat else Z.to_nat hi.
Proof.
  intros Hhi. rewrite seqZ_cons by lia. simpl.
  rewrite (how_many_const _ (negb c)).
  - rewrite length_seqZ. destruct c; simpl; lia.
  - intros v Hv%elem_of_seqZ.
    destruct (Z.eqb_spec v 0); [lia|]. by destruct c.
Qed.

Lemma length_draws hi n :
  length (draws hi n) = (Z.to_nat (hi + 1) ^ n)%nat.
Proof.
  induction n as [|n IH]; [done|]. simpl draws.
  assert (∀ vals : list Z,
            length (vals ≫= λ v, cons v <$> draws hi n)
            = (length vals * length (draws hi n))%nat) as ->.
  { induction vals as [|v vals IHv]; [done|].
    rewrite bind_cons, length_app, length_fmap, IHv. simpl. lia. }
  rewrite length_seqZ, IH. simpl. lia.
Qed.

Lemma draws_spec hi n vs :
  vs ∈ draws hi n → length vs = n ∧ Forall (λ v, 0 ≤ v ≤ hi) vs.
Proof.
  revert vs. induction n as [|n IH]; intros vs; simpl.
  - intros ->%list_elem_of_singleton. done.
  - intros (v & (vs' & -> & Hvs')%list_elem_of_fmap & Hv)%list_elem_of_bind.
    destruct (IH _ Hvs') as [Hlen Hall].
    apply elem_of_seqZ in Hv.
    split; [simpl; by rewrite Hlen|]. constructor; [lia|done].
Qed.

(** The sequences of draws that seed a given grid: one value for each alive
    cell, [hi] values for each dead one. *)
Lemma how_many_seed hi cells :
  0 ≤ hi →
  how_many (λ vs, bool_decide ((λ v, v =? 0) <$> vs = cells)) (draws hi (length cells))
  = (Z.to_nat hi ^ how_many negb cells)%nat.
Proof.
  intros Hhi. induction cells as [|c cells IH]; [done|].
  simpl draws.
  rewrite (how_many_draw_step _ (λ v, Bool.eqb (v =? 0) c)
             (λ vs, bool_decide ((λ v, v =? 0) <$> vs = cells))).
  - rewrite how_many_zero, IH by done. destruct c; simpl; lia.
  - intros v vs. rewrite fmap_cons.
    destruct (v =? 0), c; simpl; try done;
      try (by rewrite bool_decide_eq_false_2 by congruence);
      apply bool_decide_ext; split; congruence.
Qed.

(** A given draw is 0 in one sequence of every [hi + 1]. *)
Lemma how_many_draw_zero hi n i :
  0 ≤ hi → (i < n)%nat →
  (how_many (λ vs, bool_decide (vs !! i = Some 0%Z)) (draws hi n) * Z.to_nat (hi + 1))%nat
  = length (draws hi n).
Proof.
  intros Hhi. revert i. induction n as [|n IH]; intros i Hi; [lia|].
  rewrite !length_draws in *. simpl draws. destruct i as [|i].
  - rewrite (how_many_draw_step _ (λ v, Bool.eqb (v =? 0) true) (λ _, true)).
    + rewrite how_many_zero by done.
      rewrite (how_many_const _ true) by done. rewrite length_draws. simpl. lia.
    + intros v vs. rewrite andb_true_r. change ((v :: vs) !! 0%nat) with (Some v).
      destruct (Z.eqb_spec v 0) as [->|Hv]; cbn [Bool.eqb].
      * by rewrite bool_decide_eq_true_2.
      * by rewrite bool_decide_eq_false_2 by congruence.
  - rewrite (how_many_draw_step _ (λ _, true) (λ vs, bool_decide (vs !! i = Some 0))).
    + rewrite (how_many_const _ true) by done. rewrite length_seqZ.
      specialize (IH i ltac:(lia)). simpl. nia.
    + done.
Qed.

(** ** The constructor on given draws *)

(** The library keeps its word: the value returned lies in the range, and a
    value of the oracle that lies in the range is returned as it is. *)
Lemma uniform_int_distribution_range a b w :
  a ≤ b →
  ∃ v w', uniform_int_distribution a b w = Ok v w' ∧
          a ≤ v ≤ b ∧
          (a ≤ entropy w (drawn w) ≤ b → v = entropy w (drawn w)) ∧
          drawn w' = S (drawn w) ∧ heap w' = heap w.
Proof.
  intros Hab. eexists _, _. split; [done|]. simpl.
  pose proof (Z.mod_pos_bound (entropy w (drawn w) - a) (b - a + 1)).
  split; [lia|]. split; [|done].
  intros Hin. rewrite Z.mod_small by lia. lia.
Qed.

Lemma seeded_cells_with_draws vs w n :
  length vs = Z.to_nat n → Forall (λ v, 0 ≤ v ≤ frequency) vs →
  seeded_cells (with_draws vs w) n = (λ v, v =? 0) <$> vs.
Proof.
  intros Hlen Hall. apply list_eq. intros i.
  destruct (decide (i < length vs)%nat) as [Hi|Hi].
  - destruct (lookup_lt_is_Some_2 vs i Hi) as [v Hv].
    rewrite <- (Nat2Z.id i) at 1. rewrite lookup_seeded_cells by lia.
    rewrite list_lookup_fmap, Hv. simpl. do 2 f_equal.
    unfold variate, with_draws. simpl. rewrite Nat2Z.id.
    destruct (decide (drawn w ≤ drawn w + i)%nat); [|lia].
    replace (drawn w + i - drawn w)%nat with i by lia. rewrite Hv. simpl.
    pose proof (proj1 (Forall_lookup _ _) Hall i v Hv) as Hrange. simpl in Hrange.
    unfold frequency in *. rewrite Z.mod_small by lia. lia.
  - rewrite !(proj2 (lookup_ge_None _ _)); [done| |].
    + rewrite length_fmap. lia.
    + rewrite length_seeded_cells. lia.
Qed.

(** When the draws return [vs], cell [i] of the front grid of the new
    simulation is alive exactly when the [i]-th of them is 0. *)
Lemma constructed_front_draws fuel W H w vs :
  0 ≤ W → 0 ≤ H → W * H ≤ INT_MAX →
  (Z.to_nat (W * H) ≤ fuel)%nat →
  length vs = Z.to_nat (W * H) → Forall (λ v, 0 ≤ v ≤ frequency) vs →
  constructed_front fuel W H (with_draws vs w) = Some ((λ v, v =? 0) <$> vs).
Proof.
  intros HW HH Hmax Hfuel Hlen Hall. unfold constructed_front.
  destruct (game_of_life_new_run fuel W H (with_draws vs w) HW HH Hmax Hfuel) as [_ ->].
  simpl. rewrite lookup_insert_eq. by rewrite seeded_cells_with_draws.
Qed.

(** C8. The constructor returns a simulation whose front grid is the seeded
    one: the buffers were swapped once after seeding. Every cell of the grid is
    seeded, each once, and one variate is drawn per cell: the cell filled at
    step [i] of the seeding loop, (i mod width, i / width), received its own
    variate, the [i]-th one that the distribution over 0..frequency, with
    frequency = 3, returned, and is alive exactly when that variate is 0.
    Over the draws of a uniform distribution, made independently, which is
    to say over the equally likely sequences of width * height values of
    0..frequency, the grid is distributed as follows. A given grid is seeded by
    frequency to the power of its number of dead cells among the
    frequency + 1 to the power of width * height sequences: the cells are
    independent, and each is alive with probability 1 / (frequency + 1). A
    given cell is alive for exactly one sequence in every frequency + 1: that
    is the density of alive cells. *)
Theorem constructor_seeds_front fuel W H w :
  0 ≤ W → 0 ≤ H → W * H ≤ INT_MAX →
  (Z.to_nat (W * H) ≤ fuel)%nat →
  (∃ g w' seeded,
    game_of_life_new fuel W H w = Ok g w' ∧
    first (buffer g) = false ∧
    front (buffer g) = b (buffer g) ∧
    width (front (buffer g)) = W ∧ height (front (buffer g)) = H ∧
    holds w' (front (buffer g)) seeded ∧
    buffers_ok w' (buffer g) ∧
    frequency = 3 ∧
    drawn w' = (drawn w + Z.to_nat (W * H))%nat ∧
    writes w' = writes w ++ sweep (data (front (buffer g))) (W * H) ∧
    reads w' = reads w ∧ screen w' = screen w ∧
    (∀ i, 0 ≤ i < W * H →
       let v := 0 + (entropy w (drawn w + Z.to_nat i)%nat - 0) `mod` (frequency - 0 + 1) in
       0 ≤ v ≤ frequency ∧
       (0 ≤ entropy w (drawn w + Z.to_nat i)%nat ≤ frequency →
        v = entropy w (drawn w + Z.to_nat i)%nat) ∧
       in_bounds W H (i `mod` W) (i `div` W) = true ∧
       cell W seeded (i `mod` W) (i `div` W) = (v =? 0)) ∧
    (∀ x y, in_bounds W H x y = true →
       cell W seeded x y
       = (0 + (entropy w (drawn w + Z.to_nat (x + y * W))%nat - 0)
              `mod` (frequency - 0 + 1) =? 0))) ∧
  let n := Z.to_nat (W * H) in
  (∀ vs, vs ∈ draws frequency n →
     constructed_front fuel W H (with_draws vs w) = Some ((λ v, v =? 0) <$> vs)) ∧
  length (draws frequency n) = (Z.to_nat (frequency + 1) ^ n)%nat ∧
  (∀ cells, length cells = n →
     how_many (λ vs, bool_decide (constructed_front fuel W H (with_draws vs w) = Some cells))
              (draws frequency n)
     = (Z.to_nat frequency ^ how_many negb cells)%nat) ∧
  (∀ x y, in_bounds W H x y = true →
     (how_many (λ vs, constructed_alive fuel W H (with_draws vs w) x y) (draws frequency n)
      * Z.to_nat (frequency + 1))%nat
     = length (draws frequency n)).
Proof.
  intros HW HH Hmax Hfuel.
  assert (∀ vs, vs ∈ draws frequency (Z.to_nat (W * H)) →
            constructed_front fuel W H (with_draws vs w) = Some ((λ v, v =? 0) <$> vs))
    as Hfront.
  { intros vs [Hlen Hall]%draws_spec. by apply constructed_front_draws. }
  split; [|split; [exact Hfront|split; [apply length_draws|split]]].
  - destruct (game_of_life_new_run fuel W H w HW HH Hmax Hfuel) as [Hne Hrun].
    set (la := fresh (dom (heap w))) in *.
    set (lb := fresh (dom (heap (allocated w la (W * H))))) in *.
    assert (∀ x y, in_bounds W H x y = true →
              cell W (seeded_cells w (W * H)) x y = (variate w (x + y * W) =? 0)) as Hcell.
    { intros x y [Hx Hy]%in_bounds_spec. pose proof (index_range _ _ _ _ Hx Hy) as Hi.
      unfold cell, array_get. destruct (Z.leb_spec 0 (x + y * W)); [|lia].
      by rewrite lookup_seeded_cells. }
    eexists _, _, (seeded_cells w (W * H)). split; [exact Hrun|]. simpl.
    do 4 (split; [done|]). split; [|split].
    + do 3 (split; [done|]). simpl. split; [by rewrite lookup_insert_eq|].
      rewrite length_seeded_cells. lia.
    + split; [done|]. split; [done|]. split; [done|]. split.
      * exists (junk w la <$> seq 0 (Z.to_nat (W * H))).
        do 3 (split; [done|]). simpl. split.
        -- rewrite lookup_insert_ne by done. by rewrite lookup_insert_eq.
        -- rewrite length_fmap, length_seq. lia.
      * exists (seeded_cells w (W * H)).
        do 3 (split; [done|]). simpl. split; [by rewrite lookup_insert_eq|].
        rewrite length_seeded_cells. lia.
    + do 5 (split; [done|]). split; [|exact Hcell].
      intros i Hi. assert (0 < W) as HWpos by nia.
      assert (0 ≤ i `mod` W < W) as Hx by (apply Z.mod_pos_bound; lia).
      assert (0 ≤ i `div` W < H) as Hy.
      { split; [apply Z.div_pos; lia|]. apply Z.div_lt_upper_bound; lia. }
      split; [apply (variate_range w i)|]. split.
      { intros Hin. unfold frequency in *. rewrite Z.mod_small by lia. lia. }
      split; [by apply in_bounds_spec|].
      rewrite Hcell by (by apply in_bounds_spec).
      replace (i `mod` W + i `div` W * W) with i
        by (rewrite (Z.div_mod i W) at 1; lia).
      done.
  - intros cells Hcells.
    rewrite (how_many_ext_in _ (λ vs, bool_decide ((λ v, v =? 0) <$> vs = cells))).
    + rewrite <- Hcells. by apply how_many_seed.
    + intros vs Hvs. rewrite (Hfront vs Hvs).
      apply bool_decide_ext. split; congruence.
  - intros x y [Hx Hy]%in_bounds_spec. pose proof (index_range _ _ _ _ Hx Hy) as Hi.
    rewrite (how_many_ext_in _ (λ vs, bool_decide (vs !! Z.to_nat (x + y * W) = Some 0))).
    + apply how_many_draw_zero; [done|lia].
    + intros vs Hvs. unfold constructed_alive. rewrite (Hfront vs Hvs).
      unfold cell, array_get. destruct (Z.leb_spec 0 (x + y * W)); [|lia].
      rewrite list_lookup_fmap.
      destruct (vs !! Z.to_nat (x + y * W)) as [v|];
        cbn [fmap option_fmap option_map default].
      * destruct (Z.eqb_spec v 0) as [->|Hv].
        -- by rewrite bool_decide_eq_true_2.
        -- by rewrite bool_decide_eq_false_2 by congruence.
      * by rewrite bool_decide_eq_false_2.
Qed.

Lemma constructor_seeds_front_witness :
  (∃ g w' seeded,
    game_of_life_new 4 2 2 (World ∅ [] [] [] 0 (λ _ _, true) Z.of_nat) = Ok g w' ∧
    front (buffer g) = b (buffer g) ∧
    holds w' (front (buffer g)) seeded ∧
    drawn w' = 4%nat ∧
    seeded = [true; false; false; false]) ∧
  length (draws 3 4) = 256%nat ∧
  how_many (λ vs, bool_decide
                    (constructed_front 4 2 2
                       (with_draws vs (World ∅ [] [] [] 0 (λ _ _, true) Z.of_nat))
                     = Some [true; false; false; true]))
           (draws 3 4) = 9%nat ∧
  (how_many (λ vs, constructed_alive 4 2 2
                     (with_draws vs (World ∅ [] [] [] 0 (λ _ _, true) Z.of_nat)) 1 1)
            (draws 3 4) * 4)%nat = 256%nat.
Proof.
  destruct (constructor_seeds_front 4 2 2 (World ∅ [] [] [] 0 (λ _ _, true) Z.of_nat)
              ltac:(lia) ltac:(lia) ltac:(by_computing) ltac:(by_computing))
    as [(g & w' & seeded & Hrun & _ & Hfront & Hw & Hh & Hseeded & _ & _ & Hdrawn & _ & _
         & _ & _ & Hcells) (_ & Hall & Hlaw & Hdensity)].
  split; [|split; [exact Hall|split]].
  - exists g, w', seeded. do 4 (split; [done|]).
    destruct Hseeded as (_ & _ & _ & _ & Hlen). rewrite Hw, Hh in Hlen.
    apply (cells_ext 2 2); [lia|done|done|].
    intros x y Hx Hy. rewrite Hcells by (apply in_bounds_spec; lia).
    assert (x = 0 ∨ x = 1) as [-> | ->] by lia;
      (assert (y = 0 ∨ y = 1) as [-> | ->] by lia); reflexivity.
  - exact (Hlaw [true; false; false; true] eq_refl).
  - exact (Hdensity 1 1 eq_refl).
Defined.

(** The constructor run by the code itself, when the variates drawn are
    0, 1, 2, 3, 0, 1: the back array is seeded and becomes the front. *)
Example game_of_life_new_counting :
  match game_of_life_new 6 3 2
          (World ∅ [] [] [] 0 (λ _ _, true) (λ k, Z.of_nat k `mod` 4)) with
  | Ok g w' => (Some (front (buffer g)), heap w' !! data (front (buffer g)), drawn w')
  | Fail _ => (None, None, 0%nat)
  end
  = (Some (Grid 3 2 2), Some [true; false; false; false; true; false], 6%nat).
Proof. vm_compute. reflexivity. Qed.

(** The constructor run by the code itself on each of the 256 sequences of
    four draws: 9 of them seed the grid whose alive cells are (0, 0) and
    (1, 1), and 64 of them, one in four, leave the cell (1, 0) alive. *)
Example game_of_life_new_every_draw :
  how_many (λ vs, bool_decide (constructed_front 4 2 2 (with_draws vs (quiet ∅))
                               = Some [true; false; false; true]))
           (draws 3 4) = 9%nat ∧
  how_many (λ vs, constructed_alive 4 2 2 (with_draws vs (quiet ∅)) 1 0) (draws 3 4)
  = 64%nat.
Proof. vm_compute. done. Qed.

(** Two negative dimensions pass the allocation, and the first access fails
    the assertion of the accessor. *)
Example game_of_life_new_negative :
  game_of_life_new 6 (-2) (-3) (quiet ∅) = Fail AssertFailed.
Proof. vm_compute. reflexivity. Qed.

(** * Further properties of the code *)

(** ** The accessor and the layout of a grid *)

Lemma grid_at_Ok g x y w r w' :
  grid_at g x y w = Ok r w' →
  in_bounds (width g) (height g) x y = true ∧ r = (data g, x + y * width g) ∧ w' = w.
Proof.
  unfold grid_at, mbind, M_bind, assert. fold (in_bounds (width g) (height g) x y).
  destruct (in_bounds (width g) (height g) x y); [|done].
  intros [= <- <-]. done.
Qed.

Lemma grid_at_in g x y w :
  in_bounds (width g) (height g) x y = true →
  grid_at g x y w = Ok (data g, x + y * width g) w.
Proof.
  intros Hin. unfold grid_at, mbind, M_bind, assert.
  fold (in_bounds (width g) (height g) x y). by rewrite Hin.
Qed.

Lemma grid_at_out g x y w :
  in_bounds (width g) (height g) x y = false → grid_at g x y w = Fail AssertFailed.
Proof.
  intros Hout. unfold grid_at, mbind, M_bind, assert.
  fold (in_bounds (width g) (height g) x y). by rewrite Hout.
Qed.

Lemma index_injective W H x y x' y' :
  0 ≤ x < W → 0 ≤ y < H → 0 ≤ x' < W → 0 ≤ y' < H →
  x + y * W = x' + y' * W → x = x' ∧ y = y'.
Proof. intros Hx Hy Hx' Hy' Heq. assert (y = y') by nia. subst. lia. Qed.

(** X1. The accessor fails its assertion exactly off the grid, and on the grid
    it changes nothing and returns a reference into the array of the grid;
    two positions of the grid get the same reference only when they are the
    same position. *)
Theorem grid_at_row_major g x y x' y' w w' :
  in_bounds (width g) (height g) x y = true →
  (∃ r, grid_at g x y w = Ok r w ∧ within (data g) (width g * height g) r ∧
        (in_bounds (width g) (height g) x' y' = false →
         grid_at g x' y' w' = Fail AssertFailed) ∧
        (in_bounds (width g) (height g) x' y' = true →
         ∃ r', grid_at g x' y' w' = Ok r' w' ∧ (r' = r ↔ x' = x ∧ y' = y))).
Proof.
  intros Hin. exists (data g, x + y * width g).
  pose proof Hin as [Hx Hy]%in_bounds_spec.
  split; [by apply grid_at_in|]. split.
  { split; simpl; [done|]. by apply index_range. }
  split; [apply grid_at_out|].
  intros Hin'. pose proof Hin' as [Hx' Hy']%in_bounds_spec.
  exists (data g, x' + y' * width g). split; [by apply grid_at_in|]. split.
  - intros [= Heq]. by apply (index_injective (width g) (height g)).
  - by intros [-> ->].
Qed.

Lemma grid_at_row_major_witness :
  ∃ r, grid_at (Grid 3 2 1) 2 1 (quiet ∅) = Ok r (quiet ∅) ∧
       within 1%positive 6 r ∧
       (in_bounds 3 2 0 2 = false →
        grid_at (Grid 3 2 1) 0 2 (quiet ∅) = Fail AssertFailed) ∧
       (in_bounds 3 2 0 2 = true →
        ∃ r', grid_at (Grid 3 2 1) 0 2 (quiet ∅) = Ok r' (quiet ∅) ∧
              (r' = r ↔ 0 = 2 ∧ 2 = 1)).
Proof.
  exact (grid_at_row_major (Grid 3 2 1) 2 1 0 2 (quiet ∅) (quiet ∅) eq_refl).
Defined.

Lemma cell_insert_eq W H cells x y v :
  Z.of_nat (length cells) = W * H → 0 ≤ x < W → 0 ≤ y < H →
  cell W (<[Z.to_nat (x + y * W) := v]> cells) x y = v.
Proof.
  intros Hlen Hx Hy. pose proof (index_range _ _ _ _ Hx Hy) as Hi.
  unfold cell, array_get. destruct (Z.leb_spec 0 (x + y * W)); [|lia].
  by rewrite list_lookup_insert_eq by lia.
Qed.

Lemma cell_insert_ne W H cells x y x' y' v :
  0 ≤ x < W → 0 ≤ y < H → 0 ≤ x' < W → 0 ≤ y' < H →
  (x', y') ≠ (x, y) →
  cell W (<[Z.to_nat (x + y * W) := v]> cells) x' y' = cell W cells x' y'.
Proof.
  intros Hx Hy Hx' Hy' Hne.
  pose proof (index_range _ _ _ _ Hx Hy) as Hi.
  pose proof (index_range _ _ _ _ Hx' Hy') as Hi'.
  unfold cell, array_get. destruct (Z.leb_spec 0 (x' + y' * W)); [|lia].
  rewrite list_lookup_insert_ne; [done|]. intros Heq.
  destruct (index_injective W H x y x' y') as [-> ->]; try done. lia.
Qed.

(** X2. Writing a cell through the accessor and reading it back: the cell
    read is the value written, every other cell of the grid and every other
    array is as before; off the grid the assignment fails the assertion. *)
Theorem assign_then_peek g cells x y v w :
  holds w g cells →
  (in_bounds (width g) (height g) x y = false → assign g x y v w = Fail AssertFailed) ∧
  (in_bounds (width g) (height g) x y = true →
   ∃ w' cells' w'',
     assign g x y v w = Ok tt w' ∧
     holds w' g cells' ∧
     peek g x y w' = Ok v w'' ∧
     cell (width g) cells' x y = v ∧
     (∀ x' y', in_bounds (width g) (height g) x' y' = true → (x', y') ≠ (x, y) →
               cell (width g) cells' x' y' = cell (width g) cells x' y') ∧
     (∀ l, l ≠ data g → heap w' !! l = heap w !! l)).
Proof.
  intros (HW & HH & Hmax & Hcells & Hlen). split.
  { intros Hout. unfold assign, mbind, M_bind. by rewrite grid_at_out. }
  intros Hin. pose proof Hin as [Hx Hy]%in_bounds_spec.
  pose proof (index_range _ _ _ _ Hx Hy) as Hi.
  destruct (array_get_is_Some cells (x + y * width g)) as [old Hold]; [lia|].
  set (cells' := <[Z.to_nat (x + y * width g) := v]> cells).
  set (w' := log_write (data g, x + y * width g) (<[data g := cells']> (heap w)) w).
  assert (Z.of_nat (length cells') = width g * height g) as Hlen'
    by (unfold cells'; by rewrite length_insert).
  assert (cell (width g) cells' x y = v) as Hv by (by eapply cell_insert_eq).
  assert (heap w' !! data g = Some cells') as Hcells'
    by (simpl; by rewrite lookup_insert_eq).
  exists w', cells', (log_read (data g, x + y * width g) w').
  split; [|split; [|split; [|split; [|split]]]].
  - unfold assign, mbind, M_bind. rewrite grid_at_in by done.
    unfold store. simpl. by rewrite Hcells, Hold.
  - done.
  - unfold peek, mbind, M_bind. rewrite grid_at_in by done.
    unfold load. cbn [fst snd]. rewrite Hcells'.
    unfold cell in Hv. destruct (array_get cells' (x + y * width g)) as [b0|] eqn:Hget.
    + simpl in Hv. by subst.
    + exfalso. destruct (array_get_is_Some cells' (x + y * width g)); [lia|congruence].
  - done.
  - intros x' y' [Hx' Hy']%in_bounds_spec Hne.
    by apply (cell_insert_ne (width g) (height g)).
  - intros l Hl. simpl. by rewrite lookup_insert_ne.
Qed.

Lemma assign_then_peek_witness :
  ∃ w' cells' w'',
    assign (Grid 3 3 1) 0 0 true (quiet {[1%positive := glider3]}) = Ok tt w' ∧
    holds w' (Grid 3 3 1) cells' ∧
    peek (Grid 3 3 1) 0 0 w' = Ok true w'' ∧
    cell 3 cells' 0 0 = true ∧
    (∀ x' y', in_bounds 3 3 x' y' = true → (x', y') ≠ (0, 0) →
              cell 3 cells' x' y' = cell 3 glider3 x' y').
Proof.
  destruct (proj2 (assign_then_peek (Grid 3 3 1) glider3 0 0 true
                     (quiet {[1%positive := glider3]}) ltac:(holds_here)) eq_refl)
    as (w' & cells' & w'' & Hrun & Hholds & Hpeek & Hv & Hothers & _).
  exists w', cells', w''. do 4 (split; [done|]). done.
Defined.

(** ** Edge behaviour of [next_generation] *)

(** X4. Grids of different dimensions fail the assertion, whatever the fuel and
    whatever the heap holds. *)
Theorem next_generation_mismatch fuel inp out w :
  width inp ≠ width out ∨ height inp ≠ height out →
  next_generation fuel inp out w = Fail AssertFailed.
Proof.
  intros Hne. unfold next_generation, mbind, M_bind, assert.
  replace ((width inp =? width out) && (height inp =? height out)) with false; [done|].
  symmetry. rewrite andb_false_iff, !Z.eqb_neq. done.
Qed.

Lemma next_generation_mismatch_witness :
  next_generation 9 (Grid 3 3 1) (Grid 3 2 2)
    (quiet {[1%positive := glider3; 2%positive := dead 6]}) = Fail AssertFailed.
Proof.
  apply (next_generation_mismatch 9 (Grid 3 3 1) (Grid 3 2 2)). right. simpl. lia.
Defined.

(** X5. On grids without cells, of height 0 or of width 0, the sweep returns
    without a single access: the world is unchanged, and the arrays need not
    even exist. *)
Theorem next_generation_empty fuel inp out w :
  width inp = width out → height inp = height out →
  height inp = 0 ∨ (width inp = 0 ∧ 0 ≤ height inp ≤ Z.of_nat fuel) →
  next_generation fuel inp out w = Ok tt w.
Proof.
  intros Hw Hh Hempty.
  assert (wp (next_generation fuel inp out) (λ _ w', w' = w) w)
    as ([] & w' & Hrun & ->); [|done].
  unfold next_generation. apply wp_bind.
  apply wp_assert; [by rewrite Hw, Hh, !Z.eqb_refl|].
  destruct Hempty as [Hzero|[Hzero Hfuel]].
  - rewrite Hzero.
    apply (wp_for_ne (λ _ w', w' = w) _ 1 0 ltac:(lia) 0 fuel 0 w); [done|lia|done|].
    intros j w' Hj. lia.
  - apply (wp_for_ne (λ _ w', w' = w) _ 1 (height inp) ltac:(lia)
             (Z.to_nat (height inp)) fuel 0 w); [lia|lia|done|].
    intros y w' Hy ->. rewrite Hzero.
    apply (wp_for_ne (λ _ w', w' = w) _ 1 0 ltac:(lia) 0 fuel 0 w); [done|lia|done|].
    intros j w' Hj. lia.
Qed.

Lemma next_generation_empty_witness :
  next_generation 5 (Grid 0 5 1) (Grid 0 5 2) (quiet ∅) = Ok tt (quiet ∅).
Proof.
  apply (next_generation_empty 5 (Grid 0 5 1) (Grid 0 5 2) (quiet ∅)); simpl;
    [done|done|right; lia].
Defined.

(** ** Patterns under the rule *)

Ltac split_cmp :=
  repeat match goal with
         | |- context [Z.eqb ?m ?n] =>
             lazymatch m with context [one_if _] => fail | _ => idtac end;
             destruct (Z.eqb_spec m n); try lia
         | |- context [Z.leb ?m ?n] => destruct (Z.leb_spec m n); try lia
         | |- context [Z.ltb ?m ?n] => destruct (Z.ltb_spec m n); try lia
         end.

(** A source that shows [pattern] on the grid, where [pattern] is dead off
    the grid, is swept to the pattern that the rule gives cell by cell. *)
Lemma next_generation_pattern (pattern next : Z → Z → bool) fuel w inp out src old :
  holds w inp src → holds w out old →
  width inp = width out → height inp = height out →
  data inp ≠ data out →
  (Z.to_nat (width inp) ≤ fuel)%nat → (Z.to_nat (height inp) ≤ fuel)%nat →
  (∀ x y, in_bounds (width inp) (height inp) x y = true →
          cell (width inp) src x y = pattern x y) →
  (∀ x y, in_bounds (width inp) (height inp) x y = false → pattern x y = false) →
  (∀ x y, in_bounds (width inp) (height inp) x y = true →
          life_rule (pattern x y) (around pattern x y) = next x y) →
  ∃ w',
    next_generation fuel inp out w = Ok tt w' ∧
    holds w' out (next_cells (width inp) (height inp) src) ∧
    ∀ x y, in_bounds (width inp) (height inp) x y = true →
           cell (width inp) (next_cells (width inp) (height inp) src) x y = next x y.
Proof.
  intros Hsrc Hold Hw Hh Hne HfW HfH Hon Hoff Hrule.
  destruct (next_generation_holds fuel w inp out src old) as (w' & Hrun & Hnew);
    try done.
  exists w'. split; [done|]. split; [done|].
  intros x y Hin. pose proof Hin as [Hx Hy]%in_bounds_spec.
  rewrite cell_next_cells, alive_neighbours_unfold by done.
  rewrite !(alive_pattern _ _ src pattern Hon Hoff), Hon by done.
  by apply Hrule.
Qed.

(** X6. A grid without alive cells stays without alive cells. *)
Theorem dead_grid_stays_dead fuel w inp out src old :
  holds w inp src → holds w out old →
  width inp = width out → height inp = height out →
  data inp ≠ data out →
  (Z.to_nat (width inp) ≤ fuel)%nat → (Z.to_nat (height inp) ≤ fuel)%nat →
  (∀ x y, in_bounds (width inp) (height inp) x y = true →
          cell (width inp) src x y = false) →
  ∃ w' new,
    next_generation fuel inp out w = Ok tt w' ∧
    holds w' out new ∧
    ∀ x y, in_bounds (width out) (height out) x y = true →
           cell (width out) new x y = false.
Proof.
  intros Hsrc Hold Hw Hh Hne HfW HfH Hdead.
  destruct (next_generation_pattern (λ _ _, false) (λ _ _, false)
              fuel w inp out src old) as (w' & Hrun & Hnew & Hcells); try done.
  exists w', (next_cells (width inp) (height inp) src).
  split; [done|]. split; [done|]. rewrite <- Hw, <- Hh. exact Hcells.
Qed.

Lemma dead_grid_stays_dead_witness :
  ∃ w' new,
    next_generation 3 (Grid 3 3 1) (Grid 3 3 2)
      (quiet {[1%positive := dead 9; 2%positive := glider3]}) = Ok tt w' ∧
    holds w' (Grid 3 3 2) new ∧
    ∀ x y, in_bounds 3 3 x y = true → cell 3 new x y = false.
Proof.
  apply (dead_grid_stays_dead 3
           (quiet {[1%positive := dead 9; 2%positive := glider3]})
           (Grid 3 3 1) (Grid 3 3 2) (dead 9) glider3);
    try holds_here; simpl; try (done || lia).
  intros x y Hin. on_grid x y Hin; try reflexivity; lia.
Defined.

(** X7. The still life: a block of four alive cells anywhere on an otherwise
    dead grid is swept to itself; the destination array is equal to the
    source array. *)
Theorem block_is_still fuel w inp out src old x0 y0 :
  holds w inp src → holds w out old →
  width inp = width out → height inp = height out →
  data inp ≠ data out →
  (Z.to_nat (width inp) ≤ fuel)%nat → (Z.to_nat (height inp) ≤ fuel)%nat →
  0 ≤ x0 → x0 + 1 < width inp → 0 ≤ y0 → y0 + 1 < height inp →
  (∀ x y, in_bounds (width inp) (height inp) x y = true →
          cell (width inp) src x y = block x0 y0 x y) →
  ∃ w', next_generation fuel inp out w = Ok tt w' ∧ holds w' out src.
Proof.
  intros Hsrc Hold Hw Hh Hne HfW HfH Hx0 Hx1 Hy0 Hy1 Hblock.
  destruct (next_generation_pattern (block x0 y0) (block x0 y0)
              fuel w inp out src old) as (w' & Hrun & Hnew & Hcells); try done.
  - intros x y Hout. apply not_true_is_false. intros Hon.
    assert (in_bounds (width inp) (height inp) x y = true); [|congruence].
    apply in_bounds_spec. revert Hon. unfold block.
    rewrite !andb_true_iff, !Z.leb_le. lia.
  - intros x y _. unfold around, block. split_cmp; reflexivity.
  - exists w'. split; [done|].
    assert (next_cells (width inp) (height inp) src = src) as Heq;
      [|by rewrite Heq in Hnew].
    destruct Hsrc as (HW & HH & _ & _ & Hlen).
    apply (cells_ext (width inp) (height inp)); [lia| |done|].
    + rewrite length_next_cells. lia.
    + intros x y Hx Hy. rewrite Hcells, Hblock by (apply in_bounds_spec; lia). done.
Qed.

Lemma block_is_still_witness :
  ∃ w',
    next_generation 2 (Grid 2 2 1) (Grid 2 2 2)
      (quiet {[1%positive := [true; true; true; true]; 2%positive := dead 4]})
    = Ok tt w' ∧
    holds w' (Grid 2 2 2) [true; true; true; true].
Proof.
  apply (block_is_still 2
           (quiet {[1%positive := [true; true; true; true]; 2%positive := dead 4]})
           (Grid 2 2 1) (Grid 2 2 2) [true; true; true; true] (dead 4) 0 0);
    try holds_here; simpl; try (done || lia).
  intros x y [Hx Hy]%in_bounds_spec. simpl in Hx, Hy.
  assert (x = 0 ∨ x = 1) as [-> | ->] by lia;
    (assert (y = 0 ∨ y = 1) as [-> | ->] by lia); reflexivity.
Defined.

(** X8. Edges do not wrap: on a grid of at least 2 by 2 whose cells are all
    alive, exactly the four corners, which have three neighbours, survive. *)
Theorem full_grid_keeps_corners fuel w inp out src old :
  holds w inp src → holds w out old →
  width inp = width out → height inp = height out →
  data inp ≠ data out →
  (Z.to_nat (width inp) ≤ fuel)%nat → (Z.to_nat (height inp) ≤ fuel)%nat →
  2 ≤ width inp → 2 ≤ height inp →
  (∀ x y, in_bounds (width inp) (height inp) x y = true →
          cell (width inp) src x y = true) →
  ∃ w' new,
    next_generation fuel inp out w = Ok tt w' ∧
    holds w' out new ∧
    ∀ x y, in_bounds (width out) (height out) x y = true →
           cell (width out) new x y = corner (width out) (height out) x y.
Proof.
  intros Hsrc Hold Hw Hh Hne HfW HfH HW HH Hfull.
  destruct (next_generation_pattern (in_bounds (width inp) (height inp))
              (corner (width inp) (height inp)) fuel w inp out src old)
    as (w' & Hrun & Hnew & Hcells); try done.
  - intros x y Hin. by rewrite Hfull, Hin.
  - intros x y [Hx Hy]%in_bounds_spec. unfold around, in_bounds, corner.
    split_cmp; reflexivity.
  - exists w', (next_cells (width inp) (height inp) src).
    split; [done|]. split; [done|]. rewrite <- Hw, <- Hh. exact Hcells.
Qed.

Lemma full_grid_keeps_corners_witness :
  ∃ w' new,
    next_generation 3 (Grid 3 3 1) (Grid 3 3 2)
      (quiet {[1%positive := replicate 9 true; 2%positive := dead 9]}) = Ok tt w' ∧
    holds w' (Grid 3 3 2) new ∧
    ∀ x y, in_bounds 3 3 x y = true → cell 3 new x y = corner 3 3 x y.
Proof.
  apply (full_grid_keeps_corners 3
           (quiet {[1%positive := replicate 9 true; 2%positive := dead 9]})
           (Grid 3 3 1) (Grid 3 3 2) (replicate 9 true) (dead 9));
    try holds_here; simpl; try (done || lia).
  intros x y [Hx Hy]%in_bounds_spec. simpl in Hx, Hy.
  assert (x = 0 ∨ x = 1 ∨ x = 2) as [-> | [-> | ->]] by lia;
    (assert (y = 0 ∨ y = 1 ∨ y = 2) as [-> | [-> | ->]] by lia); reflexivity.
Defined.

(** ** The display determines the grid *)

Lemma glyph_injective top bottom top' bottom' :
  glyph top bottom = glyph top' bottom' → top = top' ∧ bottom = bottom'.
Proof. destruct top, bottom, top', bottom'; done. Qed.

Lemma render_calls_injective W H c1 c2 :
  0 ≤ W → 0 ≤ H → Z.even H = true →
  Z.of_nat (length c1) = W * H → Z.of_nat (length c2) = W * H →
  render_calls W H c1 = render_calls W H c2 → c1 = c2.
Proof.
  intros HW HH Heven Hl1 Hl2 Hcalls.
  destruct (decide (W = 0)) as [->|HW0].
  { destruct c1, c2; simpl in *; (done || lia). }
  pose proof (Zmod_even H) as Hmod. rewrite Heven in Hmod.
  pose proof (Z.div_mod H 2 ltac:(lia)) as Hhalf. rewrite Hmod in Hhalf.
  destruct (render_calls_display W H c1 HW HH) as (_ & _ & Hrows1).
  destruct (render_calls_display W H c2 HW HH) as (_ & _ & Hrows2).
  apply (cells_ext W H); [lia|done|done|].
  intros x y Hx Hy.
  pose proof (Z.div_mod y 2 ltac:(lia)) as Hy2.
  pose proof (Z.mod_pos_bound y 2 ltac:(lia)) as Hbit.
  assert (0 ≤ y `div` 2 < H `div` 2) as Hrow by lia.
  destruct (Hrows1 _ Hrow) as [_ Hg1], (Hrows2 _ Hrow) as [_ Hg2].
  specialize (Hg1 x Hx). specialize (Hg2 x Hx).
  rewrite Hcalls, Hg2 in Hg1. injection Hg1 as Hglyph.
  apply glyph_injective in Hglyph as [Htop Hbottom].
  assert (y = 2 * (y `div` 2) ∨ y = 2 * (y `div` 2) + 1) as [Hy'|Hy'] by lia;
    rewrite Hy'; done.
Qed.

(** X9. Packing two rows into one character row loses nothing: two grids of
    the same even height are drawn by the same calls only when they hold the
    same cells. *)
Theorem render_shows_every_cell fuel g w1 w2 c1 c2 :
  holds w1 (front (buffer g)) c1 → holds w2 (front (buffer g)) c2 →
  Z.even (height (front (buffer g))) = true →
  (Z.to_nat (width (front (buffer g))) ≤ fuel)%nat →
  (Z.to_nat (height (front (buffer g)) `div` 2) ≤ fuel)%nat →
  ∃ calls1 calls2 rd1 rd2,
    render fuel g w1 = Ok tt (shown w1 calls1 rd1) ∧
    render fuel g w2 = Ok tt (shown w2 calls2 rd2) ∧
    (calls1 = calls2 ↔ c1 = c2).
Proof.
  intros H1 H2 Heven HfW HfH.
  pose proof H1 as (HW & HH & _ & _ & Hl1). pose proof H2 as (_ & _ & _ & _ & Hl2).
  destruct (render_run fuel g w1 c1 H1 (even_rem _ HH Heven) HfW HfH)
    as (rd1 & _ & Hrun1).
  destruct (render_run fuel g w2 c2 H2 (even_rem _ HH Heven) HfW HfH)
    as (rd2 & _ & Hrun2).
  eexists _, _, rd1, rd2. split; [exact Hrun1|]. split; [exact Hrun2|]. split.
  - by apply render_calls_injective.
  - by intros ->.
Qed.

Lemma render_shows_every_cell_witness :
  ∃ calls1 calls2 rd1 rd2,
    render 2 (GameOfLife (DoubleBuffered true (Grid 2 2 1) (Grid 2 2 2)))
      (quiet {[1%positive := [true; false; false; true]]})
    = Ok tt (shown (quiet {[1%positive := [true; false; false; true]]}) calls1 rd1) ∧
    render 2 (GameOfLife (DoubleBuffered true (Grid 2 2 1) (Grid 2 2 2)))
      (quiet {[1%positive := dead 4]})
    = Ok tt (shown (quiet {[1%positive := dead 4]}) calls2 rd2) ∧
    (calls1 = calls2 ↔ [true; false; false; true] = dead 4).
Proof.
  exact (render_shows_every_cell 2
           (GameOfLife (DoubleBuffered true (Grid 2 2 1) (Grid 2 2 2)))
           (quiet {[1%positive := [true; false; false; true]]})
           (quiet {[1%positive := dead 4]})
           [true; false; false; true] (dead 4)
           ltac:(holds_here) ltac:(holds_here) eq_refl
           ltac:(by_computing) ltac:(by_computing)).
Defined.

(** ** Ownership of the arrays *)

Ltac map_solve :=
  simpl; apply map_eq; intros ?;
  repeat (rewrite lookup_insert || rewrite lookup_delete);
  repeat case_decide; subst; congruence.

Lemma owns_buffers_ok h0 w g : owns h0 w g → buffers_ok w (buffer g).
Proof.
  intros (ca & cb & Hheap & Ha & Hb & Hne & Hw & Hh & HW & HH & Hmax & Hla & Hlb).
  split; [done|]. split; [done|]. split; [done|]. split.
  - exists ca. do 3 (split; [done|]). split; [|done].
    rewrite Hheap. by rewrite lookup_insert_eq.
  - exists cb. unfold holds. rewrite <- Hw, <- Hh. do 3 (split; [done|]). split; [|done].
    rewrite Hheap. rewrite lookup_insert_ne by done. by rewrite lookup_insert_eq.
Qed.

Lemma owns_heap h0 w w' g : heap w' = heap w → owns h0 w g → owns h0 w' g.
Proof. intros Heq (ca & cb & Hheap & Hrest). exists ca, cb. by rewrite Heq. Qed.

Lemma owns_front h0 w g : owns h0 w g → ∃ src, holds w (front (buffer g)) src.
Proof.
  intros Hown%owns_buffers_ok.
  by destruct (proj1 (buffers_front_back _ _) Hown) as (_ & _ & _ & Hfront & _).
Qed.

Lemma holds_agree w g c1 c2 : holds w g c1 → holds w g c2 → c1 = c2.
Proof. intros (_ & _ & _ & H1 & _) (_ & _ & _ & H2 & _). congruence. Qed.

Lemma front_dimensions h0 w g :
  owns h0 w g →
  width (front (buffer g)) = width (a (buffer g)) ∧
  height (front (buffer g)) = height (a (buffer g)).
Proof.
  intros (ca & cb & _ & _ & _ & _ & Hw & Hh & _). unfold front.
  destruct (first (buffer g)); [done|]. by rewrite Hw, Hh.
Qed.

(** Overwriting the back array and swapping keeps the ownership. *)
Lemma owns_overwrite_back h0 w w' g new :
  owns h0 w g →
  heap w' = <[data (back (buffer g)) := new]> (heap w) →
  Z.of_nat (length new) = width (a (buffer g)) * height (a (buffer g)) →
  owns h0 w' (GameOfLife (swap (buffer g))).
Proof.
  intros (ca & cb & Hheap & Ha & Hb & Hne & Hw & Hh & HW & HH & Hmax & Hla & Hlb)
    Hheap' Hnew.
  unfold back in Hheap'. simpl. destruct (first (buffer g)).
  - exists ca, new. simpl. repeat (split; [try done|]); [|done].
    rewrite Hheap', Hheap. map_solve.
  - exists new, cb. simpl. repeat (split; [try done|]); [|done].
    rewrite Hheap', Hheap. map_solve.
Qed.

Lemma delete_array_run l w cells :
  heap w !! l = Some cells →
  delete_array l w = Ok tt (with_heap (delete l (heap w)) w).
Proof. intros Hl. unfold delete_array. by rewrite Hl. Qed.

(** The destructor frees exactly the two arrays of the simulation. *)
Lemma game_of_life_delete_run h0 w g :
  owns h0 w g → game_of_life_delete g w = Ok tt (with_heap h0 w).
Proof.
  intros (ca & cb & Hheap & Ha & Hb & Hne & _).
  unfold game_of_life_delete, double_buffered_grid_delete, grid_delete, mbind, M_bind.
  rewrite (delete_array_run _ w cb)
    by (rewrite Hheap, lookup_insert_ne by done; by rewrite lookup_insert_eq).
  rewrite (delete_array_run _ _ ca)
    by (simpl; rewrite lookup_delete_ne by done; rewrite Hheap;
        by rewrite lookup_insert_eq).
  unfold with_heap. simpl. do 2 f_equal. rewrite Hheap. map_solve.
Qed.

Lemma fresh_pair w n :
  let la := fresh (dom (heap w)) in
  let lb := fresh (dom (heap (allocated w la n))) in
  heap w !! la = None ∧ heap w !! lb = None ∧ la ≠ lb.
Proof.
  intros la lb.
  assert (heap w !! la = None) as Ha by apply not_elem_of_dom, is_fresh.
  assert (heap (allocated w la n) !! lb = None) as Hb
    by apply not_elem_of_dom, is_fresh.
  simpl in Hb. rewrite lookup_insert in Hb. case_decide; [done|]. done.
Qed.

(** The constructor returns a simulation that owns two new arrays, beside
    the heap it started from. *)
Lemma game_of_life_new_owns fuel W H w :
  0 ≤ W → 0 ≤ H → W * H ≤ INT_MAX →
  (Z.to_nat (W * H) ≤ fuel)%nat →
  ∃ g h,
    game_of_life_new fuel W H w
    = Ok g (seeding w h (sweep (data (b (buffer g))) (W * H)) (Z.to_nat (W * H))) ∧
    (∀ w', heap w' = h → owns (heap w) w' g) ∧
    first (buffer g) = false ∧
    width (a (buffer g)) = W ∧ height (a (buffer g)) = H ∧
    h !! data (b (buffer g)) = Some (seeded_cells w (W * H)).
Proof.
  intros HW HH Hmax Hfuel.
  destruct (game_of_life_new_run fuel W H w HW HH Hmax Hfuel) as [Hne Hrun].
  destruct (fresh_pair w (W * H)) as (Ha & Hb & _).
  set (la := fresh (dom (heap w))) in *.
  set (lb := fresh (dom (heap (allocated w la (W * H))))) in *.
  eexists _, _. split; [exact Hrun|]. simpl.
  split; [|by rewrite lookup_insert_eq].
  intros w' Hw'. exists (junk w la <$> seq 0 (Z.to_nat (W * H))), (seeded_cells w (W * H)).
  simpl. rewrite length_fmap, length_seq, length_seeded_cells.
  repeat (split; [try done; try lia|]); [|lia].
  rewrite Hw'. map_solve.
Qed.

(** One tick of a simulation that owns its arrays. *)
Lemma tick_run fuel h0 w g src :
  owns h0 w g →
  holds w (front (buffer g)) src →
  (Z.to_nat (width (a (buffer g))) ≤ fuel)%nat →
  (Z.to_nat (height (a (buffer g))) ≤ fuel)%nat →
  ∃ rd w',
    tick fuel g w = Ok (GameOfLife (swap (buffer g))) w' ∧
    w' = touched w
           (<[data (back (buffer g)) :=
                next_cells (width (a (buffer g))) (height (a (buffer g))) src]> (heap w))
           rd (sweep (data (back (buffer g)))
                     (width (a (buffer g)) * height (a (buffer g)))) ∧
    owns h0 w' (GameOfLife (swap (buffer g))) ∧
    holds w' (back (buffer g))
      (next_cells (width (a (buffer g))) (height (a (buffer g))) src).
Proof.
  intros Hown Hsrc HfW HfH.
  destruct (front_dimensions _ _ _ Hown) as [HWf HHf].
  destruct (proj1 (buffers_front_back _ _) (owns_buffers_ok _ _ _ Hown))
    as (Hne & Hw & Hh & _ & [old Hold]).
  destruct (next_generation_run _ _ src old w Hw Hh Hne Hsrc Hold fuel)
    as (rd & Hrd & Hrun); [by rewrite HWf|by rewrite HHf|].
  rewrite HWf, HHf in Hrun.
  eexists rd, _. split; [unfold tick, mbind, M_bind; by rewrite Hrun|].
  split; [done|].
  assert (Z.of_nat (length (next_cells (width (a (buffer g))) (height (a (buffer g))) src))
          = width (a (buffer g)) * height (a (buffer g))) as Hlen.
  { rewrite length_next_cells. destruct Hsrc as (? & ? & _). rewrite HWf, HHf in *. nia. }
  split.
  - by eapply (owns_overwrite_back h0 w _ g _ Hown).
  - destruct Hold as (? & ? & ? & _ & _). do 3 (split; [done|]). simpl.
    split; [by rewrite lookup_insert_eq|]. by rewrite <- Hw, <- Hh, HWf, HHf.
Qed.

(** X10. Constructing a simulation and destroying it gives the heap back as it
    was; destroying it a second time is undefined behaviour. *)
Theorem game_of_life_new_delete fuel W H w :
  0 ≤ W → 0 ≤ H → W * H ≤ INT_MAX →
  (Z.to_nat (W * H) ≤ fuel)%nat →
  ∃ g w1,
    game_of_life_new fuel W H w = Ok g w1 ∧
    data (a (buffer g)) ≠ data (b (buffer g)) ∧
    heap w !! data (a (buffer g)) = None ∧ heap w !! data (b (buffer g)) = None ∧
    is_Some (heap w1 !! data (a (buffer g))) ∧ is_Some (heap w1 !! data (b (buffer g))) ∧
    game_of_life_delete g w1 = Ok tt (with_heap (heap w) w1) ∧
    game_of_life_delete g (with_heap (heap w) w1) = Fail Undefined.
Proof.
  intros HW HH Hmax Hfuel.
  destruct (game_of_life_new_owns fuel W H w HW HH Hmax Hfuel)
    as (g & h & Hrun & Hown & _).
  eexists g, _. split; [exact Hrun|].
  specialize (Hown (seeding w h (sweep (data (b (buffer g))) (W * H))
                      (Z.to_nat (W * H))) eq_refl).
  pose proof Hown as (ca & cb & Hheap & Ha & Hb & Hne & _).
  do 3 (split; [done|]). split; [|split; [|split]].
  - rewrite Hheap. rewrite lookup_insert_eq. by eexists.
  - rewrite Hheap. rewrite lookup_insert_ne, lookup_insert_eq by done. by eexists.
  - by apply game_of_life_delete_run.
  - unfold game_of_life_delete, double_buffered_grid_delete, grid_delete, mbind, M_bind.
    unfold delete_array. simpl. by rewrite Hb.
Qed.

Lemma game_of_life_new_delete_witness :
  ∃ g w1,
    game_of_life_new 4 2 2 (quiet {[1%positive := glider3]}) = Ok g w1 ∧
    data (a (buffer g)) ≠ data (b (buffer g)) ∧
    game_of_life_delete g w1 = Ok tt (with_heap {[1%positive := glider3]} w1) ∧
    game_of_life_delete g (with_heap {[1%positive := glider3]} w1) = Fail Undefined.
Proof.
  destruct (game_of_life_new_delete 4 2 2 (quiet {[1%positive := glider3]})
              ltac:(lia) ltac:(lia) ltac:(by_computing) ltac:(by_computing))
    as (g & w1 & Hrun & Hne & _ & _ & _ & _ & Hdel & Hagain).
  exists g, w1. split; [exact Hrun|]. split; [exact Hne|].
  split; [exact Hdel|exact Hagain].
Defined.

(** ** The keys of [main] *)

Lemma speed_range s : speed_ok s → 16 ≤ tick_ms s ≤ 1024.
Proof.
  intros [(k & Hk & ->) _].
  assert (k = 4 ∨ k = 5 ∨ k = 6 ∨ k = 7 ∨ k = 8 ∨ k = 9 ∨ k = 10) as Hcases by lia.
  destruct Hcases as [->|[->|[->|[->|[->|[->| ->]]]]]]; simpl; lia.
Qed.

Lemma decrease_speed_run key s w :
  INT_MIN ≤ tick_ms s * 2 ≤ INT_MAX →
  decrease_speed key s w = Ok (slower key s) w.
Proof.
  intros Hrange. unfold decrease_speed, slower.
  destruct ((key =? char "-") && (tick_ms s <? max_tick_ms)); [|done].
  unfold mbind, M_bind, int_mul.
  by replace ((INT_MIN <=? tick_ms s * 2) && (tick_ms s * 2 <=? INT_MAX)) with true
    by (symmetry; rewrite andb_true_iff, !Z.leb_le; lia).
Qed.

Lemma increase_speed_run key s w : increase_speed key s w = Ok (faster key s) w.
Proof.
  unfold increase_speed, faster.
  by destruct ((key =? char "+") && (tick_ms s >? min_tick_ms)).
Qed.

Lemma slower_speed_ok key s : speed_ok s → speed_ok (slower key s).
Proof.
  intros Hok. unfold slower.
  destruct (key =? char "-"); [|done]. simpl.
  destruct (Z.ltb_spec (tick_ms s) max_tick_ms) as [Hlt|]; [|done].
  destruct Hok as [(k & Hk & Hpow) _]. split; simpl; [|by rewrite last_snoc].
  exists (k + 1). rewrite Hpow in Hlt |- *. unfold max_tick_ms in Hlt.
  assert (k = 4 ∨ k = 5 ∨ k = 6 ∨ k = 7 ∨ k = 8 ∨ k = 9 ∨ k = 10) as Hcases by lia.
  destruct Hcases as [->|[->|[->|[->|[->|[->| ->]]]]]]; simpl in *; lia.
Qed.

Lemma faster_speed_ok key s : speed_ok s → speed_ok (faster key s).
Proof.
  intros Hok. unfold faster.
  destruct (key =? char "+"); [|done]. simpl.
  destruct (Z.gtb_spec (tick_ms s) min_tick_ms) as [Hgt|]; [|done].
  destruct Hok as [(k & Hk & Hpow) _]. split; simpl; [|by rewrite last_snoc].
  exists (k - 1). rewrite Hpow in Hgt |- *. unfold min_tick_ms in Hgt.
  assert (k = 4 ∨ k = 5 ∨ k = 6 ∨ k = 7 ∨ k = 8 ∨ k = 9 ∨ k = 10) as Hcases by lia.
  destruct Hcases as [->|[->|[->|[->|[->|[->| ->]]]]]]; simpl in *;
    (split; [lia|reflexivity]) || lia.
Qed.

Lemma play_pause_speed_ok key s : speed_ok s → speed_ok (play_pause key s).
Proof. intros Hok. unfold play_pause. by destruct ((key =? char "p") || (key =? char " ")). Qed.

Lemma keyed_speed_ok key s : speed_ok s → speed_ok (keyed key s).
Proof. intros Hok. by apply play_pause_speed_ok, faster_speed_ok, slower_speed_ok. Qed.

(** The keys change neither the simulation nor the recorded size. *)
Lemma keyed_frame key s :
  game (keyed key s) = game s ∧
  main_width (keyed key s) = main_width s ∧
  main_height (keyed key s) = main_height s.
Proof.
  unfold keyed, play_pause, faster, slower.
  destruct ((key =? char "-") && (tick_ms s <? max_tick_ms)); simpl;
    match goal with
    | |- context [(key =? char "+") && ?c] => destruct ((key =? char "+") && c)
    end; simpl;
    by destruct ((key =? char "p") || (key =? char " ")).
Qed.

Lemma control_of_resize : control_of KEY_RESIZE = Continue.
Proof. reflexivity. Qed.

(** Outside the resize branch, a pass of the loop is the three key tests,
    then the step of the simulation, then the test of the quit key. *)
Lemma main_iteration_keyed fuel e s w :
  key e ≠ KEY_RESIZE →
  INT_MIN ≤ tick_ms s * 2 ≤ INT_MAX →
  main_iteration fuel e s w
  = match step_game fuel (key e) (keyed (key e) s) w with
    | Ok s' w' => Ok (s', control_of (key e)) w'
    | Fail f => Fail f
    end.
Proof.
  intros Hkey Hrange. unfold main_iteration.
  destruct (Z.eqb_spec (key e) KEY_RESIZE); [done|].
  unfold mbind at 1. unfold M_bind at 1. rewrite decrease_speed_run by done.
  unfold mbind at 1. unfold M_bind at 1. rewrite increase_speed_run.
  unfold mbind at 1. unfold M_bind at 1. fold (keyed (key e) s).
  destruct (step_game fuel (key e) (keyed (key e) s) w); [|done].
  unfold control_of. by destruct (key e =? char "q").
Qed.

Lemma step_game_idle fuel key s w :
  running s || (key =? char "s") = false → step_game fuel key s w = Ok s w.
Proof. intros Hidle. unfold step_game. by rewrite Hidle. Qed.

Lemma render_owned fuel h0 w g cells :
  owns h0 w g →
  holds w (front (buffer g)) cells →
  Z.rem (height (a (buffer g))) 2 = 0 →
  (Z.to_nat (width (a (buffer g))) ≤ fuel)%nat →
  (Z.to_nat (height (a (buffer g)) `div` 2) ≤ fuel)%nat →
  ∃ rd,
    render fuel g w
    = Ok tt (shown w (render_calls (width (a (buffer g))) (height (a (buffer g))) cells) rd) ∧
    owns h0 (shown w (render_calls (width (a (buffer g))) (height (a (buffer g))) cells) rd) g.
Proof.
  intros Hown Hcells Heven HfW HfH.
  destruct (front_dimensions _ _ _ Hown) as [HWf HHf].
  destruct (render_run fuel g w cells Hcells) as (rd & _ & Hrun);
    [by rewrite HHf|by rewrite HWf|by rewrite HHf|].
  rewrite HWf, HHf in Hrun. exists rd. split; [done|].
  by apply (owns_heap h0 w).
Qed.

(** The step of the simulation, when it is taken: one tick, then one frame
    of the new front grid. *)
Lemma step_game_ticks fuel h0 key s w src :
  running s || (key =? char "s") = true →
  owns h0 w (game s) →
  holds w (front (buffer (game s))) src →
  Z.rem (height (a (buffer (game s)))) 2 = 0 →
  (Z.to_nat (width (a (buffer (game s)))) ≤ fuel)%nat →
  (Z.to_nat (height (a (buffer (game s)))) ≤ fuel)%nat →
  let W := width (a (buffer (game s))) in
  let H := height (a (buffer (game s))) in
  let g' := GameOfLife (swap (buffer (game s))) in
  ∃ rd rd' w',
    step_game fuel key s w = Ok (with_game g' s) w' ∧
    w' = shown (touched w (<[data (back (buffer (game s))) := next_cells W H src]> (heap w))
                  rd (sweep (data (back (buffer (game s)))) (W * H)))
           (render_calls W H (next_cells W H src)) rd' ∧
    owns h0 w' g' ∧
    holds w' (front (buffer g')) (next_cells W H src).
Proof.
  intros Hstep Hown Hsrc Heven HfW HfH gw gh g'.
  destruct (tick_run fuel h0 w (game s) src Hown Hsrc HfW HfH)
    as (rd & w1 & Htick & Hw1 & Hown1 & Hnew).
  assert (holds w1 (front (buffer g')) (next_cells gw gh src)) as Hfront
    by (unfold g'; simpl; by rewrite front_swap).
  destruct (render_owned fuel h0 w1 g' _ Hown1 Hfront) as (rd' & Hrender & Hown2);
    try done.
  { simpl. assert (0 ≤ height (a (buffer (game s)))) by (by destruct Hown as (? & ? & ? & ? & ? & ? & ? & ? & ? & ? & _)).
    pose proof (Z.div_le_upper_bound (height (a (buffer (game s)))) 2
                  (height (a (buffer (game s)))) ltac:(lia) ltac:(lia)). lia. }
  simpl in Hrender, Hown2. fold gw gh in Hrender, Hown2.
  eexists rd, rd', _. split.
  { unfold step_game. rewrite Hstep. unfold mbind, M_bind. rewrite Htick.
    fold g'. by rewrite Hrender. }
  split; [by rewrite Hw1|]. split; [done|].
  destruct Hfront as (? & ? & ? & Hl & ?). do 3 (split; [done|]). by split.
Qed.

(** ** Building and replacing the simulation *)

(** When a new simulation was built beside an old one, the old one still owns
    its arrays, and once they are freed the new one owns its own. *)
Lemma owns_replace h0 w w1 g0 g :
  owns h0 w g0 → owns (heap w) w1 g →
  ∃ h1,
    owns h1 w1 g0 ∧
    (∀ w2, heap w2 = h1 → owns h0 w2 g) ∧
    h1 !! data (a (buffer g)) = heap w1 !! data (a (buffer g)) ∧
    h1 !! data (b (buffer g)) = heap w1 !! data (b (buffer g)).
Proof.
  intros (ca0 & cb0 & Hheap0 & Ha0 & Hb0 & Hne0 & Hdims0)
         (ca & cb & Hheap & Ha & Hb & Hne & Hdims).
  assert (data (a (buffer g)) ≠ data (a (buffer g0)) ∧
          data (a (buffer g)) ≠ data (b (buffer g0)) ∧
          h0 !! data (a (buffer g)) = None) as (Haa & Hab & Ha').
  { rewrite Hheap0, !lookup_insert in Ha. by repeat case_decide. }
  assert (data (b (buffer g)) ≠ data (a (buffer g0)) ∧
          data (b (buffer g)) ≠ data (b (buffer g0)) ∧
          h0 !! data (b (buffer g)) = None) as (Hba & Hbb & Hb').
  { rewrite Hheap0, !lookup_insert in Hb. by repeat case_decide. }
  exists (<[data (a (buffer g)) := ca]> (<[data (b (buffer g)) := cb]> h0)).
  split; [|split; [|split]].
  - exists ca0, cb0. split; [rewrite Hheap, Hheap0; map_solve|].
    split; [by rewrite !lookup_insert_ne|]. split; [by rewrite !lookup_insert_ne|]. done.
  - intros w2 Hw2. exists ca, cb. by rewrite Hw2.
  - rewrite Hheap. by rewrite !lookup_insert_eq.
  - rewrite Hheap. rewrite !(lookup_insert_ne _ (data (a (buffer g)))) by done.
    by rewrite !lookup_insert_eq.
Qed.

Lemma fits_fuel fuel rows cols :
  fits fuel rows cols →
  0 ≤ cols ∧ 0 ≤ rows * 2 ∧ cols * (rows * 2) ≤ INT_MAX ∧
  INT_MIN ≤ rows * 2 ≤ INT_MAX ∧
  (Z.to_nat (cols * (rows * 2)) ≤ fuel)%nat ∧
  (Z.to_nat cols ≤ fuel)%nat ∧ (Z.to_nat (rows * 2) ≤ fuel)%nat ∧
  (Z.to_nat ((rows * 2) `div` 2) ≤ fuel)%nat ∧
  Z.rem (rows * 2) 2 = 0.
Proof.
  intros (Hr & Hc & Hr2 & Hmax & Hfr & Hfc & Hfn). unfold INT_MIN.
  rewrite Z.div_mul, Z.rem_mul by lia. repeat split; lia.
Qed.

(** The simulation built for a terminal of [rows] rows and [cols] columns. *)
Lemma game_of_life_new_fits fuel rows cols w :
  fits fuel rows cols →
  ∃ g w1,
    game_of_life_new fuel cols (rows * 2) w = Ok g w1 ∧
    owns (heap w) w1 g ∧
    first (buffer g) = false ∧
    width (a (buffer g)) = cols ∧ height (a (buffer g)) = rows * 2 ∧
    heap w1 !! data (b (buffer g)) = Some (seeded_cells w (cols * (rows * 2))) ∧
    screen w1 = screen w ∧
    drawn w1 = (drawn w + Z.to_nat (cols * (rows * 2)))%nat.
Proof.
  intros (Hc & Hr & Hmax & _ & Hfuel & _)%fits_fuel.
  destruct (game_of_life_new_owns fuel cols (rows * 2) w Hc Hr Hmax Hfuel)
    as (g & h & Hrun & Hown & Hfirst & Hw & Hh & Hseeded).
  eexists g, _. split; [exact Hrun|]. split; [by apply Hown|]. done.
Qed.

Lemma holds_front_seeded h0 w g cells :
  owns h0 w g → first (buffer g) = false →
  heap w !! data (b (buffer g)) = Some cells →
  holds w (front (buffer g)) cells.
Proof.
  intros Hown Hfirst Hcells.
  destruct (owns_front _ _ _ Hown) as [src Hsrc].
  replace cells with src; [done|].
  destruct Hsrc as (_ & _ & _ & Hsrc & _). unfold front in Hsrc.
  rewrite Hfirst in Hsrc. congruence.
Qed.

Lemma resize_run fuel h0 e s w :
  owns h0 w (game s) →
  fits fuel (rows e) (cols e) →
  let n := cols e * (rows e * 2) in
  ∃ g w',
    resize fuel e s w
    = Ok (MainState (console s) (cols e) (rows e) (tick_ms s) (running s) g) w' ∧
    first (buffer g) = false ∧
    width (a (buffer g)) = cols e ∧ height (a (buffer g)) = rows e * 2 ∧
    owns h0 w' g ∧
    holds w' (front (buffer g)) (seeded_cells w n) ∧
    screen w' = screen w ++ render_calls (cols e) (rows e * 2) (seeded_cells w n) ∧
    drawn w' = (drawn w + Z.to_nat n)%nat.
Proof.
  intros Hown Hfits n.
  destruct (game_of_life_new_fits fuel (rows e) (cols e) w Hfits)
    as (g & w1 & Hnew & Hown1 & Hfirst & Hw & Hh & Hseeded & Hscreen & Hdrawn).
  destruct (owns_replace h0 w w1 (game s) g Hown Hown1)
    as (h1 & Hold & Hnewown & _ & Hb).
  pose proof (game_of_life_delete_run h1 w1 (game s) Hold) as Hdel.
  specialize (Hnewown (with_heap h1 w1) eq_refl).
  assert (holds (with_heap h1 w1) (front (buffer g)) (seeded_cells w n)) as Hfront.
  { apply (holds_front_seeded h0); [done|done|]. simpl. by rewrite Hb. }
  apply fits_fuel in Hfits as (Hc & Hr & Hmax & Hr2 & _ & HfW & HfH & Hfhalf & Heven).
  destruct (render_owned fuel h0 _ g _ Hnewown Hfront) as (rd & Hrender & Hown2);
    [by rewrite Hh|by rewrite Hw|by rewrite Hh|].
  rewrite Hw, Hh in Hrender, Hown2.
  assert (wp (resize fuel e s)
            (λ s' w', s' = MainState (console s) (cols e) (rows e) (tick_ms s) (running s) g ∧
                      w' = shown (with_heap h1 w1)
                             (render_calls (cols e) (rows e * 2) (seeded_cells w n)) rd) w)
    as (s' & w' & Hrun & -> & ->).
  { unfold resize. cbv zeta. apply wp_bind. apply wp_int_mul; [done|].
    apply wp_bind. eapply wp_run; [exact Hnew|].
    apply wp_bind. eapply wp_run; [exact Hdel|].
    apply wp_bind. eapply wp_run; [exact Hrender|]. by apply wp_ret. }
  exists g, (shown (with_heap h1 w1)
               (render_calls (cols e) (rows e * 2) (seeded_cells w n)) rd).
  split; [done|]. do 4 (split; [done|]). split.
  - destruct Hfront as (? & ? & ? & ? & ?). by repeat split.
  - simpl. by rewrite Hscreen, Hdrawn.
Qed.

Lemma main_start_run fuel rows0 cols0 w :
  fits fuel rows0 cols0 →
  let n := cols0 * (rows0 * 2) in
  ∃ g w',
    main_start fuel rows0 cols0 w
    = Ok (MainState (ncurses_new ++ [Timeout 32]) cols0 rows0 32 true g) w' ∧
    first (buffer g) = false ∧
    width (a (buffer g)) = cols0 ∧ height (a (buffer g)) = rows0 * 2 ∧
    owns (heap w) w' g ∧
    holds w' (front (buffer g)) (seeded_cells w n) ∧
    screen w' = screen w ++ render_calls cols0 (rows0 * 2) (seeded_cells w n) ∧
    drawn w' = (drawn w + Z.to_nat n)%nat.
Proof.
  intros Hfits n.
  destruct (game_of_life_new_fits fuel rows0 cols0 w Hfits)
    as (g & w1 & Hnew & Hown1 & Hfirst & Hw & Hh & Hseeded & Hscreen & Hdrawn).
  assert (holds w1 (front (buffer g)) (seeded_cells w n)) as Hfront
    by (by apply (holds_front_seeded (heap w))).
  apply fits_fuel in Hfits as (Hc & Hr & Hmax & Hr2 & _ & HfW & HfH & Hfhalf & Heven).
  destruct (render_owned fuel (heap w) _ g _ Hown1 Hfront) as (rd & Hrender & Hown2);
    [by rewrite Hh|by rewrite Hw|by rewrite Hh|].
  rewrite Hw, Hh in Hrender, Hown2.
  assert (wp (main_start fuel rows0 cols0)
            (λ s' w', s' = MainState (ncurses_new ++ [Timeout 32]) cols0 rows0 32 true g ∧
                      w' = shown w1 (render_calls cols0 (rows0 * 2) (seeded_cells w n)) rd) w)
    as (s' & w' & Hrun & -> & ->).
  { unfold main_start. cbv zeta. apply wp_bind. apply wp_int_mul; [done|].
    apply wp_bind. eapply wp_run; [exact Hnew|].
    apply wp_bind. eapply wp_run; [exact Hrender|]. by apply wp_ret. }
  exists g, (shown w1 (render_calls cols0 (rows0 * 2) (seeded_cells w n)) rd).
  split; [done|]. do 4 (split; [done|]). split.
  - destruct Hfront as (? & ? & ? & ? & ?). by repeat split.
  - simpl. by rewrite Hscreen, Hdrawn.
Qed.

(** ** The loop of [main] *)

Lemma main_inv_bounds fuel h0 w s :
  main_inv fuel h0 w s →
  Z.rem (height (a (buffer (game s)))) 2 = 0 ∧
  (Z.to_nat (width (a (buffer (game s)))) ≤ fuel)%nat ∧
  (Z.to_nat (height (a (buffer (game s)))) ≤ fuel)%nat ∧
  INT_MIN ≤ tick_ms s * 2 ≤ INT_MAX.
Proof.
  intros (_ & Hw & Hh & Hfits & Hspeed%speed_range).
  apply fits_fuel in Hfits as (_ & _ & _ & _ & _ & HfW & HfH & _ & Heven).
  rewrite Hw, Hh. unfold INT_MIN, INT_MAX. repeat split; (done || lia).
Qed.

Lemma main_inv_keyed fuel h0 w key s :
  main_inv fuel h0 w s → main_inv fuel h0 w (keyed key s).
Proof.
  intros (Hown & Hw & Hh & Hfits & Hspeed).
  destruct (keyed_frame key s) as (Hg & HW & HH).
  unfold main_inv. rewrite Hg, HW, HH. do 4 (split; [done|]).
  by apply keyed_speed_ok.
Qed.

Lemma control_of_Break key : control_of key = Break ↔ key = char "q".
Proof.
  unfold control_of. destruct (Z.eqb_spec key (char "q")); [done|].
  split; [done|]. intros Heq. done.
Qed.

(** A pass of the loop keeps the invariant, whatever the key. *)
Lemma main_iteration_run fuel h0 e s w :
  main_inv fuel h0 w s →
  (key e = KEY_RESIZE → fits fuel (rows e) (cols e)) →
  ∃ s' w',
    main_iteration fuel e s w = Ok (s', control_of (key e)) w' ∧
    main_inv fuel h0 w' s'.
Proof.
  intros Hinv Hfits. destruct (decide (key e = KEY_RESIZE)) as [Hkey|Hkey].
  - destruct Hinv as (Hown & _ & _ & _ & Hspeed).
    destruct (resize_run fuel h0 e s w Hown (Hfits Hkey))
      as (g & w' & Hrun & _ & Hw & Hh & Hown' & _).
    eexists _, w'. split.
    + unfold main_iteration. rewrite Hkey, Z.eqb_refl.
      unfold mbind, M_bind. rewrite Hrun. by rewrite control_of_resize.
    + split; [done|]. split; [done|]. split; [done|]. split; [by apply Hfits|done].
  - pose proof (main_inv_bounds _ _ _ _ Hinv) as (_ & _ & _ & Hrange).
    rewrite main_iteration_keyed by done.
    apply (main_inv_keyed _ _ _ (key e)) in Hinv.
    pose proof (main_inv_bounds _ _ _ _ Hinv) as (Heven & HfW & HfH & _).
    set (s2 := keyed (key e) s) in *.
    destruct (running s2 || (key e =? char "s")) eqn:Hstep.
    + pose proof Hinv as (Hown & Hw & Hh & Hf & Hspeed).
      destruct (owns_front _ _ _ Hown) as [src Hsrc].
      destruct (step_game_ticks fuel h0 (key e) s2 w src Hstep Hown Hsrc Heven HfW HfH)
        as (rd & rd' & w' & Hrun & _ & Hown' & _).
      rewrite Hrun. eexists _, w'. split; [done|].
      split; [exact Hown'|]. simpl. do 3 (split; [done|]). exact Hspeed.
    + rewrite step_game_idle by done. by eexists s2, w.
Qed.

Lemma main_loop_run fuel h0 events :
  ∀ s w,
    main_inv fuel h0 w s →
    Forall (λ e, key e = KEY_RESIZE → fits fuel (rows e) (cols e)) events →
    ∃ s' c w',
      main_loop fuel events s w = Ok (s', c) w' ∧
      main_inv fuel h0 w' s' ∧
      (c = Break ↔ Exists (λ e, key e = char "q") events).
Proof.
  induction events as [|e events IH]; intros s w Hinv Hfits.
  - exists s, Continue, w. split; [done|]. split; [done|].
    split; [done|]. by intros ?%Exists_nil.
  - apply Forall_cons in Hfits as [Hfit Hfits].
    destruct (main_iteration_run fuel h0 e s w Hinv Hfit) as (s1 & w1 & Hrun & Hinv1).
    simpl. unfold mbind, M_bind. rewrite Hrun. simpl.
    destruct (control_of (key e)) eqn:Hctl.
    + destruct (IH s1 w1 Hinv1 Hfits) as (s' & c & w' & Hloop & Hinv' & Hc).
      exists s', c, w'. split; [done|]. split; [done|].
      rewrite Exists_cons, Hc. split; [auto|].
      intros [Hq|Hq]; [|done]. apply control_of_Break in Hq. congruence.
    + exists s1, Break, w1. split; [done|]. split; [done|].
      split; [|done]. intros _. apply Exists_cons. left. by apply control_of_Break.
Qed.

Lemma main_start_inv fuel rows0 cols0 w :
  fits fuel rows0 cols0 →
  ∃ s w', main_start fuel rows0 cols0 w = Ok s w' ∧ main_inv fuel (heap w) w' s.
Proof.
  intros Hfits.
  destruct (main_start_run fuel rows0 cols0 w Hfits)
    as (g & w' & Hrun & _ & Hw & Hh & Hown & _).
  eexists _, w'. split; [exact Hrun|].
  split; [done|]. split; [done|]. split; [done|]. split; [done|].
  split; [by exists 5|done].
Qed.

Lemma main_exit_run h0 w s :
  owns h0 w (game s) →
  main_exit s w = Ok (console s ++ ncurses_delete, EXIT_SUCCESS) (with_heap h0 w).
Proof.
  intros Hown. unfold main_exit, mbind, M_bind.
  by rewrite (game_of_life_delete_run h0).
Qed.

(** X12. [main] never fails: on a terminal whose sizes fit, whatever keys are
    pressed, no assertion fails and no access is undefined. It has returned,
    with [EXIT_SUCCESS], exactly when a q was among the keys; then every array
    it allocated is freed and its last console call is [endwin]. While it is
    still running, the heap holds the two arrays of the simulation beside
    what it held at the start. *)
Theorem main_returns fuel rows0 cols0 events w :
  fits fuel rows0 cols0 →
  Forall (λ e, key e = KEY_RESIZE → fits fuel (rows e) (cols e)) events →
  ∃ log status w',
    main fuel rows0 cols0 events w = Ok (log, status) w' ∧
    (status = Some EXIT_SUCCESS ↔ Exists (λ e, key e = char "q") events) ∧
    (status = None ↔ ¬ Exists (λ e, key e = char "q") events) ∧
    (status = Some EXIT_SUCCESS → heap w' = heap w ∧ last log = Some Endwin) ∧
    (status = None → ∃ g, owns (heap w) w' g).
Proof.
  intros Hfits Hevents.
  destruct (main_start_inv fuel rows0 cols0 w Hfits) as (s & w1 & Hstart & Hinv).
  destruct (main_loop_run fuel (heap w) events s w1 Hinv Hevents)
    as (s' & c & w2 & Hloop & Hinv' & Hc).
  pose proof Hinv' as (Hown & _).
  unfold main, mbind, M_bind. rewrite Hstart, Hloop. simpl. destruct c.
  - eexists _, None, w2. split; [done|].
    assert (¬ Exists (λ e, key e = char "q") events) as Hno
      by (intros Hq%Hc; done).
    split; [split; [done|by intros ?%Hno]|]. split; [done|].
    split; [done|]. intros _. by exists (game s').
  - rewrite (main_exit_run (heap w)) by done. simpl.
    eexists _, (Some EXIT_SUCCESS), _. split; [done|].
    assert (Exists (λ e, key e = char "q") events) as Hq by (by apply Hc).
    split; [done|]. split; [split; [done|by intros []]|].
    split; [|done]. intros _. split; [done|].
    unfold ncurses_delete. by rewrite last_snoc.
Qed.

Lemma main_returns_witness :
  ∃ log status w',
    main 4 1 2 [Event (-1) 1 2; Event KEY_RESIZE 2 1; Event (char "q") 0 0;
                Event (char "s") 0 0]
      (quiet {[1%positive := glider3]}) = Ok (log, status) w' ∧
    status = Some EXIT_SUCCESS ∧
    heap w' = {[1%positive := glider3]} ∧
    last log = Some Endwin.
Proof.
  destruct (main_returns 4 1 2
              [Event (-1) 1 2; Event KEY_RESIZE 2 1; Event (char "q") 0 0;
               Event (char "s") 0 0]
              (quiet {[1%positive := glider3]}))
    as (log & status & w' & Hrun & Hstatus & _ & Hexit & _).
  - unfold fits, INT_MAX. simpl. lia.
  - repeat constructor; simpl; intros Hkey; try discriminate Hkey;
      unfold fits, INT_MAX; simpl; lia.
  - assert (status = Some EXIT_SUCCESS) as Hs.
    { apply Hstatus. do 2 apply Exists_cons_tl. by apply Exists_cons_hd. }
    destruct (Hexit Hs) as [Hheap Hlast].
    exists log, status, w'. by repeat split.
Defined.

(** ** What a pass of the loop can change *)

Lemma decrease_speed_Ok key s w s1 w1 :
  decrease_speed key s w = Ok s1 w1 → s1 = slower key s ∧ w1 = w.
Proof.
  unfold decrease_speed, slower.
  destruct ((key =? char "-") && (tick_ms s <? max_tick_ms)).
  - unfold mbind, M_bind, int_mul.
    destruct ((INT_MIN <=? tick_ms s * 2) && (tick_ms s * 2 <=? INT_MAX)); [|done].
    by intros [= <- <-].
  - by intros [= <- <-].
Qed.

Lemma step_game_Ok fuel key s w s' w' :
  step_game fuel key s w = Ok s' w' → ∃ g, s' = with_game g s.
Proof.
  unfold step_game. destruct (running s || (key =? char "s")).
  - unfold mbind, M_bind. destruct (tick fuel (game s) w) as [g w1|]; [|done].
    destruct (render fuel g w1); [|done]. intros [= <- <-]. by exists g.
  - intros [= <- <-]. exists (game s). by destruct s.
Qed.

Lemma resize_Ok fuel e s w s' w' :
  resize fuel e s w = Ok s' w' →
  ∃ g, s' = MainState (console s) (cols e) (rows e) (tick_ms s) (running s) g.
Proof.
  unfold resize, mbind, M_bind.
  destruct (int_mul (rows e) 2 w) as [doubled w1|]; [|done].
  destruct (game_of_life_new fuel (cols e) doubled w1) as [g w2|]; [|done].
  destruct (game_of_life_delete (game s) w2) as [[] w3|]; [|done].
  destruct (render fuel g w3); [|done]. intros [= <- <-]. by exists g.
Qed.

(** What a pass of the loop that returns has done to the variables of
    [main]: after a resize only the size and the simulation are new, and
    otherwise the variables are those set by the keys, with the simulation
    that the step left. *)
Lemma main_iteration_Ok fuel e s w s' c w' :
  main_iteration fuel e s w = Ok (s', c) w' →
  c = control_of (key e) ∧
  ((key e = KEY_RESIZE ∧
    ∃ g, s' = MainState (console s) (cols e) (rows e) (tick_ms s) (running s) g) ∨
   (key e ≠ KEY_RESIZE ∧ ∃ g, s' = with_game g (keyed (key e) s))).
Proof.
  unfold main_iteration. destruct (Z.eqb_spec (key e) KEY_RESIZE) as [Hkey|Hkey].
  - unfold mbind, M_bind. destruct (resize fuel e s w) as [s1 w1|] eqn:Hresize; [|done].
    intros [= <- <- <-]. rewrite Hkey. split; [done|]. left. split; [done|].
    by apply resize_Ok in Hresize.
  - unfold mbind at 1. unfold M_bind at 1.
    destruct (decrease_speed (key e) s w) as [s1 w1|] eqn:Hslow; [|done].
    apply decrease_speed_Ok in Hslow as [-> ->].
    unfold mbind at 1. unfold M_bind at 1. rewrite increase_speed_run.
    unfold mbind at 1. unfold M_bind at 1. fold (keyed (key e) s).
    destruct (step_game fuel (key e) (keyed (key e) s) w) as [s4 w4|] eqn:Hstep; [|done].
    apply step_game_Ok in Hstep as [g ->].
    unfold control_of. destruct (key e =? char "q"); intros [= <- <- <-];
      (split; [done|]); right; split; try done; by exists g.
Qed.

Lemma console_ok_slower key s : console_ok s → console_ok (slower key s).
Proof.
  intros Hok. unfold slower.
  destruct (key =? char "-"); [|done]. simpl.
  destruct (Z.ltb_spec (tick_ms s) max_tick_ms) as [Hlt|]; [|done].
  destruct Hok as (delays & Hconsole & Hlast & Hall).
  assert (∃ k, 4 ≤ k ≤ 10 ∧ tick_ms s * 2 = 2 ^ k) as Hpow.
  { apply last_Some_elem_of in Hlast.
    destruct (proj1 (Forall_forall _ _) Hall _ Hlast) as (k & Hk & Hpow).
    exists (k + 1). rewrite Hpow in Hlt |- *. unfold max_tick_ms in Hlt.
    assert (k = 4 ∨ k = 5 ∨ k = 6 ∨ k = 7 ∨ k = 8 ∨ k = 9 ∨ k = 10) as Hcases by lia.
    destruct Hcases as [->|[->|[->|[->|[->|[->| ->]]]]]]; simpl in *; lia. }
  exists (delays ++ [tick_ms s * 2]). cbn [console tick_ms]. split; [|split].
  - rewrite Hconsole, fmap_app. by rewrite <- app_assoc.
  - by rewrite last_snoc.
  - apply Forall_app. split; [done|]. by apply Forall_singleton.
Qed.

Lemma console_ok_faster key s : console_ok s → console_ok (faster key s).
Proof.
  intros Hok. unfold faster.
  destruct (key =? char "+"); [|done]. simpl.
  destruct (Z.gtb_spec (tick_ms s) min_tick_ms) as [Hgt|]; [|done].
  destruct Hok as (delays & Hconsole & Hlast & Hall).
  assert (∃ k, 4 ≤ k ≤ 10 ∧ Z.quot (tick_ms s) 2 = 2 ^ k) as Hpow.
  { apply last_Some_elem_of in Hlast.
    destruct (proj1 (Forall_forall _ _) Hall _ Hlast) as (k & Hk & Hpow).
    exists (k - 1). rewrite Hpow in Hgt |- *. unfold min_tick_ms in Hgt.
    assert (k = 4 ∨ k = 5 ∨ k = 6 ∨ k = 7 ∨ k = 8 ∨ k = 9 ∨ k = 10) as Hcases by lia.
    destruct Hcases as [->|[->|[->|[->|[->|[->| ->]]]]]]; simpl in *;
      (split; [lia|reflexivity]) || lia. }
  exists (delays ++ [Z.quot (tick_ms s) 2]). cbn [console tick_ms]. split; [|split].
  - rewrite Hconsole, fmap_app. by rewrite <- app_assoc.
  - by rewrite last_snoc.
  - apply Forall_app. split; [done|]. by apply Forall_singleton.
Qed.

Lemma console_ok_keyed key s : console_ok s → console_ok (keyed key s).
Proof.
  intros Hok%(console_ok_slower key)%(console_ok_faster key).
  unfold keyed, play_pause. by destruct ((key =? char "p") || (key =? char " ")).
Qed.

Lemma main_loop_console_ok fuel events :
  ∀ s w s' c w',
    main_loop fuel events s w = Ok (s', c) w' → console_ok s → console_ok s'.
Proof.
  induction events as [|e events IH]; intros s w s' c w'; simpl.
  - by intros [= <- <- <-].
  - unfold mbind, M_bind.
    destruct (main_iteration fuel e s w) as [[s1 c1] w1|] eqn:Hiter; [|done].
    apply main_iteration_Ok in Hiter as [_ Hs1]. simpl.
    intros Hloop Hok.
    assert (console_ok s1) as Hok1.
    { destruct Hs1 as [[_ [g ->]]|[_ [g ->]]]; [done|].
      by apply (console_ok_keyed (key e)) in Hok. }
    destruct c1; [by eapply IH|]. by injection Hloop as <- <- <-.
Qed.

(** X11. The delay of the loop stays a power of two from 16 to 1024, whatever
    keys are pressed, and the console sees the set-up calls once, at the
    start, and then only calls of [timeout], the last one with the present
    delay. *)
Theorem main_keeps_speed fuel rows0 cols0 events w s w1 s' c w2 :
  main_start fuel rows0 cols0 w = Ok s w1 →
  main_loop fuel events s w1 = Ok (s', c) w2 →
  console_ok s' ∧
  16 ≤ tick_ms s' ≤ 1024 ∧
  ∃ k, 4 ≤ k ≤ 10 ∧ tick_ms s' = 2 ^ k.
Proof.
  intros Hstart Hloop.
  assert (console_ok s) as Hok.
  { revert Hstart. unfold main_start, mbind, M_bind.
    destruct (int_mul rows0 2 w) as [doubled w0|]; [|done].
    destruct (game_of_life_new fuel cols0 doubled w0) as [g w0'|]; [|done].
    destruct (render fuel g w0'); [|done]. intros [= <- <-].
    exists [32]. simpl. split; [done|]. split; [done|].
    apply Forall_singleton. by exists 5. }
  apply (main_loop_console_ok _ _ _ _ _ _ _ Hloop) in Hok.
  split; [done|]. destruct Hok as (delays & _ & Hlast & Hall).
  apply last_Some_elem_of in Hlast.
  destruct (proj1 (Forall_forall _ _) Hall _ Hlast) as (k & Hk & Hpow).
  split; [|by exists k]. rewrite Hpow.
  assert (k = 4 ∨ k = 5 ∨ k = 6 ∨ k = 7 ∨ k = 8 ∨ k = 9 ∨ k = 10) as Hcases by lia.
  destruct Hcases as [->|[->|[->|[->|[->|[->| ->]]]]]]; simpl; lia.
Qed.

Lemma main_keeps_speed_witness :
  ∃ s',
    console_ok s' ∧ 16 ≤ tick_ms s' ≤ 1024 ∧ ∃ k, 4 ≤ k ≤ 10 ∧ tick_ms s' = 2 ^ k.
Proof.
  destruct (main_start_inv 4 1 2 (quiet ∅)) as (s & w1 & Hstart & Hinv).
  { unfold fits, INT_MAX. simpl. lia. }
  destruct (main_loop_run 4 _ [Event (char "-") 0 0; Event (char "-") 0 0;
                               Event (char "+") 0 0] s w1 Hinv)
    as (s' & c & w2 & Hloop & _).
  { repeat constructor; simpl; intros Hkey; discriminate Hkey. }
  exists s'.
  exact (main_keeps_speed 4 1 2 _ (quiet ∅) s w1 s' c w2 Hstart Hloop).
Defined.

(** The loop ends at the first q: the events after it are never looked at. *)
Lemma main_loop_quit fuel e events events' :
  key e = char "q" →
  ∀ s w,
    main_loop fuel (events ++ e :: events') s w = main_loop fuel (events ++ [e]) s w.
Proof.
  intros Hq. induction events as [|e0 events IH]; intros s w; simpl;
    unfold mbind, M_bind.
  - destruct (main_iteration fuel e s w) as [[s1 c1] w1|] eqn:Hiter; [|done].
    apply main_iteration_Ok in Hiter as [-> _]. simpl.
    by rewrite (proj2 (control_of_Break _) Hq).
  - destruct (main_iteration fuel e0 s w) as [[s1 c1] w1|]; [|done]. simpl.
    destruct c1; [apply IH|done].
Qed.

(** X13. A q ends the program: [main] does the same, with the same result,
    whatever events follow the q. *)
Theorem quit_ignores_later_events fuel rows0 cols0 e events events' w :
  key e = char "q" →
  main fuel rows0 cols0 (events ++ e :: events') w
  = main fuel rows0 cols0 (events ++ [e]) w.
Proof.
  intros Hq. unfold main, mbind, M_bind.
  destruct (main_start fuel rows0 cols0 w) as [s w1|]; [|done].
  by rewrite (main_loop_quit fuel e events events' Hq).
Qed.

Lemma quit_ignores_later_events_witness :
  main 4 1 2 ([Event (-1) 0 0] ++ Event (char "q") 0 0 :: [Event KEY_RESIZE 9 9])
    (quiet ∅)
  = main 4 1 2 ([Event (-1) 0 0] ++ [Event (char "q") 0 0]) (quiet ∅).
Proof.
  exact (quit_ignores_later_events 4 1 2 (Event (char "q") 0 0)
           [Event (-1) 0 0] [Event KEY_RESIZE 9 9] (quiet ∅) eq_refl).
Defined.

Lemma running_keyed key s :
  running (keyed key s)
  = if (key =? char "p") || (key =? char " ") then negb (running s) else running s.
Proof.
  unfold keyed, play_pause, faster, slower.
  destruct ((key =? char "-") && (tick_ms s <? max_tick_ms)); simpl;
    match goal with
    | |- context [(key =? char "+") && ?c] => destruct ((key =? char "+") && c)
    end; simpl;
    by destruct ((key =? char "p") || (key =? char " ")).
Qed.

(** X14. While the simulation is paused, a key other than resize, p, space and s
    touches neither the simulation nor the terminal nor the heap: the pass
    of the loop leaves the world exactly as it was. *)
Theorem paused_pass_is_idle fuel e s w :
  running s = false →
  INT_MIN ≤ tick_ms s * 2 ≤ INT_MAX →
  key e ≠ KEY_RESIZE → key e ≠ char "p" → key e ≠ char " " → key e ≠ char "s" →
  ∃ s',
    main_iteration fuel e s w = Ok (s', control_of (key e)) w ∧
    game s' = game s ∧ running s' = false ∧
    main_width s' = main_width s ∧ main_height s' = main_height s.
Proof.
  intros Hpaused Hrange Hresize Hp Hspace Hs.
  rewrite main_iteration_keyed by done.
  assert (running (keyed (key e) s) = false) as Hrun.
  { rewrite running_keyed.
    by rewrite (proj2 (Z.eqb_neq _ _) Hp), (proj2 (Z.eqb_neq _ _) Hspace). }
  rewrite step_game_idle by (by rewrite Hrun, (proj2 (Z.eqb_neq _ _) Hs)).
  destruct (keyed_frame (key e) s) as (Hg & HW & HH).
  by exists (keyed (key e) s).
Qed.

Lemma paused_pass_is_idle_witness :
  ∃ s',
    main_iteration 0 (Event (char "+") 0 0) (small_state false) (quiet small_heap)
    = Ok (s', Continue) (quiet small_heap) ∧
    game s' = game (small_state false) ∧ running s' = false ∧
    main_width s' = 2 ∧ main_height s' = 1.
Proof.
  apply (paused_pass_is_idle 0 (Event (char "+") 0 0) (small_state false)
           (quiet small_heap)); simpl; try done; by_computing.
Defined.

(** ** One generation per pass *)

(** A pass of the loop in which the simulation steps: the state is the one
    set by the keys with the buffers swapped, the new front grid holds the
    next generation of the old one, one frame of it is drawn, and no variate
    is drawn. *)
Lemma stepping_pass_run fuel h0 e s w src :
  main_inv fuel h0 w s →
  holds w (front (buffer (game s))) src →
  key e ≠ KEY_RESIZE →
  running (keyed (key e) s) || (key e =? char "s") = true →
  let W := width (a (buffer (game s))) in
  let H := height (a (buffer (game s))) in
  let s' := with_game (GameOfLife (swap (buffer (game s)))) (keyed (key e) s) in
  ∃ w',
    main_iteration fuel e s w = Ok (s', control_of (key e)) w' ∧
    main_inv fuel h0 w' s' ∧
    holds w' (front (buffer (game s'))) (next_cells W H src) ∧
    screen w' = screen w ++ render_calls W H (next_cells W H src) ∧
    drawn w' = drawn w.
Proof.
  intros Hinv Hsrc Hkey Hstep gw gh s'.
  pose proof (main_inv_bounds _ _ _ _ Hinv) as (_ & _ & _ & Hrange).
  apply (main_inv_keyed _ _ _ (key e)) in Hinv.
  pose proof (main_inv_bounds _ _ _ _ Hinv) as (Heven & HfW & HfH & _).
  destruct (keyed_frame (key e) s) as (Hg & HW & HH).
  pose proof Hinv as (Hown & Hw & Hh & Hf & Hspeed).
  rewrite <- Hg in Hsrc.
  destruct (step_game_ticks fuel h0 (key e) _ w src Hstep Hown Hsrc Heven HfW HfH)
    as (rd & rd' & w' & Hrun & Hw' & Hown' & Hnew).
  rewrite Hg in Hrun, Hw', Hown', Hnew. fold gw gh s' in Hrun, Hw', Hnew.
  rewrite Hg in Hw, Hh.
  exists w'. rewrite main_iteration_keyed, Hrun by done.
  split; [done|]. split; [|split; [done|by rewrite Hw']].
  split; [exact Hown'|]. simpl. do 3 (split; [done|]). exact Hspeed.
Qed.

(** X15. The step of the simulation from the keyboard: an s, or any key but
    resize while the simulation runs and is not paused by this key, or p or
    space while it is paused, advances the simulation by exactly one generation
    and draws it. *)
Theorem stepping_pass_advances_one_generation fuel h0 e s w src :
  main_inv fuel h0 w s →
  holds w (front (buffer (game s))) src →
  key e ≠ KEY_RESIZE →
  key e = char "s" ∨
  (running s = true ∧ key e ≠ char "p" ∧ key e ≠ char " ") ∨
  (running s = false ∧ (key e = char "p" ∨ key e = char " ")) →
  let W := main_width s in
  let H := main_height s * 2 in
  ∃ s' w',
    main_iteration fuel e s w = Ok (s', control_of (key e)) w' ∧
    buffer (game s') = swap (buffer (game s)) ∧
    holds w' (front (buffer (game s'))) (next_cells W H src) ∧
    screen w' = screen w ++ render_calls W H (next_cells W H src) ∧
    drawn w' = drawn w ∧
    main_inv fuel h0 w' s'.
Proof.
  intros Hinv Hsrc Hkey Hcase gw gh.
  assert (running (keyed (key e) s) || (key e =? char "s") = true) as Hstep.
  { rewrite running_keyed. destruct Hcase as [Hs|[(Hrun & Hp & Hspace)|[Hrun Hp]]].
    - rewrite Hs, Z.eqb_refl. apply orb_true_r.
    - by rewrite (proj2 (Z.eqb_neq _ _) Hp), (proj2 (Z.eqb_neq _ _) Hspace), Hrun.
    - rewrite Hrun. by destruct Hp as [-> | ->]. }
  destruct (stepping_pass_run fuel h0 e s w src Hinv Hsrc Hkey Hstep)
    as (w' & Hrun & Hinv' & Hnew & Hscreen & Hdrawn).
  destruct Hinv as (_ & Hw & Hh & _). rewrite Hw, Hh in Hnew, Hscreen.
  eexists _, w'. split; [exact Hrun|]. split; [done|].
  split; [exact Hnew|]. split; [exact Hscreen|]. split; [exact Hdrawn|exact Hinv'].
Qed.

Lemma small_state_inv running0 :
  main_inv 4 ∅ (quiet small_heap) (small_state running0).
Proof.
  split.
  - exists (dead 4), [true; true; true; true]. simpl.
    repeat split; try done; unfold INT_MAX; lia.
  - simpl. do 2 (split; [done|]). split; [unfold fits, INT_MAX; simpl; lia|].
    split; [by exists 5|done].
Qed.

Lemma small_state_front running0 :
  holds (quiet small_heap) (front (buffer (game (small_state running0))))
    [true; true; true; true].
Proof. holds_here. Qed.

Lemma stepping_pass_advances_one_generation_witness :
  ∃ s' w',
    main_iteration 4 (Event (char "s") 0 0) (small_state false) (quiet small_heap)
    = Ok (s', Continue) w' ∧
    buffer (game s') = swap (buffer (game (small_state false))) ∧
    holds w' (front (buffer (game s'))) (next_cells 2 2 [true; true; true; true]) ∧
    screen w' = [] ++ render_calls 2 2 (next_cells 2 2 [true; true; true; true]) ∧
    drawn w' = 0%nat ∧
    main_inv 4 ∅ w' s'.
Proof.
  exact (stepping_pass_advances_one_generation 4 ∅ (Event (char "s") 0 0)
           (small_state false) (quiet small_heap) [true; true; true; true]
           (small_state_inv false) (small_state_front false)
           ltac:(simpl; discriminate) (or_introl eq_refl)).
Defined.

(** ** Resizing *)

(** X16. A resize event replaces the simulation by a freshly seeded one of the
    new size, twice as high as the terminal, draws it and does not step it;
    the arrays of the old simulation are freed, and the delay, the pause flag
    and the console are as before. *)
Theorem resize_pass_rebuilds fuel h0 e s w :
  owns h0 w (game s) →
  key e = KEY_RESIZE →
  fits fuel (rows e) (cols e) →
  let n := cols e * (rows e * 2) in
  ∃ s' w',
    main_iteration fuel e s w = Ok (s', Continue) w' ∧
    main_width s' = cols e ∧ main_height s' = rows e ∧
    tick_ms s' = tick_ms s ∧ running s' = running s ∧ console s' = console s ∧
    width (front (buffer (game s'))) = cols e ∧
    height (front (buffer (game s'))) = rows e * 2 ∧
    owns h0 w' (game s') ∧
    holds w' (front (buffer (game s'))) (seeded_cells w n) ∧
    screen w' = screen w ++ render_calls (cols e) (rows e * 2) (seeded_cells w n) ∧
    drawn w' = (drawn w + Z.to_nat n)%nat.
Proof.
  intros Hown Hkey Hfits n.
  destruct (resize_run fuel h0 e s w Hown Hfits)
    as (g & w' & Hrun & Hfirst & Hw & Hh & Hown' & Hfront & Hscreen & Hdrawn).
  destruct (front_dimensions _ _ _ Hown') as [HWf HHf].
  eexists _, w'. split.
  { unfold main_iteration. rewrite Hkey, Z.eqb_refl.
    unfold mbind, M_bind. by rewrite Hrun. }
  simpl. do 5 (split; [done|]). split; [by rewrite HWf|]. split; [by rewrite HHf|].
  split; [exact Hown'|]. split; [exact Hfront|]. split; [exact Hscreen|exact Hdrawn].
Qed.

Lemma resize_pass_rebuilds_witness :
  ∃ s' w',
    main_iteration 4 (Event KEY_RESIZE 1 1) (small_state true) (quiet small_heap)
    = Ok (s', Continue) w' ∧
    main_width s' = 1 ∧ main_height s' = 1 ∧
    tick_ms s' = 32 ∧ running s' = true ∧
    width (front (buffer (game s'))) = 1 ∧
    height (front (buffer (game s'))) = 2 ∧
    owns ∅ w' (game s') ∧
    drawn w' = 2%nat.
Proof.
  destruct (resize_pass_rebuilds 4 ∅ (Event KEY_RESIZE 1 1) (small_state true)
              (quiet small_heap))
    as (s' & w' & Hrun & Hw & Hh & Htick & Hrunning & _ & HW & HH & Hown & _ & _ & Hdrawn).
  - by destruct (small_state_inv true).
  - done.
  - unfold fits, INT_MAX. simpl. lia.
  - exists s', w'. do 7 (split; [done|]). split; [exact Hown|exact Hdrawn].
Defined.

(** ** Generations *)

Lemma plain_keyed key s :
  plain key → running s = true → running (keyed key s) = true.
Proof.
  intros (_ & Hp & Hspace & _) Hrun. rewrite running_keyed.
  by rewrite (proj2 (Z.eqb_neq _ _) Hp), (proj2 (Z.eqb_neq _ _) Hspace).
Qed.

(** X17. While the simulation runs, every pass of the loop whose key is none of
    resize, p, space and q advances it by one generation: after as many
    passes as there are events, the front grid holds that many generations
    after the start, the buffers have been swapped that many times, and no
    variate has been drawn. *)
Theorem running_loop_counts_generations fuel h0 events :
  ∀ s w src,
    main_inv fuel h0 w s →
    holds w (front (buffer (game s))) src →
    running s = true →
    Forall (λ e, plain (key e)) events →
    ∃ s' w',
      main_loop fuel events s w = Ok (s', Continue) w' ∧
      running s' = true ∧
      main_inv fuel h0 w' s' ∧
      buffer (game s') = Nat.iter (length events) swap (buffer (game s)) ∧
      holds w' (front (buffer (game s')))
        (Nat.iter (length events) (next_cells (main_width s) (main_height s * 2)) src) ∧
      drawn w' = drawn w.
Proof.
  induction events as [|e events IH]; intros s w src Hinv Hsrc Hrun Hplain.
  - exists s, w. do 4 (split; [done|]). split; [exact Hsrc|done].
  - apply Forall_cons in Hplain as [He Hplain].
    pose proof He as (Hresize & _ & _ & Hq).
    pose proof (plain_keyed _ _ He Hrun) as Hrun1.
    destruct (stepping_pass_run fuel h0 e s w src Hinv Hsrc Hresize)
      as (w1 & Hiter & Hinv1 & Hnew & _ & Hdrawn1); [by rewrite Hrun1|].
    set (s1 := with_game _ _) in *.
    destruct Hinv as (_ & Hw & Hh & _). rewrite Hw, Hh in Hnew.
    destruct (keyed_frame (key e) s) as (Hg & HW & HH).
    destruct (IH s1 w1 _ Hinv1 Hnew Hrun1 Hplain)
      as (s' & w' & Hloop & Hrun' & Hinv' & Hbuf & Hcells & Hdrawn).
    exists s', w'. split.
    { simpl. unfold mbind, M_bind. rewrite Hiter. simpl.
      assert (control_of (key e) = Continue) as ->; [|done].
      unfold control_of. by rewrite (proj2 (Z.eqb_neq _ _) Hq). }
    change (length (e :: events)) with (S (length events)).
    rewrite !Nat.iter_succ_r.
    split; [done|]. split; [done|]. split; [|split].
    + by rewrite Hbuf.
    + simpl in Hcells. by rewrite HW, HH in Hcells.
    + congruence.
Qed.

Lemma running_loop_counts_generations_witness :
  ∃ s' w',
    main_loop 4 [Event (-1) 0 0; Event (char "s") 0 0; Event (char "-") 0 0]
      (small_state true) (quiet small_heap) = Ok (s', Continue) w' ∧
    running s' = true ∧
    main_inv 4 ∅ w' s' ∧
    buffer (game s') = Nat.iter 3 swap (buffer (game (small_state true))) ∧
    holds w' (front (buffer (game s')))
      (Nat.iter 3 (next_cells 2 2) [true; true; true; true]) ∧
    drawn w' = 0%nat.
Proof.
  apply (running_loop_counts_generations 4 ∅
           [Event (-1) 0 0; Event (char "s") 0 0; Event (char "-") 0 0]
           (small_state true) (quiet small_heap) [true; true; true; true]).
  - apply small_state_inv.
  - apply small_state_front.
  - done.
  - repeat constructor; simpl; discriminate.
Defined.

(** [main] run by the code itself on a terminal of one row and two columns:
    a timeout, a pause, a single step, a resize to one column, a slower
    delay, and q; the event after the q is not looked at. *)
Example main_session :
  match main 4 1 2
          [Event (-1) 1 2; Event (char "p") 1 2; Event (char "s") 1 2;
           Event KEY_RESIZE 1 1; Event (char "-") 0 0; Event (char "q") 0 0;
           Event KEY_RESIZE (-1) (-1)]
          (World ∅ [] [] [] 0 (λ _ _, true) (λ k, Z.of_nat k `mod` 4)) with
  | Ok r w' => Some (r, heap w', screen w', drawn w')
  | Fail _ => None
  end
  = Some ((ncurses_new ++ [Timeout 32; Timeout 64; Endwin], Some EXIT_SUCCESS),
          ∅,
          [Move 0 0; Addstr "▀"; Addstr " "; Refresh;
           Move 0 0; Addstr " "; Addstr " "; Refresh;
           Move 0 0; Addstr " "; Addstr " "; Refresh;
           Move 0 0; Addstr "▀"; Refresh],
          6%nat).
Proof. vm_compute. reflexivity. Qed.
